(** * RemovePictureWatermark: the pixel buffer and the inverse alpha blend

    A shallow embedding of [src/main.cpp]: the [Pixel] and [WebPImage]
    structs with their accessors, the lambda [Eq] of [main] and the two
    nested loops that rebuild the picture under the mask, then [read_file],
    [open_webp] and the rest of [main] over a table of files and the three
    functions of libwebp they call.

    Conventions.
    - [uint8_t], [int] and [size_t] values are integers of [Z]; every
      implicit conversion of the source is written out ([uint8_of_int],
      [size_t_of_int]) and [size_t] arithmetic wraps modulo [2^64].
    - [float] is IEEE 754 binary32, modelled by [spec_float] with a 24 bit
      significand and round to nearest even.
    - a result of type [option] is [None] exactly where the C++ program has
      no defined behaviour: an index outside a [std::vector], or a [float]
      whose truncation does not fit the [uint8_t] it is stored into. *)

From Stdlib Require Import ZArith Lia SpecFloat Reals Lra.
From stdpp Require Import base option list gmap strings.

Local Open Scope Z_scope.

(** ** Machine integers *)

Definition size_t_modulus : Z := 2 ^ 64.
Definition int_max : Z := 2 ^ 31 - 1.

(** Conversion of an [int] to [size_t] (the usual arithmetic conversion of
    [x > width] and of [y * width + x]). *)
Definition size_t_of_int (i : Z) : Z := i mod size_t_modulus.

(** Conversion of an [int] to [uint8_t] (the [c_overlay] argument of [Eq]). *)
Definition uint8_of_int (i : Z) : Z := i mod 256.

(** ** binary32 arithmetic *)

Module F32.
Definition prec : Z := 24.
Definition emax : Z := 128.

Definition add : spec_float → spec_float → spec_float := SFadd prec emax.
Definition sub : spec_float → spec_float → spec_float := SFsub prec emax.
Definition mul : spec_float → spec_float → spec_float := SFmul prec emax.
Definition div : spec_float → spec_float → spec_float := SFdiv prec emax.
Definition ltb : spec_float → spec_float → bool := SFltb.

(** [static_cast<float>] of an integer, and integer literals such as
    [255.f]. *)
Definition of_Z (z : Z) : spec_float := binary_normalize prec emax z 0 false.

(** A dyadic literal [m * 2^e], for instance [0.5f = of_dyadic 1 (-1)]. *)
Definition of_dyadic (m e : Z) : spec_float :=
  binary_normalize prec emax m e false.

(** The integer part of a float, rounded toward zero; infinities and NaN
    have none. *)
Definition truncate (f : spec_float) : option Z :=
  match f with
  | S754_zero _ => Some 0
  | S754_finite s m e =>
      Some (cond_Zopp s
              (match e with
               | Zneg p => Z.shiftr (Zpos m) (Zpos p)
               | _ => Z.shiftl (Zpos m) e
               end))
  | S754_infinity _ | S754_nan => None
  end.

(** Floating-integral conversion to [uint8_t]: the value is truncated, and
    the behaviour is undefined when the truncated value is not a
    [uint8_t]. *)
Definition to_uint8 (f : spec_float) : option Z :=
  z ← truncate f;
  if bool_decide (0 ≤ z ≤ 255) then Some z else None.

(** [std::clamp(v, lo, hi)]: [lo] if [v < lo], [hi] if [hi < v], else [v]. *)
Definition clamp (v lo hi : spec_float) : spec_float :=
  if ltb v lo then lo else if ltb hi v then hi else v.
End F32.

Global Instance spec_float_eq_dec : EqDecision spec_float.
Proof. solve_decision. Defined.

Definition half : spec_float := F32.of_dyadic 1 (-1).
Definition three_quarters : spec_float := F32.of_dyadic 3 (-2).

(** [k / 8] as a binary32 value. *)
Definition eighths (k : Z) : spec_float := F32.of_dyadic k (-3).

(** A value an operation can return: not NaN, and with a significand of at
    most 24 bits when it is finite. *)
Definition rounded (f : spec_float) : Prop :=
  match f with
  | S754_nan => False
  | S754_finite _ m _ => Z.pos m < 2 ^ 24
  | _ => True
  end.

Definition finite_or_zero (f : spec_float) : Prop :=
  match f with
  | S754_zero _ | S754_finite _ _ _ => True
  | _ => False
  end.

(** The binary32 number [s * 2^k], for [s] of at most 24 bits. *)
Definition canonical (s k : Z) : spec_float :=
  match s with
  | 0 => S754_zero false
  | _ =>
      S754_finite (s <? 0) (Z.to_pos (Z.abs s * 2 ^ (24 - Zdigits2 s)))
        (Zdigits2 s + k - 24)
  end.

(** A finite non-zero [alpha] of magnitude below 2. *)
Definition moderate (alpha : spec_float) : Prop :=
  match alpha with
  | S754_finite _ m e => Z.pos m < 2 ^ 24 ∧ e ≤ -23
  | _ => False
  end.

(** The intended domain of the blend factor: a binary32 number with
    [0 < alpha] and [alpha <= 1]. *)
Definition in_unit_interval (alpha : spec_float) : Prop :=
  valid_binary F32.prec F32.emax alpha = true
  ∧ F32.ltb (S754_zero false) alpha = true
  ∧ F32.ltb (F32.of_Z 1) alpha = false.

(** ** Binary32 numbers as real numbers *)

(** [2^e] as a real number. *)
Definition bpow (e : Z) : R := powerRZ 2 e.

(** The real number a binary32 value stands for; infinities and NaN stand
    for none and are given 0. *)
Definition F2R (f : spec_float) : R :=
  match f with
  | S754_finite s m e => (IZR (cond_Zopp s (Z.pos m)) * bpow e)%R
  | _ => 0%R
  end.

(** [1] or [-1]. *)
Definition sign_of (s : bool) : R := if s then (-1)%R else 1%R.

(** The least blend factor of the round trip, 1/2 + 2^-12. *)
Definition round_trip_low : spec_float := F32.of_dyadic 2049 (-12).

(** A binary32 blend factor with [1/2 + 2^-12 <= alpha <= 1]. *)
Definition above_half (alpha : spec_float) : Prop :=
  in_unit_interval alpha ∧ F32.ltb alpha round_trip_low = false.

(** ** Pixels and images *)

Record Pixel := mkPixel { r : Z; g : Z; b : Z }.

Global Instance Pixel_eq_dec : EqDecision Pixel.
Proof. solve_decision. Defined.

Definition WHITE : Pixel := {| r := 255; g := 255; b := 255 |}.
Definition BLACK : Pixel := {| r := 0; g := 0; b := 0 |}.

(** The value-initialised pixel [{ }] returned by the guards of
    [get_pixel]. *)
Definition default_pixel : Pixel := {| r := 0; g := 0; b := 0 |}.

Record WebPImage := mkWebPImage {
  data : list Z;
  pixels : list Pixel;
  width : Z;
  height : Z
}.

(** [pixels[i]] with [i] a [size_t]: undefined outside the vector. *)
Definition vector_at (v : list Pixel) (i : Z) : option Pixel :=
  v !! Z.to_nat i.

(** [pixels[i] = p]: undefined outside the vector. *)
Definition vector_store (v : list Pixel) (i : Z) (p : Pixel)
  : option (list Pixel) :=
  if bool_decide (i < Z.of_nat (length v)) then Some (<[Z.to_nat i := p]> v)
  else None.

(** The image with its pixel vector replaced; the other members are kept. *)
Definition with_pixels (img : WebPImage) (v : list Pixel) : WebPImage :=
  {| data := data img; pixels := v; width := width img; height := height img |}.

(** The index expression [y * width + x], computed in [size_t]. *)
Definition pixel_index (img : WebPImage) (x y : Z) : Z :=
  (y * size_t_of_int (width img) + x) mod size_t_modulus.

Definition get_pixel (img : WebPImage) (x y : Z) : option Pixel :=
  if bool_decide (x > size_t_of_int (width img)) then Some default_pixel
  else if bool_decide (y > size_t_of_int (height img)) then Some default_pixel
  else vector_at (pixels img) (pixel_index img x y).

Definition set_pixel (img : WebPImage) (x y : Z) (p : Pixel)
  : option WebPImage :=
  if bool_decide (x > size_t_of_int (width img)) then Some img
  else if bool_decide (y > size_t_of_int (height img)) then Some img
  else
    v ← vector_store (pixels img) (pixel_index img x y) p;
    Some (with_pixels img v).

(** ** The body of [main] after the two images are decoded *)

(** A counted loop [for (auto i = 0; i < n; ++i) body] whose body may be
    undefined: the iterations run in order over [0 .. n-1]. *)
Fixpoint for_each {A S : Type} (body : A → S → option S) (l : list A) (s : S)
  : option S :=
  match l with
  | [] => Some s
  | a :: l' => s' ← body a s; for_each body l' s'
  end.

Module main.
(** The lambda [Eq]. *)
Definition Eq (c_final : Z) (alpha : spec_float) (c_overlay : Z)
  : spec_float :=
  let value :=
    F32.div
      (F32.sub (F32.of_Z c_final)
               (F32.mul (F32.of_Z c_overlay) (F32.sub (F32.of_Z 1) alpha)))
      alpha in
  F32.clamp value (S754_zero false) (F32.of_Z 255).

Section loop.
Variables (image mask : WebPImage) (alpha : spec_float).
Variables (overlay_r overlay_g overlay_b : Z).

(** The body of the inner loop at [(x, y)], acting on [recovered]. The
    [int] counters become [size_t] arguments of the accessors and the [int]
    overlay channels become [uint8_t] arguments of [Eq]; each [float]
    returned by [Eq] is stored into a [uint8_t] member. *)
Definition body (x y : Z) (recovered : WebPImage) : option WebPImage :=
  c_mask ← get_pixel mask (size_t_of_int x) (size_t_of_int y);
  if bool_decide (c_mask = BLACK) then Some recovered
  else
    c_f ← get_pixel image (size_t_of_int x) (size_t_of_int y);
    cr ← F32.to_uint8 (Eq (r c_f) alpha (uint8_of_int overlay_r));
    cg ← F32.to_uint8 (Eq (g c_f) alpha (uint8_of_int overlay_g));
    cb ← F32.to_uint8 (Eq (b c_f) alpha (uint8_of_int overlay_b));
    set_pixel recovered (size_t_of_int x) (size_t_of_int y)
      {| r := cr; g := cg; b := cb |}.

(** The inner loop [for (auto x = 0; x < image.width; ++x)]. *)
Definition row (y : Z) (recovered : WebPImage) : option WebPImage :=
  for_each (λ x, body x y) (seqZ 0 (width image)) recovered.

(** [WebPImage recovered = image;] followed by the outer loop
    [for (auto y = 0; y < image.height; ++y)]. *)
Definition unblend : option WebPImage :=
  for_each row (seqZ 0 (height image)) image.

(** The same body run over an arbitrary sequence of coordinates. *)
Definition unblend_in_order (order : list (Z * Z)) : option WebPImage :=
  for_each (λ c, body c.1 c.2) order image.
End loop.
End main.

(** ** Vocabulary of the statements *)

(** [width] and [height] are non-negative [int]s. *)
Definition dims_ok (img : WebPImage) : Prop :=
  0 ≤ width img ≤ int_max ∧ 0 ≤ height img ≤ int_max.

(** A [size_t] value. *)
Definition is_size_t (x : Z) : Prop := 0 ≤ x < size_t_modulus.

Definition is_uint8 (c : Z) : Prop := 0 ≤ c ≤ 255.

Definition pixel_ok (p : Pixel) : Prop :=
  is_uint8 (r p) ∧ is_uint8 (g p) ∧ is_uint8 (b p).

(** The invariant of a decoded image: [pixels.size() == width * height] and
    every channel is a [uint8_t]. *)
Definition wf_image (img : WebPImage) : Prop :=
  dims_ok img
  ∧ Z.of_nat (length (pixels img)) = width img * height img
  ∧ Forall pixel_ok (pixels img).

(** [(x, y)] is visited by the loops over an image of the given size. *)
Definition in_frame (W H : Z) (c : Z * Z) : Prop :=
  0 ≤ c.1 < W ∧ 0 ≤ c.2 < H.

(** The coordinates in the order the two loops visit them. *)
Definition coords (W H : Z) : list (Z * Z) :=
  y ← seqZ 0 H; (λ x, (x, y)) <$> seqZ 0 W.

(** What one masked pixel becomes: the three calls of [Eq] and the three
    stores into [c_original]. *)
Definition recover (alpha : spec_float) (overlay_r overlay_g overlay_b : Z)
    (c_f : Pixel) : option Pixel :=
  cr ← F32.to_uint8 (main.Eq (r c_f) alpha (uint8_of_int overlay_r));
  cg ← F32.to_uint8 (main.Eq (g c_f) alpha (uint8_of_int overlay_g));
  cb ← F32.to_uint8 (main.Eq (b c_f) alpha (uint8_of_int overlay_b));
  Some {| r := cr; g := cg; b := cb |}.

(** What the loop body decides at one coordinate, as a function of the two
    inputs only: [None] is undefined behaviour, [Some None] leaves the pixel
    alone, [Some (Some p)] stores [p]. *)
Definition cell (image mask : WebPImage) (alpha : spec_float)
    (overlay_r overlay_g overlay_b : Z) (c : Z * Z) : option (option Pixel) :=
  c_mask ← get_pixel mask c.1 c.2;
  if bool_decide (c_mask = BLACK) then Some None
  else
    c_f ← get_pixel image c.1 c.2;
    p ← recover alpha overlay_r overlay_g overlay_b c_f;
    Some (Some p).

(** The linear index the loops address at a coordinate of [image]. *)
Definition idx (image : WebPImage) (c : Z * Z) : Z := c.2 * width image + c.1.

(** [recovered] still has the members of [image] the loops never assign. *)
Definition same_frame (image recovered : WebPImage) : Prop :=
  width recovered = width image
  ∧ height recovered = height image
  ∧ data recovered = data image.

(** The effect of the body once its decision is known. *)
Definition store_cell (recovered : WebPImage) (i : Z) (o : option Pixel)
  : option WebPImage :=
  match o with
  | None => Some recovered
  | Some p =>
      v ← vector_store (pixels recovered) i p; Some (with_pixels recovered v)
  end.

(** The value [(c_final - c_overlay * (1 - alpha)) / alpha] before
    [std::clamp]. *)
Definition inverse_blend (c_final : Z) (alpha : spec_float) (c_overlay : Z)
  : spec_float :=
  F32.div
    (F32.sub (F32.of_Z c_final)
             (F32.mul (F32.of_Z c_overlay) (F32.sub (F32.of_Z 1) alpha)))
    alpha.

(** The channel [n] stored for a masked pixel: the clamped value narrowed
    to [uint8_t], which is 0 below the range and 255 above it. *)
Definition recovered_channel (c_final : Z) (alpha : spec_float)
    (c_overlay n : Z) : Prop :=
  let value := inverse_blend c_final alpha c_overlay in
  F32.to_uint8 (F32.clamp value (S754_zero false) (F32.of_Z 255)) = Some n
  ∧ is_uint8 n
  ∧ (F32.ltb value (S754_zero false) = true → n = 0)
  ∧ (F32.ltb (F32.of_Z 255) value = true → n = 255).

(** The precondition on the mask: the dimensions of [image] and a pixel
    vector of that size. *)
Definition mask_fits (image mask : WebPImage) : Prop :=
  width mask = width image
  ∧ height mask = height image
  ∧ Z.of_nat (length (pixels mask)) = width image * height image.

(** The exact value [(-1)^s * m * 2^e] of a finite float rounded toward
    zero to an integer, by the truncating division of [Z]. *)
Definition trunc_toward_zero (f : spec_float) : Z :=
  match f with
  | S754_finite s m e =>
      Z.quot (cond_Zopp s (Zpos m) * 2 ^ Z.max e 0) (2 ^ Z.max (- e) 0)
  | _ => 0
  end.

(** Every channel store of the masked pixels is defined for [alpha]. *)
Definition narrowing_defined (alpha : spec_float) : Prop :=
  ∀ c ov, is_uint8 c → is_uint8 ov →
    is_Some (F32.to_uint8 (main.Eq c alpha ov)).

Definition all_uint8 : list Z := seqZ 0 256.


(** ** The forward blend of the round-trip property *)

(** How the forward blend turns a clamped float into an 8 bit channel. *)
Inductive rounding := ToNearestEven | ToNearestAway | TowardZero.

(** Modelled from the spec: the rounding "to 8 bits" of the forward blend,
    which is not part of the repository; the rounding rule is a parameter
    because the spec does not fix it. *)
Definition round_to_uint8 (rm : rounding) (f : spec_float) : option Z :=
  match f with
  | S754_zero _ => Some 0
  | S754_finite false m (Zneg p) =>
      let q := Z.shiftr (Zpos m) (Zpos p) in
      let rest := Z.land (Zpos m) (Z.ones (Zpos p)) in
      let tie := Z.shiftl 1 (Zpos p - 1) in
      let up :=
        match rm with
        | TowardZero => false
        | ToNearestAway => tie <=? rest
        | ToNearestEven => (tie <? rest) || ((tie =? rest) && Z.odd q)
        end in
      let n := if up then q + 1 else q in
      if bool_decide (n ≤ 255) then Some n else None
  | S754_finite false m e =>
      let n := Z.shiftl (Zpos m) e in
      if bool_decide (n ≤ 255) then Some n else None
  | _ => None
  end.

(** Modelled from the spec: the forward blend of one channel,
    [F_c = O_c * alpha + V_c * (1 - alpha)] in binary32, clamped to
    [0, 255] and rounded to 8 bits; the repository has only its inverse. *)
Definition blend_channel (rm : rounding) (o : Z) (alpha : spec_float) (v : Z)
  : option Z :=
  round_to_uint8 rm
    (F32.clamp
       (F32.add (F32.mul (F32.of_Z o) alpha)
                (F32.mul (F32.of_Z v) (F32.sub (F32.of_Z 1) alpha)))
       (S754_zero false) (F32.of_Z 255)).

Definition blend_pixel (rm : rounding) (alpha : spec_float) (vr vg vb : Z)
    (o : Pixel) : option Pixel :=
  fr ← blend_channel rm (r o) alpha vr;
  fg ← blend_channel rm (g o) alpha vg;
  fb ← blend_channel rm (b o) alpha vb;
  Some {| r := fr; g := fg; b := fb |}.

(** Modelled from the spec: [composite(O, V, alpha)], the forward blend of
    every pixel of [O] with the overlay colour [V]. *)
Definition composite (rm : rounding) (O : WebPImage) (alpha : spec_float)
    (vr vg vb : Z) : option WebPImage :=
  v ← mapM (blend_pixel rm alpha vr vg vb) (pixels O);
  Some (with_pixels O v).

Definition close_channel (a c : Z) : Prop := Z.abs (a - c) ≤ 1.

Definition close_pixel (p q : Pixel) : Prop :=
  close_channel (r p) (r q)
  ∧ close_channel (g p) (g q)
  ∧ close_channel (b p) (b q).

(** The round trip: blending [O] forward and unblending the result gives a
    buffer within 1 of [O] in every channel of every pixel. *)
Definition round_trip (rm : rounding) (O mask : WebPImage)
    (alpha : spec_float) (vr vg vb : Z) : Prop :=
  ∃ F R,
    composite rm O alpha vr vg vb = Some F
    ∧ main.unblend F mask alpha vr vg vb = Some R
    ∧ Forall2 close_pixel (pixels R) (pixels O).

(** The integers [lo, lo + 1, ...], [n] of them. *)
Fixpoint Z_range (n : nat) (lo : Z) : list Z :=
  match n with
  | O => []
  | S n' => lo :: Z_range n' (lo + 1)
  end.

(** What the operations do on channels and the blend factor [kk / 8], with
    every value counted in eighths: the products with [alpha] and with
    [1 - alpha] are exact, and the quotient by [alpha], clamped and
    narrowed, is the integer part of [a / kk] kept inside [0, 255]. *)
Definition blend_table_check (kk : Z) : bool :=
  let alpha := eighths kk in
  let t := F32.sub (F32.of_Z 1) alpha in
  forallb (λ o,
    bool_decide (F32.mul (F32.of_Z o) alpha = canonical (kk * o) (-3))
    && bool_decide (F32.mul (F32.of_Z o) t = canonical ((8 - kk) * o) (-3)))
    all_uint8
  && forallb (λ a,
       match F32.to_uint8
               (F32.clamp (F32.div (canonical a (-3)) alpha)
                  (S754_zero false) (F32.of_Z 255))
       with
       | Some n =>
           if a <? 0 then n =? 0
           else (kk * n <=? a) && ((a <? kk * (n + 1)) || (n =? 255))
       | None => false
       end) (Z_range (Z.to_nat (2041 + (8 - kk) * 255)) (- ((8 - kk) * 255))).

(** Rounding [s / 8] to 8 bits gives a channel at most 4/8 away. *)
Definition rounding_table_check (rm : rounding) : bool :=
  forallb (λ s,
    match round_to_uint8 rm
            (F32.clamp (canonical s (-3)) (S754_zero false) (F32.of_Z 255))
    with
    | Some f => (0 <=? f) && (f <=? 255) && (Z.abs (8 * f - s) <=? 4)
    | None => false
    end) (Z_range 2041 0).

(** ** Files and the WebP library *)

(** [sizeof(Pixel)]: three [uint8_t] members. *)
Definition sizeof_Pixel : Z := 3.

(** Conversion of a [size_t] to [int] (the stride arguments of libwebp). *)
Definition int_of_size_t (n : Z) : Z := (n + 2 ^ 31) mod 2 ^ 32 - 2 ^ 31.

(** The storage of a pixel vector as
    [reinterpret_cast<uint8_t *>(pixels.data())] sees it. *)
Definition bytes_of_pixels (v : list Pixel) : list Z :=
  p ← v; [r p; g p; b p].

(** The pixel vector whose storage holds the bytes [l]. *)
Fixpoint pixels_of_bytes (l : list Z) : list Pixel :=
  match l with
  | cr :: cg :: cb :: l' =>
      {| r := cr; g := cg; b := cb |} :: pixels_of_bytes l'
  | _ => []
  end.

(** The three functions of libwebp that the program calls, as functions of
    what they read:
    - [WebPGetInfo data] is [Some (width, height)] when the call returns
      non-zero, the only case in which it assigns the two [int]s;
    - [WebPDecodeRGBInto data buffer stride] is whether the returned pointer
      is not null, with the content of the output buffer after the call;
    - [WebPEncodeLosslessRGB rgb width height stride] is the encoded file,
      [None] when [*output] is null after the call. *)
Record LibWebP := mkLibWebP {
  WebPGetInfo : list Z → option (Z * Z);
  WebPDecodeRGBInto : list Z → list Z → Z → bool * list Z;
  WebPEncodeLosslessRGB : list Z → Z → Z → Z → option (list Z)
}.

(** [read_file]: the files that can be opened for reading are the keys of
    [fs]; the result is the returned size and [out_data] after the call.
    The lines printed to the standard output are not modelled. *)
Definition read_file (fs : gmap string (list Z)) (path : string)
    (out_data : list Z) : Z * list Z :=
  match fs !! path with
  | None => (0, out_data)
  | Some content => (Z.of_nat (length content), content)
  end.

(** [open_webp]: the returned flag and [out_image] after the call. *)
Definition open_webp (lib : LibWebP) (fs : gmap string (list Z))
    (path : string) (out_image : WebPImage) : bool * WebPImage :=
  let '(size, d) := read_file fs path (data out_image) in
  let read :=
    {| data := d; pixels := pixels out_image;
       width := width out_image; height := height out_image |} in
  if bool_decide (size = 0) then (false, read)
  else
    match WebPGetInfo lib d with
    | Some (w, h) =>
        let n := (size_t_of_int w * size_t_of_int h) mod size_t_modulus in
        let v := resize (Z.to_nat n) default_pixel (pixels out_image) in
        let '(Success, buffer) :=
          WebPDecodeRGBInto lib d (bytes_of_pixels v)
            (int_of_size_t
               ((sizeof_Pixel * size_t_of_int w) mod size_t_modulus)) in
        (Success,
         {| data := d; pixels := pixels_of_bytes buffer;
            width := w; height := h |})
    | None => (false, read)
    end.

(** [WebPImage image, mask;]: the default member initialisers. *)
Definition empty_image : WebPImage :=
  {| data := []; pixels := []; width := 0; height := 0 |}.

(** The parsed command line [vm]: [None] for an option that was not
    given. *)
Record variables_map := mkVariablesMap {
  vm_image : option string;
  vm_mask : option string;
  vm_output : option string;
  vm_alpha : option spec_float;
  vm_r : option Z;
  vm_g : option Z;
  vm_b : option Z
}.

(** How [main] ends: it returns a code, [as<T>()] throws on an option that
    was not given and nothing catches it, or the loops have no defined
    behaviour. *)
Inductive outcome :=
  | Exit (code : Z)
  | Thrown
  | Undefined.

(** [main] after the command line is parsed: the outcome and the files
    afterwards. [can_write path] tells whether [std::ofstream] can open
    [path] for writing. *)
Definition run_main (lib : LibWebP) (vm : variables_map)
    (fs : gmap string (list Z)) (can_write : string → bool)
  : outcome * gmap string (list Z) :=
  match vm_image vm with
  | None => (Thrown, fs)
  | Some image_path =>
  let '(image_ok, image) := open_webp lib fs image_path empty_image in
  if negb image_ok then (Exit (-1), fs)
  else
  match vm_mask vm with
  | None => (Thrown, fs)
  | Some mask_path =>
  let '(mask_ok, mask) := open_webp lib fs mask_path empty_image in
  if negb mask_ok then (Exit (-1), fs)
  else
  match vm_alpha vm, vm_r vm, vm_g vm, vm_b vm with
  | Some alpha, Some overlay_r, Some overlay_g, Some overlay_b =>
      match main.unblend image mask alpha overlay_r overlay_g overlay_b with
      | None => (Undefined, fs)
      | Some recovered =>
          match vm_output vm with
          | None => (Thrown, fs)
          | Some output =>
              match
                WebPEncodeLosslessRGB lib
                  (bytes_of_pixels (pixels recovered))
                  (width recovered) (height recovered)
                  (int_of_size_t
                     ((size_t_of_int (width recovered) * sizeof_Pixel)
                      mod size_t_modulus))
              with
              | None => (Exit (-1), fs)
              | Some out_data =>
                  if can_write output
                  then (Exit 0, <[output := out_data]> fs)
                  else (Exit (-1), fs)
              end
          end
      end
  | _, _, _, _ => (Thrown, fs)
  end
  end
  end.

(** ** Vocabulary of the statements on files and blend factors *)

(** What the program relies on from libwebp: the dimensions it reports are
    not negative and the row stride [sizeof(Pixel) * width] fits an [int],
    and the decoder leaves bytes in a buffer of the size it was given. *)
Definition libwebp_ok (lib : LibWebP) : Prop :=
  (∀ d w h, WebPGetInfo lib d = Some (w, h) →
     0 ≤ w ∧ sizeof_Pixel * w ≤ int_max ∧ 0 ≤ h ≤ int_max)
  ∧ (∀ d buffer stride buffer',
       WebPDecodeRGBInto lib d buffer stride = (true, buffer') →
       length buffer' = length buffer ∧ Forall is_uint8 buffer').

(** [alpha] is NaN or an infinity. *)
Definition not_finite (alpha : spec_float) : Prop :=
  match alpha with
  | S754_nan | S754_infinity _ => True
  | _ => False
  end.

(** ** Sample data *)

Definition one_pixel (p : Pixel) : WebPImage :=
  {| data := []; pixels := [p]; width := 1; height := 1 |}.

Definition grey (c : Z) : Pixel := {| r := c; g := c; b := c |}.

(** A 2 x 2 picture and a mask that selects its diagonal. *)
Definition sample_image : WebPImage :=
  {| data := [];
     pixels := [grey 200; grey 10; grey 250; grey 128];
     width := 2; height := 2 |}.

Definition sample_mask : WebPImage :=
  {| data := [];
     pixels := [WHITE; BLACK; BLACK; grey 1];
     width := 2; height := 2 |}.

(** A mask that selects every pixel of a 2 x 2 picture. *)
Definition sample_white_mask : WebPImage :=
  {| data := [];
     pixels := [WHITE; WHITE; WHITE; WHITE];
     width := 2; height := 2 |}.

(** A 3 x 1 picture and a 1 x 2 mask, narrower than the picture. *)
Definition wide_image : WebPImage :=
  {| data := []; pixels := [grey 200; grey 10; grey 250];
     width := 3; height := 1 |}.

Definition narrow_mask : WebPImage :=
  {| data := []; pixels := [WHITE; BLACK]; width := 1; height := 2 |}.

(** A stand-in for libwebp on an uncompressed format: one byte of width,
    one byte of height, then the RGB bytes row by row. *)
Definition raw_lib : LibWebP :=
  {| WebPGetInfo d :=
       match d with
       | w :: h :: _ => Some (w mod 256, h mod 256)
       | _ => None
       end;
     WebPDecodeRGBInto d buffer stride :=
       let body := (λ c, c mod 256) <$> drop 2 d in
       if bool_decide (length buffer ≤ length body)%nat
       then (true, take (length buffer) body)
       else (false, buffer);
     WebPEncodeLosslessRGB rgb w h stride := Some (w :: h :: rgb) |}.

Definition sample_files : gmap string (list Z) :=
  {[ "image.webp"%string :=
       [2; 2; 200; 200; 200; 10; 10; 10; 250; 250; 250; 128; 128; 128];
     "mask.webp"%string :=
       [2; 2; 255; 255; 255; 0; 0; 0; 0; 0; 0; 1; 1; 1] ]}.

Definition sample_vm : variables_map :=
  {| vm_image := Some "image.webp"%string;
     vm_mask := Some "mask.webp"%string;
     vm_output := Some "out.webp"%string;
     vm_alpha := Some half;
     vm_r := Some 255; vm_g := Some 255; vm_b := Some 255 |}.

(** [sample_image] as [open_webp] decodes it from ["image.webp"]. *)
Definition decoded_sample : WebPImage :=
  {| data := [2; 2; 200; 200; 200; 10; 10; 10; 250; 250; 250; 128; 128; 128];
     pixels := [grey 200; grey 10; grey 250; grey 128];
     width := 2; height := 2 |}.

Definition decoded_mask : WebPImage :=
  {| data := [2; 2; 255; 255; 255; 0; 0; 0; 0; 0; 0; 1; 1; 1];
     pixels := [WHITE; BLACK; BLACK; grey 1];
     width := 2; height := 2 |}.

(** The file [main] writes for [sample_vm]. *)
Definition sample_output : list Z :=
  [2; 2; 145; 145; 145; 10; 10; 10; 250; 250; 250; 1; 1; 1].

(** * Properties *)

(** ** Index arithmetic *)

Lemma size_t_of_int_small i : 0 ≤ i ≤ int_max → size_t_of_int i = i.
Proof.
  intros Hi. unfold size_t_of_int, size_t_modulus, int_max in *.
  apply Z.mod_small. lia.
Qed.

Lemma pixel_index_small img x y :
  dims_ok img → 0 ≤ x ≤ width img → 0 ≤ y ≤ height img →
  pixel_index img x y = y * width img + x.
Proof.
  intros [Hw Hh] Hx Hy. unfold pixel_index.
  rewrite size_t_of_int_small by done.
  unfold size_t_modulus, int_max in *. apply Z.mod_small. nia.
Qed.

Lemma get_pixel_guarded img x y :
  dims_ok img → (x > width img ∨ y > height img) →
  get_pixel img x y = Some default_pixel.
Proof.
  intros [Hw Hh] Hout. unfold get_pixel.
  rewrite !size_t_of_int_small by done.
  repeat case_bool_decide; try done. lia.
Qed.

Lemma get_pixel_stored img x y :
  dims_ok img → 0 ≤ x ≤ width img → 0 ≤ y ≤ height img →
  get_pixel img x y = pixels img !! Z.to_nat (y * width img + x).
Proof.
  intros Hd Hx Hy. unfold get_pixel.
  rewrite pixel_index_small by done. destruct Hd as [Hw Hh].
  rewrite !size_t_of_int_small by done.
  repeat case_bool_decide; try lia. done.
Qed.

Lemma set_pixel_guarded img x y p :
  dims_ok img → (x > width img ∨ y > height img) →
  set_pixel img x y p = Some img.
Proof.
  intros [Hw Hh] Hout. unfold set_pixel.
  rewrite !size_t_of_int_small by done.
  repeat case_bool_decide; try done. lia.
Qed.

Lemma set_pixel_stored img x y p :
  dims_ok img → 0 ≤ x ≤ width img → 0 ≤ y ≤ height img →
  set_pixel img x y p =
    v ← vector_store (pixels img) (y * width img + x) p;
    Some (with_pixels img v).
Proof.
  intros Hd Hx Hy. unfold set_pixel.
  rewrite pixel_index_small by done. destruct Hd as [Hw Hh].
  rewrite !size_t_of_int_small by done.
  repeat case_bool_decide; try lia. done.
Qed.

(** ** The accessors *)

(** C6. For a buffer with non-negative [int] dimensions and [size_t]
    coordinates, [get_pixel] answers the zero pixel (0,0,0) when
    [x > width] or [y > height], and otherwise the element of the pixel
    vector at index [y * width + x] (coordinates equal to [width] or
    [height] pass the guard); the guard is exactly the case in which the
    answer is the zero pixel whatever the vector holds. *)
Theorem get_pixel_off_by_one (img : WebPImage) (x y : Z) :
  dims_ok img → is_size_t x → is_size_t y →
  ((x > width img ∨ y > height img) →
     get_pixel img x y = Some {| r := 0; g := 0; b := 0 |})
  ∧ (¬ (x > width img ∨ y > height img) →
     get_pixel img x y = pixels img !! Z.to_nat (y * width img + x))
  ∧ ((∀ v, get_pixel (with_pixels img v) x y
           = Some {| r := 0; g := 0; b := 0 |})
     ↔ (x > width img ∨ y > height img)).
Proof.
  intros Hd [Hx _] [Hy _]. split; [|split].
  - intros Hout. by apply get_pixel_guarded.
  - intros Hin. apply get_pixel_stored; [done|lia..].
  - split.
    + intros Hall.
      destruct (decide (x > width img ∨ y > height img)) as [|Hin]; [done|].
      specialize (Hall []).
      rewrite get_pixel_stored in Hall by (done || simpl; lia).
      done.
    + intros Hout v. by apply (get_pixel_guarded (with_pixels img v)).
Qed.

Lemma get_pixel_off_by_one_witness :
  ((2 > width sample_image ∨ 0 > height sample_image) →
     get_pixel sample_image 2 0 = Some {| r := 0; g := 0; b := 0 |})
  ∧ (¬ (2 > width sample_image ∨ 0 > height sample_image) →
     get_pixel sample_image 2 0
     = pixels sample_image !! Z.to_nat (0 * width sample_image + 2))
  ∧ ((∀ v, get_pixel (with_pixels sample_image v) 2 0
           = Some {| r := 0; g := 0; b := 0 |})
     ↔ (2 > width sample_image ∨ 0 > height sample_image)).
Proof.
  apply (get_pixel_off_by_one sample_image 2 0).
  - unfold dims_ok, int_max. simpl. lia.
  - unfold is_size_t, size_t_modulus. lia.
  - unfold is_size_t, size_t_modulus. lia.
Defined.




(** ** Loops *)

Lemma for_each_app {A S} (f : A → S → option S) l1 l2 s :
  for_each f (l1 ++ l2) s = s' ← for_each f l1 s; for_each f l2 s'.
Proof.
  revert s. induction l1 as [|a l1 IH]; intros s; simpl.
  - done.
  - destruct (f a s) as [s1|]; simpl; [apply IH|done].
Qed.

Lemma for_each_fmap {A B S} (g : A → B) (f : B → S → option S) l s :
  for_each f (g <$> l) s = for_each (λ a, f (g a)) l s.
Proof.
  revert s. induction l as [|a l IH]; intros s; simpl; [done|].
  destruct (f (g a) s); simpl; [apply IH|done].
Qed.

Lemma for_each_ext {A S} (f g : A → S → option S) l s :
  (∀ a s', f a s' = g a s') → for_each f l s = for_each g l s.
Proof.
  intros Hfg. revert s. induction l as [|a l IH]; intros s; simpl; [done|].
  rewrite Hfg. destruct (g a s); simpl; [apply IH|done].
Qed.

Lemma for_each_bind {A B S} (k : A → list B) (f : B → S → option S) l s :
  for_each f (l ≫= k) s = for_each (λ a, for_each f (k a)) l s.
Proof.
  revert s. induction l as [|a l IH]; intros s; [done|].
  change ((a :: l) ≫= k) with (k a ++ (l ≫= k)).
  rewrite for_each_app. simpl.
  destruct (for_each f (k a) s); simpl; [apply IH|done].
Qed.

Lemma elem_of_coords W H c : c ∈ coords W H ↔ in_frame W H c.
Proof.
  unfold coords, in_frame. rewrite list_elem_of_bind. split.
  - intros (y & Hc & Hy). apply list_elem_of_fmap in Hc as (x & -> & Hx).
    apply elem_of_seqZ in Hx, Hy. simpl. lia.
  - intros [Hx Hy]. exists c.2. split.
    + apply list_elem_of_fmap. exists c.1. split; [by destruct c|].
      apply elem_of_seqZ. lia.
    + apply elem_of_seqZ. lia.
Qed.

Lemma idx_inj image c c' :
  in_frame (width image) (height image) c →
  in_frame (width image) (height image) c' →
  idx image c = idx image c' → c = c'.
Proof.
  unfold in_frame, idx. destruct c as [x y], c' as [x' y']; simpl.
  intros [Hx Hy] [Hx' Hy'] Heq.
  assert (y = y') as -> by nia. f_equal. lia.
Qed.

Lemma idx_nonneg image c :
  in_frame (width image) (height image) c → 0 ≤ idx image c.
Proof. unfold in_frame, idx. intros [??]. nia. Qed.

(** ** One iteration *)

Lemma store_cell_frame image rec i o rec' :
  store_cell rec i o = Some rec' → same_frame image rec →
  same_frame image rec' ∧ length (pixels rec') = length (pixels rec).
Proof.
  unfold store_cell, vector_store. intros Hs Hf.
  destruct o as [p|]; simplify_option_eq; [|done].
  split; [done|]. simpl. apply length_insert.
Qed.

Lemma store_cell_same rec i p rec' :
  store_cell rec i (Some p) = Some rec' → 0 ≤ i →
  pixels rec' !! Z.to_nat i = Some p.
Proof.
  unfold store_cell, vector_store. intros Hs Hi. simplify_option_eq.
  apply list_lookup_insert_eq. lia.
Qed.

Lemma store_cell_other rec i o rec' j :
  store_cell rec i o = Some rec' → 0 ≤ i → 0 ≤ j → i ≠ j →
  pixels rec' !! Z.to_nat j = pixels rec !! Z.to_nat j.
Proof.
  unfold store_cell, vector_store. intros Hs Hi Hj Hne.
  destruct o as [p|]; simplify_option_eq; [|done].
  apply list_lookup_insert_ne. lia.
Qed.

Section iteration.
Context (image mask : WebPImage) (alpha : spec_float) (ovr ovg ovb : Z).
Hypothesis Hdims : dims_ok image.

Local Abbreviation Wd := (width image).
Local Abbreviation Ht := (height image).
Local Abbreviation step :=
  (λ (c : Z * Z) rec, main.body image mask alpha ovr ovg ovb c.1 c.2 rec).
Local Abbreviation cell_at := (cell image mask alpha ovr ovg ovb).

Lemma body_cell c rec :
  in_frame Wd Ht c → same_frame image rec →
  step c rec = o ← cell_at c; store_cell rec (idx image c) o.
Proof using Hdims.
  intros [Hx Hy] (Hw & Hh & _). destruct Hdims as [HW HH].
  unfold main.body, cell, recover, idx.
  rewrite !size_t_of_int_small by lia.
  destruct (get_pixel mask c.1 c.2) as [cm|]; simpl; [|done].
  case_bool_decide; simpl; [done|].
  destruct (get_pixel image c.1 c.2) as [cf|]; simpl; [|done].
  destruct (F32.to_uint8 (main.Eq (r cf) _ _)) as [cr|]; simpl; [|done].
  destruct (F32.to_uint8 (main.Eq (g cf) _ _)) as [cg|]; simpl; [|done].
  destruct (F32.to_uint8 (main.Eq (b cf) _ _)) as [cb|]; simpl; [|done].
  rewrite set_pixel_stored; rewrite ?Hw, ?Hh; [done| |lia..].
  split; rewrite ?Hw, ?Hh; done.
Qed.

Lemma run_frame l : ∀ rec rec',
  Forall (in_frame Wd Ht) l → same_frame image rec →
  for_each step l rec = Some rec' →
  same_frame image rec' ∧ length (pixels rec') = length (pixels rec).
Proof using Hdims.
  induction l as [|c l IH]; intros rec rec' Hl Hf Hrun; simpl in Hrun.
  - by simplify_eq.
  - apply Forall_cons in Hl as [Hc Hl].
    rewrite body_cell in Hrun by done.
    destruct (cell_at c) as [o|]; simpl in Hrun; [|done].
    destruct (store_cell rec (idx image c) o) as [rec1|] eqn:Hst;
      simpl in Hrun; [|done].
    destruct (store_cell_frame image _ _ _ _ Hst Hf) as [Hf1 Hlen1].
    destruct (IH _ _ Hl Hf1 Hrun) as [Hf' Hlen']. split; [done|congruence].
Qed.

Lemma run_cells_defined l : ∀ rec rec' c,
  Forall (in_frame Wd Ht) l → same_frame image rec →
  for_each step l rec = Some rec' → c ∈ l → is_Some (cell_at c).
Proof using Hdims.
  induction l as [|c0 l IH]; intros rec rec' c Hl Hf Hrun Hin; simpl in Hrun.
  - by apply elem_of_nil in Hin.
  - apply Forall_cons in Hl as [Hc Hl].
    rewrite body_cell in Hrun by done.
    destruct (cell_at c0) as [o|] eqn:Hcell; simpl in Hrun; [|done].
    destruct (store_cell rec (idx image c0) o) as [rec1|] eqn:Hst;
      simpl in Hrun; [|done].
    apply elem_of_cons in Hin as [->|Hin]; [by rewrite Hcell|].
    destruct (store_cell_frame image _ _ _ _ Hst Hf) as [Hf1 _].
    by eapply IH.
Qed.

Lemma run_untouched l i : ∀ rec rec',
  Forall (in_frame Wd Ht) l → same_frame image rec →
  for_each step l rec = Some rec' → 0 ≤ i →
  (∀ c p, c ∈ l → cell_at c = Some (Some p) → idx image c ≠ i) →
  pixels rec' !! Z.to_nat i = pixels rec !! Z.to_nat i.
Proof using Hdims.
  induction l as [|c0 l IH]; intros rec rec' Hl Hf Hrun Hi Hfree;
    simpl in Hrun.
  - by simplify_eq.
  - apply Forall_cons in Hl as [Hc Hl].
    rewrite body_cell in Hrun by done.
    destruct (cell_at c0) as [o|] eqn:Hcell; simpl in Hrun; [|done].
    destruct (store_cell rec (idx image c0) o) as [rec1|] eqn:Hst;
      simpl in Hrun; [|done].
    destruct (store_cell_frame image _ _ _ _ Hst Hf) as [Hf1 _].
    rewrite (IH _ _ Hl Hf1 Hrun Hi).
    + destruct o as [p|]; [|by simplify_eq/=].
      eapply store_cell_other; [done|by apply idx_nonneg|done|].
      eapply Hfree; [left|done].
    + intros c p Hin. apply Hfree. by right.
Qed.

Lemma run_written l : ∀ rec rec' c p,
  Forall (in_frame Wd Ht) l → same_frame image rec →
  for_each step l rec = Some rec' → c ∈ l → cell_at c = Some (Some p) →
  pixels rec' !! Z.to_nat (idx image c) = Some p.
Proof using Hdims.
  induction l as [|c0 l IH]; intros rec rec' c p Hl Hf Hrun Hin Hcp.
  - by apply elem_of_nil in Hin.
  - pose proof Hl as Hl0. apply Forall_cons in Hl as [Hc Hl].
    simpl in Hrun. rewrite body_cell in Hrun by done.
    destruct (cell_at c0) as [o|] eqn:Hcell; simpl in Hrun; [|done].
    destruct (store_cell rec (idx image c0) o) as [rec1|] eqn:Hst;
      simpl in Hrun; [|done].
    destruct (store_cell_frame image _ _ _ _ Hst Hf) as [Hf1 _].
    destruct (decide (c ∈ l)) as [Hinl|Hnin]; [by eapply IH|].
    apply elem_of_cons in Hin as [->|Hin]; [|done].
    rewrite Hcp in Hcell. simplify_eq.
    assert (in_frame Wd Ht c0) as Hc0 by done.
    rewrite (run_untouched l (idx image c0) _ _ Hl Hf1 Hrun).
    + eapply store_cell_same; [done|by apply idx_nonneg].
    + by apply idx_nonneg.
    + intros c' p' Hin' _ Heq. apply Hnin.
      rewrite Forall_forall in Hl.
      by rewrite <- (idx_inj image c' c0 (Hl _ Hin') Hc0 Heq).
Qed.

Lemma run_defined l : ∀ rec,
  Forall (in_frame Wd Ht) l → same_frame image rec →
  Z.of_nat (length (pixels rec)) = Wd * Ht →
  (∀ c, c ∈ l → is_Some (cell_at c)) →
  is_Some (for_each step l rec).
Proof using Hdims.
  induction l as [|c0 l IH]; intros rec Hl Hf Hlen Hcells; simpl.
  - done.
  - apply Forall_cons in Hl as [Hc Hl].
    rewrite body_cell by done.
    destruct (Hcells c0) as [o Hcell]; [left|]. rewrite Hcell. simpl.
    assert (is_Some (store_cell rec (idx image c0) o)) as [rec1 Hst].
    { destruct o as [p|]; simpl; [|done].
      unfold vector_store. rewrite bool_decide_true; [done|].
      rewrite Hlen. destruct Hc as [Hx Hy]. unfold idx. nia. }
    rewrite Hst. simpl.
    destruct (store_cell_frame image _ _ _ _ Hst Hf) as [Hf1 Hlen1].
    apply IH; [done..|congruence|].
    intros c Hin. apply Hcells. by right.
Qed.

Lemma store_cell_comm rec c1 c2 o1 o2 :
  in_frame Wd Ht c1 → in_frame Wd Ht c2 →
  (c1 = c2 → o1 = o2) →
  (rec1 ← store_cell rec (idx image c1) o1; store_cell rec1 (idx image c2) o2)
  = (rec2 ← store_cell rec (idx image c2) o2;
     store_cell rec2 (idx image c1) o1).
Proof.
  intros Hc1 Hc2 Hsame.
  pose proof (idx_nonneg image c1 Hc1). pose proof (idx_nonneg image c2 Hc2).
  destruct o1 as [p1|], o2 as [p2|]; simpl; try done.
  - unfold vector_store. simpl.
    repeat (case_bool_decide; simpl; rewrite ?length_insert in *; try lia);
      try done.
    destruct (decide (c1 = c2)) as [->|Hne].
    + specialize (Hsame eq_refl). by simplify_eq.
    + unfold with_pixels; simpl. do 2 f_equal.
      apply list_insert_insert_ne. intros Heq. apply Hne.
      apply (idx_inj image); [done..|lia].
  - by destruct (vector_store _ _ _).
  - by destruct (vector_store _ _ _).
Qed.

Lemma run_perm l l' :
  l ≡ₚ l' → ∀ rec, Forall (in_frame Wd Ht) l → same_frame image rec →
  for_each step l rec = for_each step l' rec.
Proof using Hdims.
  induction 1 as [|c l l' Hp IH|c1 c2 l|l l' l'' Hp1 IH1 Hp2 IH2];
    intros rec Hl Hf.
  - done.
  - apply Forall_cons in Hl as [Hc Hl]. simpl.
    rewrite body_cell by done.
    destruct (cell_at c) as [o|]; simpl; [|done].
    destruct (store_cell rec (idx image c) o) as [rec1|] eqn:Hst;
      simpl; [|done].
    destruct (store_cell_frame image _ _ _ _ Hst Hf) as [Hf1 _].
    by apply IH.
  - apply Forall_cons in Hl as [Hc2 Hl]. apply Forall_cons in Hl as [Hc1 Hl].
    simpl. rewrite !body_cell by done.
    destruct (cell_at c1) as [o1|] eqn:H1, (cell_at c2) as [o2|] eqn:H2;
      simpl; try done.
    + pose proof (store_cell_comm rec c2 c1 o2 o1 Hc2 Hc1) as Hcomm.
      destruct (store_cell rec (idx image c2) o2) as [ra|] eqn:Ha,
               (store_cell rec (idx image c1) o1) as [rb|] eqn:Hb; simpl in *.
      * destruct (store_cell_frame image _ _ _ _ Ha Hf) as [Hfa _].
        destruct (store_cell_frame image _ _ _ _ Hb Hf) as [Hfb _].
        rewrite !body_cell by done. rewrite H1, H2. simpl.
        rewrite Hcomm; [done|]. intros ->. congruence.
      * destruct (store_cell_frame image _ _ _ _ Ha Hf) as [Hfa _].
        rewrite !body_cell by done. rewrite H1. simpl.
        rewrite Hcomm; [done|]. intros ->. congruence.
      * destruct (store_cell_frame image _ _ _ _ Hb Hf) as [Hfb _].
        rewrite !body_cell by done. rewrite H2. simpl.
        rewrite <- Hcomm; [done|]. intros ->. congruence.
      * done.
    + destruct (store_cell rec (idx image c1) o1) as [rb|] eqn:Hb;
        simpl; [|done].
      destruct (store_cell_frame image _ _ _ _ Hb Hf) as [Hfb _].
      rewrite body_cell by done. by rewrite H2.
    + destruct (store_cell rec (idx image c2) o2) as [ra|] eqn:Ha;
        simpl; [|done].
      destruct (store_cell_frame image _ _ _ _ Ha Hf) as [Hfa _].
      rewrite body_cell by done. by rewrite H1.
  - rewrite IH1 by done. apply IH2; [|done]. by rewrite <- Hp1.
Qed.

Lemma unblend_flat :
  main.unblend image mask alpha ovr ovg ovb
  = for_each step (coords Wd Ht) image.
Proof.
  unfold main.unblend, coords. rewrite for_each_bind.
  apply for_each_ext. intros y rec. unfold main.row.
  by rewrite for_each_fmap.
Qed.

End iteration.

Lemma all_uint8_In k : is_uint8 k → In k all_uint8.
Proof.
  unfold is_uint8, all_uint8. intros Hk.
  apply list_elem_of_In, elem_of_seqZ. lia.
Qed.

(** ** Results of binary32 rounding *)

Lemma digits2_pos_gt p : Z.pos p < 2 ^ Z.pos (digits2_pos p).
Proof.
  induction p as [p IH|p IH|]; simpl digits2_pos;
    rewrite ?Pos2Z.inj_succ, ?Z.pow_succ_r by lia; lia.
Qed.

Lemma Zdigits2_gt m : 0 ≤ m → m < 2 ^ Zdigits2 m.
Proof.
  destruct m as [|p|p]; simpl; [lia| |lia]. intros _. apply digits2_pos_gt.
Qed.

Lemma Zdigits2_nonneg m : 0 ≤ Zdigits2 m.
Proof. destruct m; simpl; lia. Qed.

Lemma shr_1_m mrs : 0 ≤ shr_m mrs → shr_m (shr_1 mrs) = shr_m mrs / 2.
Proof.
  destruct mrs as [m rb sb]. cbn [shr_m]. intros Hm.
  destruct m as [|[p|p|]|p]; cbn [shr_1 shr_m]; try lia.
  - done.
  - apply (Z.div_unique _ _ _ 1); lia.
  - apply (Z.div_unique _ _ _ 0); lia.
  - done.
Qed.

Lemma iter_shr_1_m p : ∀ mrs,
  0 ≤ shr_m mrs →
  shr_m (SpecFloat.iter_pos shr_1 p mrs) = shr_m mrs / 2 ^ Z.pos p.
Proof.
  induction p as [p IH|p IH|]; intros mrs Hm; simpl SpecFloat.iter_pos.
  - assert (0 ≤ shr_m (shr_1 mrs)) as H1.
    { rewrite shr_1_m by done. apply Z.div_pos; lia. }
    assert (0 ≤ shr_m (SpecFloat.iter_pos shr_1 p (shr_1 mrs))) as H2.
    { rewrite IH by done. apply Z.div_pos; [done|apply Z.pow_pos_nonneg; lia]. }
    rewrite IH, IH, shr_1_m by done.
    rewrite !Z.div_div by (try apply Z.pow_pos_nonneg; lia).
    f_equal.
    replace (Z.pos p~1) with (1 + Z.pos p + Z.pos p) by lia.
    rewrite !Z.pow_add_r by lia. lia.
  - assert (0 ≤ shr_m (SpecFloat.iter_pos shr_1 p mrs)) as H2.
    { rewrite IH by done. apply Z.div_pos; [done|apply Z.pow_pos_nonneg; lia]. }
    rewrite IH, IH by done.
    rewrite !Z.div_div by (try apply Z.pow_pos_nonneg; lia).
    f_equal.
    replace (Z.pos p~0) with (Z.pos p + Z.pos p) by lia.
    rewrite !Z.pow_add_r by lia. lia.
  - by rewrite shr_1_m.
Qed.

Lemma shr_record_of_loc_m m l : shr_m (shr_record_of_loc m l) = m.
Proof. by destruct l as [|[]]. Qed.

Lemma shr_fexp_bound m e l :
  0 ≤ m →
  0 ≤ shr_m (shr_fexp F32.prec F32.emax m e l).1 < 2 ^ 24.
Proof.
  intros Hm. unfold shr_fexp, shr.
  pose proof (Zdigits2_gt m Hm) as Hd.
  pose proof (Zdigits2_nonneg m) as Hd0.
  assert (Zdigits2 m - 24 ≤ fexp F32.prec F32.emax (Zdigits2 m + e) - e) as Hn.
  { unfold fexp, F32.prec. lia. }
  destruct (fexp F32.prec F32.emax (Zdigits2 m + e) - e) as [|n|n] eqn:Hfe;
    simpl fst; rewrite ?iter_shr_1_m, shr_record_of_loc_m
      by (by rewrite shr_record_of_loc_m).
  - split; [done|]. eapply Z.lt_le_trans; [exact Hd|].
    apply Z.pow_le_mono_r; lia.
  - assert (0 < 2 ^ Z.pos n) by (apply Z.pow_pos_nonneg; lia).
    split; [by apply Z.div_pos|]. apply Z.div_lt_upper_bound; [done|].
    rewrite <- Z.pow_add_r by lia.
    eapply Z.lt_le_trans; [exact Hd|]. apply Z.pow_le_mono_r; lia.
  - split; [done|]. eapply Z.lt_le_trans; [exact Hd|].
    apply Z.pow_le_mono_r; lia.
Qed.

Lemma round_nearest_even_nonneg m l : 0 ≤ m → 0 ≤ round_nearest_even m l.
Proof.
  intros Hm. unfold round_nearest_even.
  destruct l as [|[]]; try done; [destruct (Z.even m)|]; lia.
Qed.

Lemma binary_round_aux_rounded sx mx ex lx :
  0 ≤ mx → rounded (binary_round_aux F32.prec F32.emax sx mx ex lx).
Proof.
  intros Hm. unfold binary_round_aux.
  pose proof (shr_fexp_bound mx ex lx Hm) as H1.
  destruct (shr_fexp F32.prec F32.emax mx ex lx) as [mrs' e'].
  simpl fst in H1.
  pose proof (shr_fexp_bound
                (round_nearest_even (shr_m mrs') (loc_of_shr_record mrs'))
                e' loc_Exact
                (round_nearest_even_nonneg _ _ (proj1 H1))) as H2.
  destruct (shr_fexp F32.prec F32.emax _ e' loc_Exact) as [mrs'' e''].
  simpl fst in H2.
  destruct (shr_m mrs'') as [|m|m]; simpl; [done| |lia].
  destruct (e'' <=? F32.emax - F32.prec); simpl; [lia|done].
Qed.

Lemma binary_round_rounded s mx ex :
  rounded (binary_round F32.prec F32.emax s mx ex).
Proof.
  unfold binary_round. destruct (shl_align mx ex _) as [mz ez].
  apply binary_round_aux_rounded. lia.
Qed.

Lemma binary_normalize_rounded m e sz :
  rounded (binary_normalize F32.prec F32.emax m e sz).
Proof. destruct m; simpl; [done|apply binary_round_rounded..]. Qed.

Lemma of_Z_rounded z : rounded (F32.of_Z z).
Proof. apply binary_normalize_rounded. Qed.

Lemma mul_rounded x y :
  finite_or_zero x → finite_or_zero y → rounded (F32.mul x y).
Proof.
  destruct x as [sx|sx| |sx mx ex], y as [sy|sy| |sy my ey]; try done.
  intros _ _. apply binary_round_aux_rounded. lia.
Qed.

Lemma sub_rounded x y :
  finite_or_zero x → rounded x → rounded y → rounded (F32.sub x y).
Proof.
  destruct x as [sx|sx| |sx mx ex], y as [sy|sy| |sy my ey]; try done.
  - by destruct sx, sy.
  - intros _ _ _. apply binary_normalize_rounded.
Qed.

Lemma div_rounded x sa ma ea :
  rounded x → rounded (F32.div x (S754_finite sa ma ea)).
Proof.
  destruct x as [sx|sx| |sx mx ex]; try done. intros _.
  unfold F32.div, SFdiv.
  destruct (SFdiv_core_binary _ _ _ _ _ _) as [[mz ez] lz] eqn:Hcore.
  apply binary_round_aux_rounded.
  unfold SFdiv_core_binary in Hcore.
  set (m' := match _ with Z.pos _ => Z.shiftl _ _ | 0 => _ | Z.neg _ => 0 end)
    in Hcore.
  assert (0 ≤ m') as Hm'.
  { unfold m'. destruct (_ - _ - _); try lia. apply Z.shiftl_nonneg. lia. }
  destruct (Z.div_eucl m' (Z.pos ma)) as [q rr] eqn:Hdiv.
  assert (q = m' / Z.pos ma) as Hq by (unfold Z.div; by rewrite Hdiv).
  simplify_eq. apply Z.div_pos; lia.
Qed.

Lemma ltb_255_false m e :
  F32.ltb (S754_finite false 16711680 (-16)) (S754_finite false m e) = false →
  e < -16 ∨ (e = -16 ∧ Z.pos m ≤ 16711680).
Proof.
  unfold F32.ltb, SFltb, SFcompare.
  change (Pos.compare_cont Datatypes.Eq 16711680 m)
    with (16711680 ?= m)%positive.
  destruct (Z.compare (-16) e) eqn:He.
  - apply Z.compare_eq_iff in He.
    destruct (16711680 ?= m)%positive eqn:Hm; intros Hf; try done.
    + apply Pos.compare_eq_iff in Hm. subst m. right. split; [lia|done].
    + apply Pos.compare_gt_iff, Pos2Z.pos_lt_pos in Hm. right.
      split; [lia|]. by apply Z.lt_le_incl.
  - done.
  - apply Z.compare_gt_iff in He. intros _. lia.
Qed.

Lemma to_uint8_small m e :
  Z.pos m < 2 ^ 24 →
  e < -16 ∨ (e = -16 ∧ Z.pos m ≤ 16711680) →
  is_Some (F32.to_uint8 (S754_finite false m e)).
Proof.
  intros Hm He. unfold F32.to_uint8, F32.truncate.
  destruct e as [|p|p]; [lia..|]. cbn [cond_Zopp mbind option_bind].
  rewrite Z.shiftr_div_pow2 by lia.
  assert (0 < 2 ^ Z.pos p) by (apply Z.pow_pos_nonneg; lia).
  rewrite bool_decide_true; [done|].
  split; [apply Z.div_pos; lia|].
  apply Z.lt_succ_r. apply Z.div_lt_upper_bound; [done|].
  destruct He as [He|[He Hle]].
  - assert (2 ^ 17 ≤ 2 ^ Z.pos p) by (apply Z.pow_le_mono_r; lia). lia.
  - replace (Z.pos p) with 16 by lia. lia.
Qed.

Lemma clamp_to_uint8_defined v :
  rounded v →
  is_Some (F32.to_uint8 (F32.clamp v (S754_zero false) (F32.of_Z 255))).
Proof.
  change (F32.of_Z 255) with (S754_finite false 16711680 (-16)).
  destruct v as [s|[]| |[] m e]; try done.
  intros Hm. unfold F32.clamp.
  change (F32.ltb (S754_finite false m e) (S754_zero false)) with false.
  destruct (F32.ltb _ (S754_finite false m e)) eqn:Hlt; [done|].
  apply to_uint8_small; [done|]. by apply ltb_255_false.
Qed.

Lemma digits2_pos_le p : 2 ^ (Z.pos (digits2_pos p) - 1) ≤ Z.pos p.
Proof.
  induction p as [p IH|p IH|]; simpl digits2_pos; [| |done].
  - rewrite Pos2Z.inj_succ.
    replace (Z.succ (Z.pos (digits2_pos p)) - 1)
      with (Z.succ (Z.pos (digits2_pos p) - 1)) by lia.
    rewrite Z.pow_succ_r by lia. lia.
  - rewrite Pos2Z.inj_succ.
    replace (Z.succ (Z.pos (digits2_pos p)) - 1)
      with (Z.succ (Z.pos (digits2_pos p) - 1)) by lia.
    rewrite Z.pow_succ_r by lia. lia.
Qed.

Lemma Zdigits2_le m k : 0 ≤ m < 2 ^ k → 0 ≤ k → Zdigits2 m ≤ k.
Proof.
  intros [Hm Hk] Hk0. destruct m as [|p|p]; simpl; [done| |lia].
  pose proof (digits2_pos_le p) as Hlow.
  destruct (decide (Z.pos (digits2_pos p) ≤ k)) as [|Hgt]; [done|].
  assert (2 ^ k ≤ 2 ^ (Z.pos (digits2_pos p) - 1))
    by (apply Z.pow_le_mono_r; lia).
  lia.
Qed.

Lemma shr_fexp_exponent m e l :
  (shr_fexp F32.prec F32.emax m e l).2
  = Z.max e (fexp F32.prec F32.emax (Zdigits2 m + e)).
Proof.
  unfold shr_fexp, shr.
  destruct (fexp F32.prec F32.emax (Zdigits2 m + e) - e) eqn:Hn;
    simpl snd; lia.
Qed.

Lemma fexp_le x : fexp F32.prec F32.emax x = Z.max (x - 24) (-149).
Proof. done. Qed.

Lemma binary_round_aux_finite sx mx ex lx k :
  0 ≤ mx < 2 ^ k → 0 ≤ k → ex ≤ 103 → k + ex ≤ 127 →
  finite_or_zero (binary_round_aux F32.prec F32.emax sx mx ex lx).
Proof.
  intros Hm Hk Hex Hkex. unfold binary_round_aux.
  pose proof (shr_fexp_bound mx ex lx (proj1 Hm)) as H1.
  pose proof (shr_fexp_exponent mx ex lx) as He1.
  pose proof (Zdigits2_le mx k Hm Hk) as Hd.
  destruct (shr_fexp F32.prec F32.emax mx ex lx) as [mrs' e'].
  simpl fst in H1. simpl snd in He1. rewrite fexp_le in He1.
  set (M1 := round_nearest_even (shr_m mrs') (loc_of_shr_record mrs')).
  assert (0 ≤ M1 < 2 ^ 25) as HM1.
  { unfold M1, round_nearest_even.
    destruct (loc_of_shr_record mrs') as [|[]]; try lia.
    destruct (Z.even _); lia. }
  pose proof (shr_fexp_bound M1 e' loc_Exact (proj1 HM1)) as H2.
  pose proof (shr_fexp_exponent M1 e' loc_Exact) as He2.
  pose proof (Zdigits2_le M1 25 HM1 ltac:(lia)) as Hd1.
  destruct (shr_fexp F32.prec F32.emax M1 e' loc_Exact) as [mrs'' e''].
  simpl fst in H2. simpl snd in He2. rewrite fexp_le in He2.
  destruct (shr_m mrs'') as [|m|m]; [done| |lia].
  rewrite (proj2 (Z.leb_le e'' (F32.emax - F32.prec))); [done|].
  unfold F32.emax, F32.prec. lia.
Qed.

Lemma iter_xO p : ∀ m, Z.pos (Pos.iter xO m p) = Z.pos m * 2 ^ Z.pos p.
Proof.
  induction p as [|p IH] using Pos.peano_ind; intros m.
  - rewrite Pos.iter_succ_r || simpl. simpl. lia.
  - rewrite Pos.iter_succ, Pos2Z.inj_succ, Z.pow_succ_r by lia.
    rewrite Pos2Z.inj_xO, IH. lia.
Qed.

Lemma shl_align_fst mx ex ex' :
  Z.pos (shl_align mx ex ex').1 = Z.pos mx * 2 ^ Z.max 0 (ex - ex')
  ∧ (shl_align mx ex ex').2 = Z.min ex ex'.
Proof.
  unfold shl_align. destruct (ex' - ex) as [|d|d] eqn:Hd; simpl fst; simpl snd.
  - replace (Z.max 0 (ex - ex')) with 0 by lia. simpl. lia.
  - replace (Z.max 0 (ex - ex')) with 0 by lia. simpl. lia.
  - rewrite iter_xO. replace (Z.max 0 (ex - ex')) with (Z.pos d) by lia. lia.
Qed.

Lemma binary_round_finite s mx ex k :
  Z.pos mx < 2 ^ k → 0 ≤ k → ex ≤ 103 → k + ex ≤ 127 →
  finite_or_zero (binary_round F32.prec F32.emax s mx ex).
Proof.
  intros Hm Hk Hex Hkex. unfold binary_round.
  pose proof (shl_align_fst mx ex
                (fexp F32.prec F32.emax (Z.pos (digits2_pos mx) + ex)))
    as [Hmz Hez].
  destruct (shl_align mx ex _) as [mz ez]. simpl fst in Hmz. simpl snd in Hez.
  apply (binary_round_aux_finite s (Z.pos mz) ez loc_Exact (k + (ex - ez)));
    [|lia..].
  split; [lia|]. rewrite Hmz.
  replace (Z.max 0 (ex - _)) with (ex - ez) by lia.
  rewrite Z.pow_add_r by lia.
  apply Z.mul_lt_mono_pos_r; [apply Z.pow_pos_nonneg; lia|done].
Qed.

Lemma binary_normalize_finite m e sz k :
  Z.abs m < 2 ^ k → 0 ≤ k → e ≤ 103 → k + e ≤ 127 →
  finite_or_zero (binary_normalize F32.prec F32.emax m e sz).
Proof.
  intros Hm Hk He Hke. destruct m as [|p|p]; simpl; [done|..];
    by apply (binary_round_finite _ _ _ k).
Qed.

Lemma of_Z_uint8_finite c : is_uint8 c → finite_or_zero (F32.of_Z c).
Proof.
  intros Hc. apply (binary_normalize_finite c 0 false 8); unfold is_uint8 in Hc;
    lia.
Qed.

(** No channel store is undefined when [alpha] is finite and not zero and
    [1.0f - alpha] does not overflow. *)
Lemma narrowing_defined_finite sa ma ea :
  finite_or_zero (F32.sub (F32.of_Z 1) (S754_finite sa ma ea)) →
  narrowing_defined (S754_finite sa ma ea).
Proof.
  intros Ht c ov Hc Hov. unfold main.Eq. cbv zeta.
  apply clamp_to_uint8_defined, div_rounded, sub_rounded.
  - by apply of_Z_uint8_finite.
  - apply of_Z_rounded.
  - apply mul_rounded; [by apply of_Z_uint8_finite|done].
Qed.

Lemma one_minus_finite alpha :
  moderate alpha → finite_or_zero (F32.sub (F32.of_Z 1) alpha).
Proof.
  destruct alpha as [| | |s m e]; try done. intros [Hm He].
  change (F32.of_Z 1) with (S754_finite false 8388608 (-23)).
  unfold F32.sub, SFsub. cbv zeta.
  rewrite Z.min_r by lia.
  destruct (shl_align_fst 8388608 (-23) e) as [H1 _].
  destruct (shl_align_fst m e e) as [H2 _].
  rewrite H1, H2.
  replace (Z.max 0 (e - e)) with 0 by lia.
  replace (Z.max 0 (-23 - e)) with (-23 - e) by lia.
  assert (8388608 * 2 ^ (-23 - e) = 2 ^ (- e)) as ->.
  { change 8388608 with (2 ^ 23). rewrite <- Z.pow_add_r by lia.
    f_equal. lia. }
  assert (2 ^ 24 ≤ 2 * 2 ^ (- e)) as Hp.
  { change (2 ^ 24) with (2 * 2 ^ 23).
    assert (2 ^ 23 ≤ 2 ^ (- e)) by (apply Z.pow_le_mono_r; lia). lia. }
  apply (binary_normalize_finite _ e false (- e + 2)); [|lia..].
  replace (- e + 2) with (2 + - e) by lia.
  rewrite Z.pow_add_r by lia. change (2 ^ 2) with 4.
  unfold cond_Zopp. destruct s; lia.
Qed.

Lemma in_unit_interval_moderate alpha : in_unit_interval alpha → moderate alpha.
Proof.
  intros (Hvalid & Hpos & Hle1).
  destruct alpha as [s|[]| |[] m e]; try done. simpl.
  unfold valid_binary, bounded, canonical_mantissa in Hvalid.
  apply andb_true_iff in Hvalid as [Hcan _].
  apply Z.eqb_eq in Hcan. rewrite fexp_le in Hcan.
  pose proof (digits2_pos_gt m) as Hd.
  split.
  - eapply Z.lt_le_trans; [exact Hd|]. apply Z.pow_le_mono_r; lia.
  - change (F32.of_Z 1) with (S754_finite false 8388608 (-23)) in Hle1.
    unfold F32.ltb, SFltb, SFcompare in Hle1.
    destruct (Z.compare (-23) e) eqn:Hc; [| done |].
    + apply Z.compare_eq_iff in Hc. lia.
    + apply Z.compare_gt_iff in Hc. lia.
Qed.

Lemma narrowing_defined_moderate alpha :
  moderate alpha → narrowing_defined alpha.
Proof.
  intros Hmod. pose proof (one_minus_finite alpha Hmod) as Ht.
  destruct alpha as [| | |s m e]; try done.
  by apply narrowing_defined_finite.
Qed.




(** ** Exact arithmetic on small dyadic numbers *)

Lemma Zdigits2_unique m d :
  2 ^ (d - 1) ≤ m < 2 ^ d → 0 < d → Zdigits2 m = d.
Proof.
  intros [Hlo Hhi] Hd.
  assert (0 < m) as Hm.
  { eapply Z.lt_le_trans; [|exact Hlo]. apply Z.pow_pos_nonneg; lia. }
  destruct m as [|p|p]; try lia. simpl.
  pose proof (digits2_pos_gt p) as Hgt. pose proof (digits2_pos_le p) as Hle.
  destruct (Z.lt_trichotomy (Z.pos (digits2_pos p)) d) as [Hc|[Hc|Hc]];
    [|done|].
  - assert (2 ^ Z.pos (digits2_pos p) ≤ 2 ^ (d - 1))
      by (apply Z.pow_le_mono_r; lia). lia.
  - assert (2 ^ d ≤ 2 ^ (Z.pos (digits2_pos p) - 1))
      by (apply Z.pow_le_mono_r; lia). lia.
Qed.

Lemma Zdigits2_shift m n :
  0 < m → 0 ≤ n → Zdigits2 (m * 2 ^ n) = Zdigits2 m + n.
Proof.
  intros Hm Hn. destruct m as [|p|p]; try lia.
  pose proof (digits2_pos_gt p) as Hgt. pose proof (digits2_pos_le p) as Hle.
  assert (0 < 2 ^ n) by (apply Z.pow_pos_nonneg; lia).
  apply Zdigits2_unique; simpl Zdigits2; [|lia].
  replace (Z.pos (digits2_pos p) + n - 1)
    with (Z.pos (digits2_pos p) - 1 + n) by lia.
  rewrite !Z.pow_add_r by lia. nia.
Qed.

Lemma shr_1_exact m :
  0 ≤ m →
  shr_1 {| shr_m := 2 * m; shr_r := false; shr_s := false |}
  = {| shr_m := m; shr_r := false; shr_s := false |}.
Proof. intros Hm. by destruct m as [|p|p]. Qed.

Ltac pow_nonneg :=
  repeat first
    [ done | lia | apply Z.mul_nonneg_nonneg | apply Z.pow_nonneg ].

Lemma iter_shr_1_exact n : ∀ m,
  0 ≤ m →
  SpecFloat.iter_pos shr_1 n
    {| shr_m := m * 2 ^ Z.pos n; shr_r := false; shr_s := false |}
  = {| shr_m := m; shr_r := false; shr_s := false |}.
Proof.
  induction n as [n IH|n IH|]; intros m Hm; cbn [SpecFloat.iter_pos].
  - replace (m * 2 ^ Z.pos n~1) with (2 * ((m * 2 ^ Z.pos n) * 2 ^ Z.pos n)).
    + rewrite shr_1_exact, IH, IH; pow_nonneg.
    + replace (Z.pos n~1) with (1 + Z.pos n + Z.pos n) by lia.
      rewrite !Z.pow_add_r by lia. lia.
  - replace (m * 2 ^ Z.pos n~0) with ((m * 2 ^ Z.pos n) * 2 ^ Z.pos n).
    + rewrite IH, IH; pow_nonneg.
    + replace (Z.pos n~0) with (Z.pos n + Z.pos n) by lia.
      rewrite !Z.pow_add_r by lia. lia.
  - replace (m * 2 ^ 1) with (2 * m) by lia. by apply shr_1_exact.
Qed.

(** Rounding a value that needs no rounding: [m] has exactly 24 bits and
    [m * 2^n * 2^e] is given with [n] spare low zero bits. *)
Lemma binary_round_aux_exact sx m n e :
  2 ^ 23 ≤ m < 2 ^ 24 → 0 ≤ n → -149 ≤ e + n ≤ 104 →
  binary_round_aux F32.prec F32.emax sx (m * 2 ^ n) e loc_Exact
  = S754_finite sx (Z.to_pos m) (e + n).
Proof.
  intros Hm Hn He. unfold binary_round_aux.
  assert (Zdigits2 m = 24) as Hd by (apply Zdigits2_unique; lia).
  assert (shr_fexp F32.prec F32.emax (m * 2 ^ n) e loc_Exact
          = ({| shr_m := m; shr_r := false; shr_s := false |}, e + n)) as ->.
  { unfold shr_fexp. rewrite Zdigits2_shift, Hd, fexp_le by lia.
    replace (Z.max (24 + n + e - 24) (-149) - e) with n by lia.
    unfold shr. simpl shr_record_of_loc. destruct n as [|p|p]; [| |lia].
    - by rewrite Z.mul_1_r, Z.add_0_r.
    - by rewrite iter_shr_1_exact by lia. }
  cbn [shr_m loc_of_shr_record round_nearest_even].
  assert (shr_fexp F32.prec F32.emax m (e + n) loc_Exact
          = ({| shr_m := m; shr_r := false; shr_s := false |}, e + n)) as ->.
  { unfold shr_fexp. rewrite Hd, fexp_le.
    replace (Z.max (24 + (e + n) - 24) (-149) - (e + n)) with 0 by lia.
    done. }
  cbn [shr_m]. destruct m as [|p|p]; try lia.
  rewrite (proj2 (Z.leb_le (e + n) (F32.emax - F32.prec))); [done|].
  unfold F32.emax, F32.prec. lia.
Qed.

Lemma Zdigits2_range m : 0 < m < 2 ^ 24 → 1 ≤ Zdigits2 m ≤ 24.
Proof.
  intros [Hm Hhi]. destruct m as [|p|p]; try lia. simpl. split; [lia|].
  apply (Zdigits2_le (Z.pos p) 24); lia.
Qed.

Lemma normalised_range m :
  0 < m < 2 ^ 24 → 2 ^ 23 ≤ m * 2 ^ (24 - Zdigits2 m) < 2 ^ 24.
Proof.
  intros Hm. pose proof (Zdigits2_range m Hm) as Hd.
  destruct m as [|p|p]; try lia. simpl Zdigits2 in *.
  pose proof (digits2_pos_gt p) as Hgt. pose proof (digits2_pos_le p) as Hle.
  set (d := Z.pos (digits2_pos p)) in *.
  assert (0 < 2 ^ (24 - d)) by (apply Z.pow_pos_nonneg; lia).
  assert (2 ^ 23 = 2 ^ (d - 1) * 2 ^ (24 - d)) as ->.
  { rewrite <- Z.pow_add_r by lia. f_equal. lia. }
  assert (2 ^ 24 = 2 ^ d * 2 ^ (24 - d)) as ->.
  { rewrite <- Z.pow_add_r by lia. f_equal. lia. }
  nia.
Qed.

Lemma binary_round_dyadic sx mx s j k :
  Z.pos mx = s * 2 ^ j → 0 < s < 2 ^ 24 → 0 ≤ j → -125 ≤ k ≤ 80 →
  binary_round F32.prec F32.emax sx mx (k - j)
  = S754_finite sx (Z.to_pos (s * 2 ^ (24 - Zdigits2 s)))
      (Zdigits2 s + k - 24).
Proof.
  intros Hmx Hs Hj Hk. unfold binary_round.
  pose proof (Zdigits2_range s Hs) as Hd.
  pose proof (normalised_range s Hs) as Hnorm.
  assert (Z.pos (digits2_pos mx) = Zdigits2 s + j) as ->.
  { change (Z.pos (digits2_pos mx)) with (Zdigits2 (Z.pos mx)).
    rewrite Hmx. apply Zdigits2_shift; lia. }
  rewrite fexp_le.
  replace (Z.max (Zdigits2 s + j + (k - j) - 24) (-149))
    with (Zdigits2 s + k - 24) by lia.
  pose proof (shl_align_fst mx (k - j) (Zdigits2 s + k - 24)) as [Hmz Hez].
  destruct (shl_align mx (k - j) (Zdigits2 s + k - 24)) as [mz ez].
  simpl fst in Hmz. simpl snd in Hez. rewrite Hmx in Hmz.
  set (d := Zdigits2 s) in *.
  destruct (Z.le_gt_cases (d + k - 24) (k - j)) as [Hc|Hc].
  - replace (Z.max 0 (k - j - (d + k - 24))) with (24 - d - j) in Hmz by lia.
    assert (Z.pos mz = s * 2 ^ (24 - d) * 2 ^ 0) as ->.
    { rewrite Hmz, Z.mul_1_r, <- Z.mul_assoc, <- Z.pow_add_r by lia.
      do 2 f_equal. lia. }
    rewrite binary_round_aux_exact by lia. f_equal. lia.
  - replace (Z.max 0 (k - j - (d + k - 24))) with 0 in Hmz by lia.
    assert (Z.pos mz = s * 2 ^ (24 - d) * 2 ^ (j - (24 - d))) as ->.
    { rewrite Hmz, Z.mul_1_r, <- Z.mul_assoc, <- Z.pow_add_r by lia.
      do 2 f_equal. lia. }
    rewrite binary_round_aux_exact by lia. f_equal. lia.
Qed.

Lemma binary_normalize_dyadic s j k :
  Z.abs s < 2 ^ 24 → 0 ≤ j → -125 ≤ k ≤ 80 →
  binary_normalize F32.prec F32.emax (s * 2 ^ j) (k - j) false
  = canonical s k.
Proof.
  intros Hs Hj Hk.
  assert (0 < 2 ^ j) as Hpow by (apply Z.pow_pos_nonneg; lia).
  destruct s as [|p|p]; [done|..].
  - destruct (Z.pos p * 2 ^ j) as [|q|q] eqn:Hq; try nia.
    unfold canonical, binary_normalize.
    by rewrite (binary_round_dyadic false q (Z.pos p) j k) by lia.
  - destruct (Z.neg p * 2 ^ j) as [|q|q] eqn:Hq; try nia.
    unfold canonical, binary_normalize.
    rewrite (binary_round_dyadic true q (Z.pos p) j k) by lia.
    done.
Qed.

Lemma Zdigits2_abs s : Zdigits2 (Z.abs s) = Zdigits2 s.
Proof. by destruct s. Qed.

Lemma cond_Zopp_abs s x : cond_Zopp (s <? 0) (Z.abs s * x) = s * x.
Proof. destruct s as [|p|p]; simpl cond_Zopp; simpl Z.abs; lia. Qed.

Lemma aligned_canonical s k ez :
  s ≠ 0 → Z.abs s < 2 ^ 24 → ez ≤ Zdigits2 s + k - 24 →
  cond_Zopp (s <? 0)
    (Z.pos (shl_align (Z.to_pos (Z.abs s * 2 ^ (24 - Zdigits2 s)))
              (Zdigits2 s + k - 24) ez).1)
  = s * 2 ^ (k - ez).
Proof.
  intros Hs0 Hs Hez.
  assert (0 < Z.abs s < 2 ^ 24) as Habs by lia.
  pose proof (Zdigits2_range (Z.abs s) Habs) as Hd.
  pose proof (normalised_range (Z.abs s) Habs) as Hnorm.
  rewrite Zdigits2_abs in Hd, Hnorm.
  destruct (shl_align_fst (Z.to_pos (Z.abs s * 2 ^ (24 - Zdigits2 s)))
              (Zdigits2 s + k - 24) ez) as [-> _].
  rewrite Z2Pos.id by lia.
  replace (Z.max 0 (Zdigits2 s + k - 24 - ez))
    with (Zdigits2 s + k - 24 - ez) by lia.
  rewrite <- Z.mul_assoc, <- Z.pow_add_r by lia.
  replace (24 - Zdigits2 s + (Zdigits2 s + k - 24 - ez)) with (k - ez) by lia.
  apply cond_Zopp_abs.
Qed.

Lemma add_canonical s1 s2 k :
  Z.abs s1 < 2 ^ 24 → Z.abs s2 < 2 ^ 24 → Z.abs (s1 + s2) < 2 ^ 24 →
  -125 ≤ k ≤ 80 →
  F32.add (canonical s1 k) (canonical s2 k) = canonical (s1 + s2) k.
Proof.
  intros H1 H2 H12 Hk.
  destruct (decide (s1 = 0)) as [->|Hn1].
  { rewrite Z.add_0_l. by destruct s2. }
  destruct (decide (s2 = 0)) as [->|Hn2].
  { rewrite Z.add_0_r. by destruct s1. }
  assert (∀ s, s ≠ 0 →
            canonical s k
            = S754_finite (s <? 0)
                (Z.to_pos (Z.abs s * 2 ^ (24 - Zdigits2 s)))
                (Zdigits2 s + k - 24)) as Hcan by (by intros [|p|p]).
  rewrite (Hcan s1 Hn1), (Hcan s2 Hn2).
  unfold F32.add, SFadd. cbv zeta.
  set (ez := Z.min (Zdigits2 s1 + k - 24) (Zdigits2 s2 + k - 24)).
  rewrite !aligned_canonical by (done || lia).
  assert (Zdigits2 s1 ≤ 24) as Hd1.
  { rewrite <- Zdigits2_abs. apply Zdigits2_range. lia. }
  rewrite <- Z.mul_add_distr_r.
  replace ez with (k - (k - ez)) at 2 by lia.
  apply binary_normalize_dyadic; lia.
Qed.

Lemma sub_canonical s1 s2 k :
  Z.abs s1 < 2 ^ 24 → Z.abs s2 < 2 ^ 24 → Z.abs (s1 - s2) < 2 ^ 24 →
  -125 ≤ k ≤ 80 →
  F32.sub (canonical s1 k) (canonical s2 k) = canonical (s1 - s2) k.
Proof.
  intros H1 H2 H12 Hk.
  assert (∀ s, s ≠ 0 →
            canonical s k
            = S754_finite (s <? 0)
                (Z.to_pos (Z.abs s * 2 ^ (24 - Zdigits2 s)))
                (Zdigits2 s + k - 24)) as Hcan by (by intros [|p|p]).
  destruct (decide (s2 = 0)) as [->|Hn2].
  { simpl canonical at 2. rewrite Z.sub_0_r.
    destruct (decide (s1 = 0)) as [->|Hn1]; [done|].
    by rewrite (Hcan s1 Hn1). }
  destruct (decide (s1 = 0)) as [->|Hn1].
  { simpl canonical at 1. rewrite Z.sub_0_l, (Hcan s2 Hn2), (Hcan (- s2)) by lia.
    unfold F32.sub, SFsub.
    destruct s2 as [|p|p]; [done|..]; simpl; done. }
  rewrite (Hcan s1 Hn1), (Hcan s2 Hn2).
  unfold F32.sub, SFsub. cbv zeta.
  set (ez := Z.min (Zdigits2 s1 + k - 24) (Zdigits2 s2 + k - 24)).
  rewrite !aligned_canonical by (done || lia).
  assert (Zdigits2 s1 ≤ 24) as Hd1.
  { rewrite <- Zdigits2_abs. apply Zdigits2_range. lia. }
  rewrite <- Z.mul_sub_distr_r.
  replace ez with (k - (k - ez)) at 2 by lia.
  apply binary_normalize_dyadic; lia.
Qed.

Lemma of_Z_canonical z j :
  Z.abs (z * 2 ^ j) < 2 ^ 24 → 0 ≤ j ≤ 80 →
  F32.of_Z z = canonical (z * 2 ^ j) (- j).
Proof.
  intros Hz Hj. unfold F32.of_Z.
  assert (0 < 2 ^ j) as Hpow by (apply Z.pow_pos_nonneg; lia).
  assert (Z.abs z < 2 ^ 24) as Hz' by nia.
  transitivity (canonical z 0).
  - rewrite <- (binary_normalize_dyadic z 0 0) by lia.
    by rewrite Z.pow_0_r, Z.mul_1_r.
  - rewrite <- (binary_normalize_dyadic z j 0) by lia.
    rewrite <- (binary_normalize_dyadic (z * 2 ^ j) 0 (- j)) by lia.
    rewrite Z.pow_0_r, Z.mul_1_r. f_equal. lia.
Qed.

Lemma Z_range_In n : ∀ lo a,
  lo ≤ a < lo + Z.of_nat n → In a (Z_range n lo).
Proof.
  induction n as [|n IH]; intros lo a Ha; [lia|]. simpl.
  destruct (decide (a = lo)) as [->|Hne]; [by left|].
  right. apply IH. lia.
Qed.

Lemma blend_table_sound kk :
  blend_table_check kk = true →
  (∀ o, is_uint8 o →
     F32.mul (F32.of_Z o) (eighths kk) = canonical (kk * o) (-3)
     ∧ F32.mul (F32.of_Z o) (F32.sub (F32.of_Z 1) (eighths kk))
       = canonical ((8 - kk) * o) (-3))
  ∧ (∀ a, - ((8 - kk) * 255) ≤ a ≤ 2040 → kk ≤ 8 →
       ∃ n,
         F32.to_uint8
           (F32.clamp (F32.div (canonical a (-3)) (eighths kk))
              (S754_zero false) (F32.of_Z 255)) = Some n
         ∧ (a < 0 → n = 0)
         ∧ (0 ≤ a → kk * n ≤ a ∧ (a < kk * (n + 1) ∨ n = 255))).
Proof.
  unfold blend_table_check. cbv zeta. intros Hchk.
  apply andb_true_iff in Hchk as [Hmul Hdiv].
  rewrite forallb_forall in Hmul. rewrite forallb_forall in Hdiv. split.
  - intros o Ho. specialize (Hmul o (all_uint8_In o Ho)).
    apply andb_true_iff in Hmul as [H1 H2].
    by apply bool_decide_eq_true in H1, H2.
  - intros a Ha Hkk.
    specialize
      (Hdiv a (Z_range_In (Z.to_nat (2041 + (8 - kk) * 255))
                 (- ((8 - kk) * 255)) a ltac:(lia))).
    destruct (F32.to_uint8 _) as [n|] eqn:Hn; [|done].
    exists n. split; [done|].
    destruct (Z.ltb_spec a 0) as [Hneg|Hpos].
    + apply Z.eqb_eq in Hdiv. split; [done|lia].
    + apply andb_true_iff in Hdiv as [Hlo Hhi].
      apply Z.leb_le in Hlo. apply orb_true_iff in Hhi as [Hhi|Hhi].
      * apply Z.ltb_lt in Hhi. split; [lia|]. intros _. split; [done|by left].
      * apply Z.eqb_eq in Hhi. split; [lia|]. intros _. split; [done|by right].
Qed.

Lemma rounding_table_sound rm s :
  rounding_table_check rm = true → 0 ≤ s ≤ 2040 →
  ∃ f,
    round_to_uint8 rm
      (F32.clamp (canonical s (-3)) (S754_zero false) (F32.of_Z 255))
    = Some f
    ∧ 0 ≤ f ≤ 255 ∧ Z.abs (8 * f - s) ≤ 4.
Proof.
  unfold rounding_table_check. intros Hchk Hs.
  rewrite forallb_forall in Hchk.
  specialize (Hchk s (Z_range_In 2041 0 s ltac:(lia))).
  destruct (round_to_uint8 rm _) as [f|] eqn:Hf; [|done].
  exists f. split; [done|].
  rewrite !andb_true_iff in Hchk. destruct Hchk as [[H0 H1] H2].
  apply Z.leb_le in H0, H1, H2. lia.
Qed.

Lemma blend_table_checked kk : 4 ≤ kk ≤ 8 → blend_table_check kk = true.
Proof.
  intros Hkk.
  assert (kk = 4 ∨ kk = 5 ∨ kk = 6 ∨ kk = 7 ∨ kk = 8)
    as [->|[->|[->|[->| ->]]]] by lia;
    vm_cast_no_check (eq_refl true).
Qed.

Lemma rounding_table_checked rm :
  rm ≠ TowardZero → rounding_table_check rm = true.
Proof.
  intros Hrm. destruct rm; [| |done]; vm_cast_no_check (eq_refl true).
Qed.

Lemma round_trip_channel_eighths rm kk o v :
  rm ≠ TowardZero → 4 ≤ kk ≤ 8 → is_uint8 o → is_uint8 v →
  ∃ f n,
    blend_channel rm o (eighths kk) v = Some f
    ∧ F32.to_uint8 (main.Eq f (eighths kk) v) = Some n
    ∧ close_channel n o.
Proof.
  intros Hrm Hkk Ho Hv. unfold is_uint8 in Ho, Hv.
  destruct (blend_table_sound kk (blend_table_checked kk Hkk)) as [Hmul Hdiv].
  destruct (Hmul o Ho) as [Hmo _]. destruct (Hmul v Hv) as [_ Hmv].
  destruct (rounding_table_sound rm (kk * o + (8 - kk) * v)
              (rounding_table_checked rm Hrm)) as (f & Hf & Hf255 & Hnear);
    [nia|].
  destruct (Hdiv (f * 2 ^ 3 - (8 - kk) * v)) as (n & Hn & Hneg & Hpos);
    [nia|lia|].
  exists f, n. split; [|split].
  - unfold blend_channel. rewrite Hmo, Hmv.
    rewrite add_canonical by (change (2 ^ 24) with 16777216; lia || nia).
    done.
  - unfold main.Eq. cbv zeta. rewrite Hmv.
    rewrite (of_Z_canonical f 3) by (change (2 ^ 24) with 16777216; lia).
    rewrite sub_canonical by (change (2 ^ 24) with 16777216; lia || nia).
    done.
  - unfold close_channel.
    assert (kk = 4 ∨ kk = 5 ∨ kk = 6 ∨ kk = 7 ∨ kk = 8)
      as [->|[->|[->|[->| ->]]]] by lia; lia.
Qed.

Lemma narrowing_defined_half : narrowing_defined half.
Proof. by apply narrowing_defined_moderate. Qed.

Lemma narrowing_defined_unit alpha :
  in_unit_interval alpha → narrowing_defined alpha.
Proof. intros Ha. by apply narrowing_defined_moderate, in_unit_interval_moderate. Qed.

(** ** The recovered buffer, pixel by pixel *)

Lemma unblend_frame image mask alpha ovr ovg ovb rec :
  dims_ok image →
  main.unblend image mask alpha ovr ovg ovb = Some rec →
  same_frame image rec ∧ length (pixels rec) = length (pixels image).
Proof.
  intros Hd Hrun. rewrite unblend_flat in Hrun.
  eapply run_frame; [done| |done|done].
  apply Forall_forall. intros c. by rewrite elem_of_coords.
Qed.

Lemma unblend_pointwise image mask alpha ovr ovg ovb rec x y :
  dims_ok image →
  main.unblend image mask alpha ovr ovg ovb = Some rec →
  0 ≤ x < width image → 0 ≤ y < height image →
  ∃ o, cell image mask alpha ovr ovg ovb (x, y) = Some o
       ∧ get_pixel rec x y = from_option Some (get_pixel image x y) o.
Proof.
  intros Hd Hrun Hx Hy.
  destruct (unblend_frame _ _ _ _ _ _ _ Hd Hrun) as [(Hw & Hh & Hdata) Hlen].
  rewrite unblend_flat in Hrun.
  assert (Forall (in_frame (width image) (height image))
            (coords (width image) (height image))) as Hall.
  { apply Forall_forall. intros c. by rewrite elem_of_coords. }
  assert ((x, y) ∈ coords (width image) (height image)) as Hin.
  { by apply elem_of_coords. }
  assert (same_frame image image) as Hf0 by done.
  destruct (run_cells_defined image mask alpha ovr ovg ovb Hd _ _ _ (x, y)
              Hall Hf0 Hrun Hin) as [o Ho].
  exists o. split; [done|].
  assert (dims_ok rec) as Hdr by (unfold dims_ok; by rewrite Hw, Hh).
  rewrite (get_pixel_stored rec), Hw by (done || lia).
  change (y * width image + x) with (idx image (x, y)).
  destruct o as [p|]; simpl.
  - by eapply run_written.
  - rewrite get_pixel_stored by (done || lia).
    change (y * width image + x) with (idx image (x, y)).
    apply (run_untouched image mask alpha ovr ovg ovb Hd _
             (idx image (x, y)) image rec Hall Hf0 Hrun).
    + by apply (idx_nonneg image (x, y)).
    + intros c p Hc Hcell Heq.
      apply elem_of_coords in Hc.
      apply (idx_inj image) in Heq; [|done..]. subst c. congruence.
Qed.

Lemma get_pixel_in_frame image mask c :
  dims_ok image → mask_fits image mask →
  in_frame (width image) (height image) c →
  ∃ p, get_pixel mask c.1 c.2 = Some p ∧ p ∈ pixels mask.
Proof.
  intros Hd (Hw & Hh & Hlen) [Hx Hy].
  assert (dims_ok mask) as Hdm by (unfold dims_ok; by rewrite Hw, Hh).
  rewrite get_pixel_stored by (done || lia).
  destruct (lookup_lt_is_Some_2 (pixels mask)
              (Z.to_nat (c.2 * width mask + c.1))) as [p Hp].
  { rewrite Hw. nia. }
  exists p. split; [done|]. by eapply list_elem_of_lookup_2.
Qed.

Lemma unblend_defined image mask alpha ovr ovg ovb :
  wf_image image → mask_fits image mask → narrowing_defined alpha →
  is_Some (main.unblend image mask alpha ovr ovg ovb).
Proof.
  intros (Hd & Hlen & Hpix) Hmask Hnarrow. rewrite unblend_flat.
  apply run_defined; [done| |done|done|].
  { apply Forall_forall. intros c. by rewrite elem_of_coords. }
  intros c Hc. apply elem_of_coords in Hc. unfold cell.
  destruct (get_pixel_in_frame image mask c Hd Hmask Hc) as (cm & -> & _).
  simpl. case_bool_decide; [done|].
  destruct (get_pixel_in_frame image image c Hd) as (cf & -> & Hcf);
    [done|done|].
  rewrite Forall_forall in Hpix. destruct (Hpix _ Hcf) as (Hr & Hg & Hb).
  assert (∀ v, is_uint8 (uint8_of_int v)) as Hov.
  { intros v. unfold is_uint8, uint8_of_int.
    pose proof (Z.mod_pos_bound v 256). lia. }
  simpl. unfold recover.
  destruct (Hnarrow (r cf) (uint8_of_int ovr)) as [cr ->]; [done..|].
  destruct (Hnarrow (g cf) (uint8_of_int ovg)) as [cg ->]; [done..|].
  destruct (Hnarrow (b cf) (uint8_of_int ovb)) as [cb ->]; [done..|].
  done.
Qed.

Lemma uint8_of_int_small v : is_uint8 v → uint8_of_int v = v.
Proof. unfold is_uint8, uint8_of_int. intros Hv. apply Z.mod_small. lia. Qed.

Lemma clamp_narrowed v n :
  F32.to_uint8 (F32.clamp v (S754_zero false) (F32.of_Z 255)) = Some n →
  is_uint8 n
  ∧ (F32.ltb v (S754_zero false) = true → n = 0)
  ∧ (F32.ltb (F32.of_Z 255) v = true → n = 255).
Proof.
  intros Hn. split; [|split].
  - unfold F32.to_uint8 in Hn.
    destruct (F32.truncate _) as [z|]; simpl in Hn; [|done].
    case_bool_decide; by simplify_eq.
  - intros Hlt. unfold F32.clamp in Hn. rewrite Hlt in Hn.
    vm_compute in Hn. by simplify_eq.
  - intros Hgt. unfold F32.clamp in Hn.
    assert (F32.ltb v (S754_zero false) = false) as Hnlt.
    { change (F32.of_Z 255) with (S754_finite false 16711680 (-16)) in Hgt.
      by destruct v as [[]|[]| |[] m e]. }
    rewrite Hnlt, Hgt in Hn. vm_compute in Hn. by simplify_eq.
Qed.

Lemma recovered_channel_intro c alpha ov n :
  F32.to_uint8 (main.Eq c alpha ov) = Some n →
  recovered_channel c alpha ov n.
Proof.
  intros Hn. unfold recovered_channel. cbv zeta.
  split; [done|]. by apply clamp_narrowed.
Qed.

Lemma recover_channels alpha ovr ovg ovb c_f p :
  is_uint8 ovr → is_uint8 ovg → is_uint8 ovb →
  recover alpha ovr ovg ovb c_f = Some p →
  recovered_channel (r c_f) alpha ovr (r p)
  ∧ recovered_channel (g c_f) alpha ovg (g p)
  ∧ recovered_channel (b c_f) alpha ovb (b p).
Proof.
  intros Hr Hg Hb. unfold recover.
  rewrite !uint8_of_int_small by done. intros Hrec.
  destruct (F32.to_uint8 (main.Eq (r c_f) _ _)) as [cr|] eqn:Her;
    simpl in Hrec; [|done].
  destruct (F32.to_uint8 (main.Eq (g c_f) _ _)) as [cg|] eqn:Heg;
    simpl in Hrec; [|done].
  destruct (F32.to_uint8 (main.Eq (b c_f) _ _)) as [cb|] eqn:Heb;
    simpl in Hrec; [|done].
  simplify_eq. simpl.
  split; [|split]; by apply recovered_channel_intro.
Qed.

Lemma run_skip image mask alpha ovr ovg ovb l :
  dims_ok image →
  ∀ rec, same_frame image rec →
  (∀ c, c ∈ l → in_frame (width image) (height image) c
                ∧ cell image mask alpha ovr ovg ovb c = Some None) →
  for_each (λ c, main.body image mask alpha ovr ovg ovb c.1 c.2) l rec
  = Some rec.
Proof.
  intros Hd. induction l as [|c l IH]; intros rec Hf Hall; simpl; [done|].
  destruct (Hall c) as [Hc Hcell]; [left|].
  rewrite (body_cell image mask alpha ovr ovg ovb Hd c rec Hc Hf), Hcell.
  simpl. apply IH; [done|]. intros c' Hc'. apply Hall. by right.
Qed.

Lemma truncate_quot f n :
  F32.truncate f = Some n → n = trunc_toward_zero f.
Proof.
  destruct f as [s|s| |s m e]; unfold F32.truncate, trunc_toward_zero;
    intros Hn; simplify_eq; [done|].
  assert (cond_Zopp s (Z.pos m) = if s then - Z.pos m else Z.pos m) as ->
    by done.
  destruct e as [|q|q].
  - replace (Z.max 0 0) with 0 by lia. replace (Z.max (- 0) 0) with 0 by lia.
    rewrite Z.shiftl_0_r, Z.pow_0_r, Z.mul_1_r, Z.quot_1_r. done.
  - replace (Z.max (Z.pos q) 0) with (Z.pos q) by lia.
    replace (Z.max (- Z.pos q) 0) with 0 by lia.
    rewrite Z.pow_0_r, Z.quot_1_r, Z.shiftl_mul_pow2 by lia.
    unfold cond_Zopp. destruct s; lia.
  - replace (Z.max (Z.neg q) 0) with 0 by lia.
    replace (Z.max (- Z.neg q) 0) with (Z.pos q) by lia.
    rewrite Z.pow_0_r, Z.mul_1_r, Z.shiftr_div_pow2 by lia.
    assert (0 < 2 ^ Z.pos q) by (apply Z.pow_pos_nonneg; lia).
    unfold cond_Zopp. destruct s.
    + rewrite Z.quot_opp_l by lia. rewrite Z.quot_div_nonneg by lia. done.
    + rewrite Z.quot_div_nonneg by lia. done.
Qed.

Lemma to_uint8_quot f n :
  F32.to_uint8 f = Some n → n = trunc_toward_zero f.
Proof.
  unfold F32.to_uint8. intros Hn.
  destruct (F32.truncate f) as [z|] eqn:Hz; simpl in Hn; [|done].
  case_bool_decide; simplify_eq. by apply truncate_quot.
Qed.

Lemma wf_sample_image : wf_image sample_image.
Proof.
  unfold wf_image, dims_ok, int_max. simpl.
  split; [lia|]. split; [done|].
  repeat constructor; simpl; lia.
Qed.

Lemma sample_mask_fits : mask_fits sample_image sample_mask.
Proof. by unfold mask_fits. Qed.

Lemma cell_masked image mask alpha ovr ovg ovb x y c_mask c_f :
  get_pixel mask x y = Some c_mask → c_mask ≠ BLACK →
  get_pixel image x y = Some c_f →
  cell image mask alpha ovr ovg ovb (x, y)
  = p ← recover alpha ovr ovg ovb c_f; Some (Some p).
Proof.
  intros Hm Hnb Hf. unfold cell. cbn [fst snd]. rewrite Hm.
  cbn [mbind option_bind]. rewrite bool_decide_false by done.
  by rewrite Hf.
Qed.

Lemma recover_200_half :
  recover half 255 255 255 {| r := 200; g := 200; b := 200 |}
  = Some {| r := 145; g := 145; b := 145 |}.
Proof. by vm_compute. Qed.

(** ** The unblend pass *)

(** C1. At every pixel of the frame whose mask value is not pure black,
    the pass reads the composite pixel and stores, for each channel
    separately, the value [(final_c - overlay_c * (1 - alpha)) / alpha]
    computed in binary32, clamped by [std::clamp] to [0, 255] and narrowed
    to [uint8_t]; the stored channel is 0 when that value is below 0 and 255
    when it is above 255.  The pass does return a buffer when the mask has
    the size of the image and [alpha] is a binary32 number in (0, 1]. *)
Theorem unblend_masked_pixel image mask alpha ovr ovg ovb x y c_mask :
  wf_image image →
  is_uint8 ovr → is_uint8 ovg → is_uint8 ovb →
  0 ≤ x < width image → 0 ≤ y < height image →
  get_pixel mask x y = Some c_mask → c_mask ≠ BLACK →
  (∀ rec, main.unblend image mask alpha ovr ovg ovb = Some rec →
     ∃ c_f p,
       get_pixel image x y = Some c_f
       ∧ get_pixel rec x y = Some p
       ∧ recovered_channel (r c_f) alpha ovr (r p)
       ∧ recovered_channel (g c_f) alpha ovg (g p)
       ∧ recovered_channel (b c_f) alpha ovb (b p))
  ∧ (mask_fits image mask → in_unit_interval alpha →
     is_Some (main.unblend image mask alpha ovr ovg ovb)).
Proof.
  intros Hwf Hr Hg Hb Hx Hy Hm Hnb. split.
  - intros rec Hrun. destruct Hwf as (Hd & _ & _).
    destruct (unblend_pointwise _ _ _ _ _ _ _ x y Hd Hrun Hx Hy)
      as (o & Hcell & Hget).
    unfold cell in Hcell. simpl in Hcell. rewrite Hm in Hcell.
    simpl in Hcell. rewrite bool_decide_false in Hcell by done.
    destruct (get_pixel image x y) as [c_f|]; simpl in Hcell; [|done].
    destruct (recover alpha ovr ovg ovb c_f) as [p|] eqn:Hrec;
      simpl in Hcell; [|done].
    simplify_eq. exists c_f, p. split; [done|]. split; [done|].
    by apply recover_channels.
  - intros Hfits Hunit.
    apply unblend_defined; [done..|]. by apply narrowing_defined_unit.
Qed.

Lemma unblend_masked_pixel_witness :
  (∀ rec, main.unblend sample_image sample_mask half 255 255 255 = Some rec →
     ∃ c_f p,
       get_pixel sample_image 0 0 = Some c_f
       ∧ get_pixel rec 0 0 = Some p
       ∧ recovered_channel (r c_f) half 255 (r p)
       ∧ recovered_channel (g c_f) half 255 (g p)
       ∧ recovered_channel (b c_f) half 255 (b p))
  ∧ (mask_fits sample_image sample_mask → in_unit_interval half →
     is_Some (main.unblend sample_image sample_mask half 255 255 255)).
Proof.
  apply (unblend_masked_pixel sample_image sample_mask half 255 255 255
           0 0 WHITE).
  - apply wf_sample_image.
  - unfold is_uint8; lia.
  - unfold is_uint8; lia.
  - unfold is_uint8; lia.
  - simpl; lia.
  - simpl; lia.
  - reflexivity.
  - discriminate.
Defined.

(** C2. Where the mask is pure black the recovered buffer holds the pixel
    of the composite, and under a mask of the size of the image whose
    pixels are all pure black the pass returns the composite itself. *)
Theorem unblend_keeps_unmasked image mask alpha ovr ovg ovb :
  dims_ok image →
  (∀ rec x y,
     main.unblend image mask alpha ovr ovg ovb = Some rec →
     0 ≤ x < width image → 0 ≤ y < height image →
     get_pixel mask x y = Some BLACK →
     get_pixel rec x y = get_pixel image x y)
  ∧ (mask_fits image mask → Forall (λ p, p = BLACK) (pixels mask) →
     main.unblend image mask alpha ovr ovg ovb = Some image).
Proof.
  intros Hd. split.
  - intros rec x y Hrun Hx Hy Hm.
    destruct (unblend_pointwise _ _ _ _ _ _ _ x y Hd Hrun Hx Hy)
      as (o & Hcell & Hget).
    unfold cell in Hcell. simpl in Hcell. rewrite Hm in Hcell.
    simpl in Hcell. by simplify_eq.
  - intros Hfits Hblack. rewrite unblend_flat.
    apply run_skip; [done|done|].
    intros c Hc. apply elem_of_coords in Hc. split; [done|].
    destruct (get_pixel_in_frame image mask c Hd Hfits Hc) as (p & Hp & Hin).
    rewrite Forall_forall in Hblack. rewrite (Hblack p Hin) in Hp.
    unfold cell. by rewrite Hp.
Qed.

Lemma unblend_keeps_unmasked_witness :
  (∀ rec x y,
     main.unblend sample_image sample_mask half 255 255 255 = Some rec →
     0 ≤ x < width sample_image → 0 ≤ y < height sample_image →
     get_pixel sample_mask x y = Some BLACK →
     get_pixel rec x y = get_pixel sample_image x y)
  ∧ (mask_fits sample_image sample_mask →
     Forall (λ p, p = BLACK) (pixels sample_mask) →
     main.unblend sample_image sample_mask half 255 255 255
     = Some sample_image).
Proof.
  apply (unblend_keeps_unmasked sample_image sample_mask half 255 255 255).
  unfold dims_ok, int_max. simpl. lia.
Defined.

(** C4. With overlay (255,255,255) and [alpha = 0.5], wherever the
    composite pixel is (200,200,200) and the mask pixel is not black the
    pass returns a buffer whose pixel there is exactly (145,145,145). *)
Theorem unblend_scenario_145 image mask x y c_mask :
  wf_image image → mask_fits image mask →
  0 ≤ x < width image → 0 ≤ y < height image →
  get_pixel image x y = Some {| r := 200; g := 200; b := 200 |} →
  get_pixel mask x y = Some c_mask → c_mask ≠ BLACK →
  ∃ rec,
    main.unblend image mask half 255 255 255 = Some rec
    ∧ get_pixel rec x y = Some {| r := 145; g := 145; b := 145 |}.
Proof.
  intros Hwf Hfits Hx Hy Hf Hm Hnb.
  destruct (unblend_defined image mask half 255 255 255 Hwf Hfits
              narrowing_defined_half) as [rec Hrun].
  exists rec. split; [done|]. destruct Hwf as (Hd & _ & _).
  destruct (unblend_pointwise _ _ _ _ _ _ _ x y Hd Hrun Hx Hy)
    as (o & Hcell & ->).
  rewrite (cell_masked _ _ _ _ _ _ _ _ _ _ Hm Hnb Hf) in Hcell.
  rewrite recover_200_half in Hcell. by injection Hcell as <-.
Qed.

Lemma unblend_scenario_145_witness :
  ∃ rec,
    main.unblend sample_image sample_mask half 255 255 255 = Some rec
    ∧ get_pixel rec 0 0 = Some {| r := 145; g := 145; b := 145 |}.
Proof.
  apply (unblend_scenario_145 sample_image sample_mask 0 0 WHITE).
  - apply wf_sample_image.
  - apply sample_mask_fits.
  - simpl; lia.
  - simpl; lia.
  - reflexivity.
  - reflexivity.
  - discriminate.
Defined.

(** C8. The pixel the pass leaves at a coordinate is determined by the
    composite pixel and the mask pixel at that coordinate, by [alpha] and by
    the overlay colour: two runs on different pictures agree wherever their
    inputs agree.  Running the loop body over the coordinates in any other
    order gives the same outcome as the two nested loops. *)
Theorem unblend_pixel_independent image mask alpha ovr ovg ovb :
  dims_ok image →
  (∀ image' mask' rec rec' x y,
     dims_ok image' →
     main.unblend image mask alpha ovr ovg ovb = Some rec →
     main.unblend image' mask' alpha ovr ovg ovb = Some rec' →
     0 ≤ x < width image → 0 ≤ y < height image →
     0 ≤ x < width image' → 0 ≤ y < height image' →
     get_pixel image x y = get_pixel image' x y →
     get_pixel mask x y = get_pixel mask' x y →
     get_pixel rec x y = get_pixel rec' x y)
  ∧ (∀ order,
       order ≡ₚ coords (width image) (height image) →
       main.unblend_in_order image mask alpha ovr ovg ovb order
       = main.unblend image mask alpha ovr ovg ovb).
Proof.
  intros Hd. split.
  - intros image' mask' rec rec' x y Hd' Hrun Hrun' Hx Hy Hx' Hy' Himg Hmsk.
    destruct (unblend_pointwise _ _ _ _ _ _ _ x y Hd Hrun Hx Hy)
      as (o & Hcell & ->).
    destruct (unblend_pointwise _ _ _ _ _ _ _ x y Hd' Hrun' Hx' Hy')
      as (o' & Hcell' & ->).
    unfold cell in Hcell, Hcell'. simpl in Hcell, Hcell'.
    rewrite Himg, Hmsk in Hcell. rewrite Hcell in Hcell'.
    simplify_eq. by rewrite Himg.
  - intros order Hperm. rewrite unblend_flat. unfold main.unblend_in_order.
    apply run_perm; [done|done| |done].
    apply Forall_forall. intros c Hc. rewrite Hperm in Hc.
    by apply elem_of_coords.
Qed.

Lemma unblend_pixel_independent_witness :
  main.unblend_in_order sample_image sample_mask half 255 255 255
    [(1, 1); (0, 1); (1, 0); (0, 0)]
  = main.unblend sample_image sample_mask half 255 255 255.
Proof.
  apply (unblend_pixel_independent sample_image sample_mask half 255 255 255).
  - unfold dims_ok, int_max. simpl. lia.
  - exact (reverse_Permutation [(0, 0); (1, 0); (0, 1); (1, 1)]).
Defined.

Lemma unblend_overlay_congruent image mask alpha ovr ovg ovb ovr' ovg' ovb' :
  ovr' mod 256 = ovr mod 256 → ovg' mod 256 = ovg mod 256 →
  ovb' mod 256 = ovb mod 256 →
  main.unblend image mask alpha ovr' ovg' ovb'
  = main.unblend image mask alpha ovr ovg ovb.
Proof.
  intros Hr Hg Hb. unfold main.unblend, main.row, main.body, uint8_of_int.
  by rewrite Hr, Hg, Hb.
Qed.

(** C9. The [int] overlay channels reach [Eq] as [uint8_t]: at a masked
    pixel of the frame the channel the pass stores is the narrowed result
    of [Eq] on the composite channel, [alpha] and the overlay channel
    reduced modulo 256, whatever [int] the overlay channel is; any overlay
    with the same residues modulo 256 gives the same buffer.  On the sample
    picture at [alpha = 0.5] the overlay (256, -1, 511) turns (200,200,200)
    into (255,145,145), as the overlay (0, 255, 255) does. *)
Theorem overlay_narrowed_mod_256 image mask alpha ovr ovg ovb rec x y
    c_mask c_f :
  dims_ok image →
  main.unblend image mask alpha ovr ovg ovb = Some rec →
  0 ≤ x < width image → 0 ≤ y < height image →
  get_pixel mask x y = Some c_mask → c_mask ≠ BLACK →
  get_pixel image x y = Some c_f →
  (∃ p,
     get_pixel rec x y = Some p
     ∧ F32.to_uint8 (main.Eq (r c_f) alpha (ovr mod 256)) = Some (r p)
     ∧ F32.to_uint8 (main.Eq (g c_f) alpha (ovg mod 256)) = Some (g p)
     ∧ F32.to_uint8 (main.Eq (b c_f) alpha (ovb mod 256)) = Some (b p))
  ∧ (∀ ovr' ovg' ovb',
       ovr' mod 256 = ovr mod 256 → ovg' mod 256 = ovg mod 256 →
       ovb' mod 256 = ovb mod 256 →
       main.unblend image mask alpha ovr' ovg' ovb' = Some rec)
  ∧ (∃ rec',
       main.unblend sample_image sample_mask half 256 (-1) 511 = Some rec'
       ∧ main.unblend sample_image sample_mask half 0 255 255 = Some rec'
       ∧ get_pixel rec' 0 0 = Some {| r := 255; g := 145; b := 145 |}).
Proof.
  intros Hd Hrun Hx Hy Hm Hnb Hf. split; [|split].
  - destruct (unblend_pointwise _ _ _ _ _ _ _ x y Hd Hrun Hx Hy)
      as (o & Hcell & Hget).
    rewrite (cell_masked _ _ _ _ _ _ _ _ _ _ Hm Hnb Hf) in Hcell.
    unfold recover, uint8_of_int in Hcell.
    destruct (F32.to_uint8 (main.Eq (r c_f) alpha (ovr mod 256)))
      as [cr|]; simpl in Hcell; [|done].
    destruct (F32.to_uint8 (main.Eq (g c_f) alpha (ovg mod 256)))
      as [cg|]; simpl in Hcell; [|done].
    destruct (F32.to_uint8 (main.Eq (b c_f) alpha (ovb mod 256)))
      as [cb|]; simpl in Hcell; [|done].
    injection Hcell as <-. by exists {| r := cr; g := cg; b := cb |}.
  - intros ovr' ovg' ovb' Hr Hg Hb. rewrite <- Hrun.
    by apply unblend_overlay_congruent.
  - eexists. split; [|split]; [by vm_compute..|done].
Qed.

Lemma overlay_narrowed_mod_256_witness :
  (∃ p,
     get_pixel
       {| data := [];
          pixels := [{| r := 255; g := 145; b := 145 |}; grey 10; grey 250;
                     {| r := 255; g := 1; b := 1 |}];
          width := 2; height := 2 |} 0 0 = Some p
     ∧ F32.to_uint8 (main.Eq 200 half (256 mod 256)) = Some (r p)
     ∧ F32.to_uint8 (main.Eq 200 half ((-1) mod 256)) = Some (g p)
     ∧ F32.to_uint8 (main.Eq 200 half (511 mod 256)) = Some (b p))
  ∧ (∀ ovr' ovg' ovb',
       ovr' mod 256 = 256 mod 256 → ovg' mod 256 = (-1) mod 256 →
       ovb' mod 256 = 511 mod 256 →
       main.unblend sample_image sample_mask half ovr' ovg' ovb'
       = Some {| data := [];
                 pixels := [{| r := 255; g := 145; b := 145 |}; grey 10;
                            grey 250; {| r := 255; g := 1; b := 1 |}];
                 width := 2; height := 2 |})
  ∧ (∃ rec',
       main.unblend sample_image sample_mask half 256 (-1) 511 = Some rec'
       ∧ main.unblend sample_image sample_mask half 0 255 255 = Some rec'
       ∧ get_pixel rec' 0 0 = Some {| r := 255; g := 145; b := 145 |}).
Proof.
  apply (overlay_narrowed_mod_256 sample_image sample_mask half 256 (-1) 511
           _ 0 0 WHITE (grey 200)).
  - unfold dims_ok, int_max. simpl. lia.
  - by vm_compute.
  - simpl; lia.
  - simpl; lia.
  - reflexivity.
  - discriminate.
  - reflexivity.
Defined.

(** C10. The channel stored for a masked pixel is the clamped binary32
    result of [Eq] rounded toward zero, never to nearest: the float nearest
    to 144.9 is stored as 144, and composite 200 under overlay 255 with
    [alpha = 0.75] (181.66...) is stored as 181. *)
Theorem narrowing_truncates image mask alpha ovr ovg ovb rec x y c_mask c_f p :
  dims_ok image →
  main.unblend image mask alpha ovr ovg ovb = Some rec →
  0 ≤ x < width image → 0 ≤ y < height image →
  get_pixel mask x y = Some c_mask → c_mask ≠ BLACK →
  get_pixel image x y = Some c_f →
  get_pixel rec x y = Some p →
  (r p = trunc_toward_zero (main.Eq (r c_f) alpha (uint8_of_int ovr))
   ∧ g p = trunc_toward_zero (main.Eq (g c_f) alpha (uint8_of_int ovg))
   ∧ b p = trunc_toward_zero (main.Eq (b c_f) alpha (uint8_of_int ovb)))
  ∧ F32.to_uint8 (F32.of_dyadic 9496166 (-16)) = Some 144
  ∧ main.Eq 200 three_quarters 255 = S754_finite false 11905707 (-16)
  ∧ F32.to_uint8 (main.Eq 200 three_quarters 255) = Some 181.
Proof.
  intros Hd Hrun Hx Hy Hm Hnb Hf Hp. split; [|by vm_compute].
  destruct (unblend_pointwise _ _ _ _ _ _ _ x y Hd Hrun Hx Hy)
    as (o & Hcell & Hget).
  unfold cell in Hcell. simpl in Hcell. rewrite Hm, Hf in Hcell.
  simpl in Hcell. rewrite bool_decide_false in Hcell by done.
  unfold recover in Hcell.
  destruct (F32.to_uint8 (main.Eq (r c_f) _ _)) as [cr|] eqn:Her;
    simpl in Hcell; [|done].
  destruct (F32.to_uint8 (main.Eq (g c_f) _ _)) as [cg|] eqn:Heg;
    simpl in Hcell; [|done].
  destruct (F32.to_uint8 (main.Eq (b c_f) _ _)) as [cb|] eqn:Heb;
    simpl in Hcell; [|done].
  simplify_eq. simpl in Hget. rewrite Hget in Hp. simplify_eq. simpl.
  split; [|split]; by apply to_uint8_quot.
Qed.

Lemma narrowing_truncates_witness :
  (181 = trunc_toward_zero (main.Eq 200 three_quarters (uint8_of_int 255))
   ∧ 181 = trunc_toward_zero (main.Eq 200 three_quarters (uint8_of_int 255))
   ∧ 181 = trunc_toward_zero (main.Eq 200 three_quarters (uint8_of_int 255)))
  ∧ F32.to_uint8 (F32.of_dyadic 9496166 (-16)) = Some 144
  ∧ main.Eq 200 three_quarters 255 = S754_finite false 11905707 (-16)
  ∧ F32.to_uint8 (main.Eq 200 three_quarters 255) = Some 181.
Proof.
  apply (narrowing_truncates (one_pixel (grey 200)) (one_pixel WHITE)
           three_quarters 255 255 255 (one_pixel (grey 181)) 0 0
           WHITE (grey 200) (grey 181)).
  - unfold dims_ok, int_max. simpl. lia.
  - vm_compute. reflexivity.
  - simpl; lia.
  - simpl; lia.
  - reflexivity.
  - discriminate.
  - reflexivity.
  - reflexivity.
Defined.

(** ** A zero blend factor *)

Lemma get_pixel_elem image x y p :
  dims_ok image → 0 ≤ x < width image → 0 ≤ y < height image →
  get_pixel image x y = Some p → p ∈ pixels image.
Proof.
  intros Hd Hx Hy. rewrite get_pixel_stored by (done || lia).
  apply list_elem_of_lookup_2.
Qed.

Lemma unblend_defined_cells image mask alpha ovr ovg ovb :
  dims_ok image →
  Z.of_nat (length (pixels image)) = width image * height image →
  (∀ c, in_frame (width image) (height image) c →
        is_Some (cell image mask alpha ovr ovg ovb c)) →
  is_Some (main.unblend image mask alpha ovr ovg ovb).
Proof.
  intros Hd Hlen Hcells. rewrite unblend_flat.
  apply run_defined; [done| |done|done|].
  - apply Forall_forall. intros c. by rewrite elem_of_coords.
  - intros c Hc. apply Hcells. by apply elem_of_coords.
Qed.




(** ** The error of one binary32 operation *)

Lemma bpow_pos e : (0 < bpow e)%R.
Proof. apply powerRZ_lt. lra. Qed.

Lemma bpow_add a b : bpow (a + b) = (bpow a * bpow b)%R.
Proof. apply powerRZ_add. lra. Qed.

Lemma bpow_IZR n : 0 ≤ n → bpow n = IZR (2 ^ n).
Proof.
  intros Hn. unfold bpow. destruct n as [|p|p]; [done| |lia].
  by rewrite <- Zpower_pos_powerRZ.
Qed.

Lemma bpow_le a b : a ≤ b → (bpow a <= bpow b)%R.
Proof.
  intros Hab. replace b with (a + (b - a)) by lia.
  rewrite bpow_add, (bpow_IZR (b - a)) by lia.
  assert (0 < 2 ^ (b - a)) by (apply Z.pow_pos_nonneg; lia).
  assert (1 ≤ 2 ^ (b - a)) as H1 by lia. clear H.
  rename H1 into H.
  apply IZR_le in H. pose proof (bpow_pos a). nra.
Qed.

Lemma bpow_lt a b : a < b → (bpow a < bpow b)%R.
Proof.
  intros Hab. replace b with (a + (b - a)) by lia.
  rewrite bpow_add, (bpow_IZR (b - a)) by lia.
  assert (2 ≤ 2 ^ (b - a)).
  { change 2 with (2 ^ 1) at 1. apply Z.pow_le_mono_r; lia. }
  apply IZR_le in H. pose proof (bpow_pos a). nra.
Qed.

Lemma bpow_sub a b : bpow (a - b) = (bpow a / bpow b)%R.
Proof.
  pose proof (bpow_pos b). replace a with ((a - b) + b) at 2 by lia.
  rewrite bpow_add. field. lra.
Qed.

(** An integer below [2^k] in magnitude, scaled. *)
Lemma IZR_bpow_lt m e k :
  0 < m → (IZR m * bpow e < bpow k)%R → Zdigits2 m + e ≤ k.
Proof.
  intros Hm Hlt.
  destruct (decide (Zdigits2 m + e ≤ k)) as [|Hgt]; [done|exfalso].
  assert (2 ^ (Zdigits2 m - 1) ≤ m) as Hlow.
  { destruct m as [|p|p]; try lia. apply digits2_pos_le. }
  pose proof (Zdigits2_nonneg m).
  assert (1 ≤ Zdigits2 m).
  { destruct m as [|p|p]; simpl; lia. }
  apply IZR_le in Hlow. rewrite <- bpow_IZR in Hlow by lia.
  assert (bpow k <= bpow (Zdigits2 m - 1 + e))%R as Hk by (apply bpow_le; lia).
  rewrite bpow_add in Hk. pose proof (bpow_pos e). nra.
Qed.

Lemma F2R_finite s m e :
  F2R (S754_finite s m e) = (sign_of s * IZR (Z.pos m) * bpow e)%R.
Proof.
  unfold F2R, sign_of. destruct s; simpl cond_Zopp; [|lra].
  rewrite opp_IZR. lra.
Qed.

Lemma shr_fexp_mantissa m e l :
  0 ≤ m → e ≤ fexp F32.prec F32.emax (Zdigits2 m + e) →
  shr_m (shr_fexp F32.prec F32.emax m e l).1
  = m / 2 ^ (fexp F32.prec F32.emax (Zdigits2 m + e) - e).
Proof.
  intros Hm He. unfold shr_fexp, shr.
  destruct (fexp F32.prec F32.emax (Zdigits2 m + e) - e) as [|n|n] eqn:Hn;
    simpl fst.
  - rewrite shr_record_of_loc_m. simpl. by rewrite Z.div_1_r.
  - rewrite iter_shr_1_m by (by rewrite shr_record_of_loc_m).
    by rewrite shr_record_of_loc_m.
  - lia.
Qed.

Lemma shr_fexp_exact_unchanged m e :
  0 ≤ m → fexp F32.prec F32.emax (Zdigits2 m + e) ≤ e →
  shr_fexp F32.prec F32.emax m e loc_Exact
  = ({| shr_m := m; shr_r := false; shr_s := false |}, e).
Proof.
  intros Hm He. unfold shr_fexp, shr.
  destruct (fexp F32.prec F32.emax (Zdigits2 m + e) - e) as [|n|n] eqn:Hn;
    [done|lia|done].
Qed.

Lemma round_nearest_even_range m l :
  m ≤ round_nearest_even m l ≤ m + 1.
Proof.
  unfold round_nearest_even. destruct l as [|[]]; try lia.
  destruct (Z.even m); lia.
Qed.

(** The result of [binary_round_aux] on a mantissa that is at least as
    fine as the format asks: the mantissa is cut to the exponent of the
    format and moved up by at most one unit. *)
Lemma binary_round_aux_shape sx mx ex lx :
  0 ≤ mx →
  ex ≤ fexp F32.prec F32.emax (Zdigits2 mx + ex) →
  Zdigits2 mx + ex ≤ 127 →
  ∃ M,
    mx / 2 ^ (fexp F32.prec F32.emax (Zdigits2 mx + ex) - ex) ≤ M
    ∧ M ≤ mx / 2 ^ (fexp F32.prec F32.emax (Zdigits2 mx + ex) - ex) + 1
    ∧ F2R (binary_round_aux F32.prec F32.emax sx mx ex lx)
      = (sign_of sx * IZR M
         * bpow (fexp F32.prec F32.emax (Zdigits2 mx + ex)))%R
    ∧ valid_binary F32.prec F32.emax
        (binary_round_aux F32.prec F32.emax sx mx ex lx) = true
    ∧ finite_or_zero (binary_round_aux F32.prec F32.emax sx mx ex lx).
Proof.
  intros Hmx Hfine Hover.
  set (E := fexp F32.prec F32.emax (Zdigits2 mx + ex)) in *.
  assert (E = Z.max (Zdigits2 mx + ex - 24) (-149)) as HE by done.
  unfold binary_round_aux.
  pose proof (shr_fexp_mantissa mx ex lx Hmx Hfine) as Hm1.
  pose proof (shr_fexp_exponent mx ex lx) as He1.
  pose proof (shr_fexp_bound mx ex lx Hmx) as Hb1.
  destruct (shr_fexp F32.prec F32.emax mx ex lx) as [mrs' e'].
  simpl fst in Hm1, Hb1. simpl snd in He1. fold E in Hm1, He1.
  assert (e' = E) as -> by lia.
  set (m' := mx / 2 ^ (E - ex)) in *.
  pose proof (round_nearest_even_range (shr_m mrs') (loc_of_shr_record mrs'))
    as HM1.
  set (M1 := round_nearest_even (shr_m mrs') (loc_of_shr_record mrs')) in *.
  rewrite Hm1 in HM1, Hb1.
  exists M1. split; [lia|]. split; [lia|].
  assert (-149 < E → 2 ^ 23 ≤ m') as Hnormal.
  { intros Hn. assert (0 < mx) as Hpos.
    { destruct mx as [|p|p]; [|lia|lia]. simpl in HE. lia. }
    assert (2 ^ (Zdigits2 mx - 1) ≤ mx) as Hlow.
    { destruct mx as [|p|p]; try lia. apply digits2_pos_le. }
    unfold m'. apply Z.div_le_lower_bound; [apply Z.pow_pos_nonneg; lia|].
    rewrite <- Z.pow_add_r by lia.
    replace (E - ex + 23) with (Zdigits2 mx - 1) by lia. done. }
  destruct (decide (M1 = 2 ^ 24)) as [HM|HM].
  - assert (shr_fexp F32.prec F32.emax M1 E loc_Exact
            = ({| shr_m := 2 ^ 23; shr_r := false; shr_s := false |}, E + 1))
      as ->.
    { rewrite HM. unfold shr_fexp, shr.
      change (Zdigits2 (2 ^ 24)) with 25. rewrite fexp_le.
      replace (Z.max (25 + E - 24) (-149) - E) with 1 by lia. done. }
    cbn [shr_m]. change (2 ^ 23) with (Z.pos 8388608).
    rewrite (proj2 (Z.leb_le (E + 1) (F32.emax - F32.prec)))
      by (unfold F32.emax, F32.prec; lia).
    split; [|split; [|done]].
    + rewrite F2R_finite, HM, bpow_add.
      assert (bpow 1 = 2%R) as -> by (unfold bpow; simpl; lra).
      change (2 ^ 24) with 16777216. lra.
    + unfold valid_binary, SpecFloat.bounded, canonical_mantissa.
      change (Z.pos (digits2_pos 8388608)) with 24. rewrite fexp_le.
      apply andb_true_iff. split; [apply Z.eqb_eq; lia|].
      apply Z.leb_le. unfold F32.emax, F32.prec. lia.
  - assert (0 ≤ M1 < 2 ^ 24) as HM1r by lia.
    rewrite shr_fexp_exact_unchanged.
    2: lia.
    2: { rewrite fexp_le.
         pose proof (Zdigits2_le M1 24 HM1r ltac:(lia)). lia. }
    cbn [shr_m].
    destruct M1 as [|p|p] eqn:HMp; [| |lia].
    + split; [simpl; lra|]. done.
    + rewrite (proj2 (Z.leb_le E (F32.emax - F32.prec)))
        by (unfold F32.emax, F32.prec; lia).
      split; [by rewrite F2R_finite|]. split; [|done].
      unfold valid_binary, SpecFloat.bounded, canonical_mantissa. rewrite fexp_le.
      apply andb_true_iff. split; [apply Z.eqb_eq|].
      * change (Z.pos (digits2_pos p)) with (Zdigits2 (Z.pos p)).
        destruct (decide (E = -149)) as [->|HnE].
        -- pose proof (Zdigits2_le (Z.pos p) 24 HM1r ltac:(lia)). lia.
        -- rewrite (Zdigits2_unique (Z.pos p) 24); lia.
      * apply Z.leb_le. unfold F32.emax, F32.prec. lia.
Qed.

Lemma fexp_mono a b :
  a ≤ b → fexp F32.prec F32.emax a ≤ fexp F32.prec F32.emax b.
Proof. rewrite !fexp_le. lia. Qed.

(** Rounding a number given by a mantissa, an exponent and a position
    between two mantissas: the result is a binary32 number at most one unit
    of the last place away. *)
Lemma binary_round_aux_error sx mx ex lx (x : R) k :
  0 ≤ mx →
  ex ≤ fexp F32.prec F32.emax (Zdigits2 mx + ex) →
  (IZR mx * bpow ex <= x < (IZR mx + 1) * bpow ex)%R →
  (x < bpow k)%R → k ≤ 127 →
  valid_binary F32.prec F32.emax
    (binary_round_aux F32.prec F32.emax sx mx ex lx) = true
  ∧ finite_or_zero (binary_round_aux F32.prec F32.emax sx mx ex lx)
  ∧ (Rabs (F2R (binary_round_aux F32.prec F32.emax sx mx ex lx)
           - sign_of sx * x)
     <= bpow (fexp F32.prec F32.emax k))%R.
Proof.
  intros Hmx Hfine [Hlo Hhi] Hk Hk127.
  assert (Zdigits2 mx + ex ≤ k ∨ (mx = 0 ∧ ex ≤ -149)) as Hdig.
  { destruct (decide (mx = 0)) as [->|Hne].
    - right. split; [done|]. simpl in Hfine. rewrite fexp_le in Hfine. lia.
    - left. apply IZR_bpow_lt; [lia|]. lra. }
  assert (Zdigits2 mx + ex ≤ 127) as Hover.
  { destruct Hdig as [|[-> ?]]; [lia|simpl; lia]. }
  assert (fexp F32.prec F32.emax (Zdigits2 mx + ex)
          ≤ fexp F32.prec F32.emax k) as HEk.
  { destruct Hdig as [|[-> ?]]; [by apply fexp_mono|].
    simpl. rewrite !fexp_le. lia. }
  destruct (binary_round_aux_shape sx mx ex lx Hmx Hfine Hover)
    as (M & HM1 & HM2 & HF & Hvalid & Hfin).
  split; [done|]. split; [done|]. rewrite HF.
  set (E := fexp F32.prec F32.emax (Zdigits2 mx + ex)) in *.
  set (n := E - ex) in *.
  assert (0 < 2 ^ n) as Hpow by (apply Z.pow_pos_nonneg; lia).
  pose proof (Z.mul_div_le mx (2 ^ n) Hpow) as Hd1.
  pose proof (Z.mul_succ_div_gt mx (2 ^ n) Hpow) as Hd2.
  set (m' := mx / 2 ^ n) in *.
  assert (bpow E = (IZR (2 ^ n) * bpow ex)%R) as HbE.
  { rewrite <- bpow_IZR by lia. rewrite <- bpow_add. f_equal. lia. }
  assert (IZR (2 ^ n) * IZR m' <= IZR mx)%R as Hr1.
  { rewrite <- mult_IZR. by apply IZR_le. }
  assert (IZR mx + 1 <= IZR (2 ^ n) * (IZR m' + 1))%R as Hr2.
  { rewrite <- (plus_IZR m' 1), <- (plus_IZR mx 1), <- mult_IZR.
    apply IZR_le. lia. }
  pose proof (bpow_pos ex) as Hpex.
  assert (IZR m' * bpow E <= x)%R as Hx1.
  { rewrite HbE. nra. }
  assert (x <= (IZR m' + 1) * bpow E)%R as Hx2.
  { rewrite HbE. nra. }
  assert (IZR m' <= IZR M <= IZR m' + 1)%R as HMr.
  { split; [by apply IZR_le|]. rewrite <- (plus_IZR m' 1). by apply IZR_le. }
  pose proof (bpow_pos E) as HpE.
  apply Rle_trans with (bpow E); [|by apply bpow_le].
  apply Rabs_le. unfold sign_of. destruct sx; nra.
Qed.

Lemma Zdigits2_low m : 0 < m → 2 ^ (Zdigits2 m - 1) ≤ m.
Proof. destruct m as [|p|p]; try lia. intros _. apply digits2_pos_le. Qed.

Lemma Zdigits2_pos m : 0 < m → 1 ≤ Zdigits2 m.
Proof. destruct m as [|p|p]; simpl; lia. Qed.

Lemma Zdigits2_mul a b :
  0 < a → 0 < b → Zdigits2 a + Zdigits2 b - 1 ≤ Zdigits2 (a * b).
Proof.
  intros Ha Hb.
  pose proof (Zdigits2_low a Ha). pose proof (Zdigits2_low b Hb).
  pose proof (Zdigits2_pos a Ha). pose proof (Zdigits2_pos b Hb).
  pose proof (Zdigits2_gt (a * b) ltac:(nia)) as Hgt.
  assert (2 ^ (Zdigits2 a - 1 + (Zdigits2 b - 1)) ≤ a * b) as Hlow.
  { rewrite Z.pow_add_r by lia. nia. }
  assert (Zdigits2 a - 1 + (Zdigits2 b - 1) < Zdigits2 (a * b)); [|lia].
  apply (Z.pow_lt_mono_r_iff 2); [lia|apply Zdigits2_nonneg|lia].
Qed.

Lemma valid_finite s m e :
  valid_binary F32.prec F32.emax (S754_finite s m e) = true →
  Z.max (Zdigits2 (Z.pos m) + e - 24) (-149) = e ∧ e ≤ 104.
Proof.
  unfold valid_binary, SpecFloat.bounded, canonical_mantissa.
  rewrite andb_true_iff, Z.eqb_eq, Z.leb_le, fexp_le.
  unfold F32.emax, F32.prec. simpl Zdigits2. lia.
Qed.

Lemma sign_of_xorb a b : sign_of (xorb a b) = (sign_of a * sign_of b)%R.
Proof. destruct a, b; unfold sign_of; simpl; lra. Qed.

Lemma Rabs_sign s x : (0 <= x)%R → Rabs (sign_of s * x) = x.
Proof.
  intros Hx. unfold sign_of. destruct s.
  - replace (-1 * x)%R with (- x)%R by lra. rewrite Rabs_Ropp.
    by apply Rabs_pos_eq.
  - rewrite Rmult_1_l. by apply Rabs_pos_eq.
Qed.

Lemma Rabs_zero_le e : (Rabs (0 - 0) <= bpow e)%R.
Proof.
  rewrite Rminus_0_r, Rabs_R0. pose proof (bpow_pos e). lra.
Qed.

(** A product of two binary32 numbers below [2^k] in magnitude is at most
    [2^(k-24)] away from the exact product. *)
Lemma mul_error X Y k :
  valid_binary F32.prec F32.emax X = true →
  valid_binary F32.prec F32.emax Y = true →
  finite_or_zero X → finite_or_zero Y →
  (Rabs (F2R X * F2R Y) < bpow k)%R → k ≤ 127 →
  valid_binary F32.prec F32.emax (F32.mul X Y) = true
  ∧ finite_or_zero (F32.mul X Y)
  ∧ (Rabs (F2R (F32.mul X Y) - F2R X * F2R Y)
     <= bpow (fexp F32.prec F32.emax k))%R.
Proof.
  intros HvX HvY HfX HfY Hk Hk127.
  destruct X as [sx|sx| |sx mx ex], Y as [sy|sy| |sy my ey]; try done;
    try (split; [done|]; split; [done|];
         simpl F2R; rewrite ?Rmult_0_l, ?Rmult_0_r; apply Rabs_zero_le).
  apply valid_finite in HvX as [HcX HeX], HvY as [HcY HeY].
  rewrite !F2R_finite in *.
  set (x := (IZR (Z.pos (mx * my)) * bpow (ex + ey))%R).
  assert ((sign_of sx * IZR (Z.pos mx) * bpow ex
           * (sign_of sy * IZR (Z.pos my) * bpow ey))%R
          = (sign_of (xorb sx sy) * x)%R) as Hprod.
  { unfold x. rewrite sign_of_xorb, Pos2Z.inj_mul, mult_IZR, bpow_add. ring. }
  rewrite Hprod in *.
  assert (0 <= x)%R as Hx0.
  { unfold x. pose proof (bpow_pos (ex + ey)).
    assert (0 < IZR (Z.pos (mx * my)))%R by (apply IZR_lt; lia). nra. }
  rewrite Rabs_sign in Hk by done.
  unfold F32.mul, SFmul.
  apply binary_round_aux_error;
    [lia| |unfold x; pose proof (bpow_pos (ex + ey)); lra|done|done].
  pose proof (Zdigits2_mul (Z.pos mx) (Z.pos my) ltac:(lia) ltac:(lia)) as Hd.
  pose proof (Zdigits2_pos (Z.pos mx) ltac:(lia)).
  pose proof (Zdigits2_pos (Z.pos my) ltac:(lia)).
  rewrite fexp_le. rewrite Pos2Z.inj_mul.
  generalize dependent (Zdigits2 (Z.pos mx * Z.pos my)).
  generalize dependent (Zdigits2 (Z.pos mx)).
  generalize dependent (Zdigits2 (Z.pos my)). intros. lia.
Qed.

Lemma bpow_scale m e ez :
  ez ≤ e → (IZR (m * 2 ^ (e - ez)) * bpow ez)%R = (IZR m * bpow e)%R.
Proof.
  intros He. rewrite mult_IZR, <- bpow_IZR by lia.
  replace e with ((e - ez) + ez) at 2 by lia. rewrite bpow_add. ring.
Qed.

Lemma binary_round_error s p e k :
  (IZR (Z.pos p) * bpow e < bpow k)%R → k ≤ 127 →
  valid_binary F32.prec F32.emax (binary_round F32.prec F32.emax s p e)
  = true
  ∧ finite_or_zero (binary_round F32.prec F32.emax s p e)
  ∧ (Rabs (F2R (binary_round F32.prec F32.emax s p e)
           - sign_of s * (IZR (Z.pos p) * bpow e))
     <= bpow (fexp F32.prec F32.emax k))%R.
Proof.
  intros Hk Hk127. unfold binary_round.
  pose proof (shl_align_fst p e
                (fexp F32.prec F32.emax (Z.pos (digits2_pos p) + e)))
    as [Hmz Hez].
  change (Z.pos (digits2_pos p)) with (Zdigits2 (Z.pos p)) in *.
  set (e' := fexp F32.prec F32.emax (Zdigits2 (Z.pos p) + e)) in *.
  destruct (shl_align p e e') as [mz ez]. simpl fst in Hmz. simpl snd in Hez.
  assert (Z.pos mz = Z.pos p * 2 ^ (e - ez)) as Hmz'.
  { rewrite Hmz. f_equal. f_equal. lia. }
  assert (IZR (Z.pos mz) * bpow ez = IZR (Z.pos p) * bpow e)%R as Hval.
  { rewrite Hmz'. apply bpow_scale. lia. }
  pose proof (bpow_pos ez) as Hpz.
  apply binary_round_aux_error; [lia| |lra|lra|done].
  rewrite Hmz', Zdigits2_shift by lia.
  replace (Zdigits2 (Z.pos p) + (e - ez) + ez) with (Zdigits2 (Z.pos p) + e)
    by lia.
  fold e'. lia.
Qed.

(** Normalising [m * 2^e], below [2^k] in magnitude, loses at most
    [2^(k-24)]. *)
Lemma binary_normalize_error m e sz k :
  (Rabs (IZR m * bpow e) < bpow k)%R → k ≤ 127 →
  valid_binary F32.prec F32.emax
    (binary_normalize F32.prec F32.emax m e sz) = true
  ∧ finite_or_zero (binary_normalize F32.prec F32.emax m e sz)
  ∧ (Rabs (F2R (binary_normalize F32.prec F32.emax m e sz)
           - IZR m * bpow e)
     <= bpow (fexp F32.prec F32.emax k))%R.
Proof.
  intros Hk Hk127. pose proof (bpow_pos e) as Hpe.
  destruct m as [|p|p]; simpl binary_normalize.
  - split; [done|]. split; [done|].
    rewrite Rmult_0_l. apply Rabs_zero_le.
  - assert (0 < IZR (Z.pos p))%R by (apply IZR_lt; lia).
    rewrite Rabs_pos_eq in Hk by nra.
    destruct (binary_round_error false p e k Hk Hk127) as (Hv & Hf & Herr).
    split; [done|]. split; [done|].
    unfold sign_of in Herr. by rewrite Rmult_1_l in Herr.
  - assert (0 < IZR (Z.pos p))%R by (apply IZR_lt; lia).
    change (Z.neg p) with (- Z.pos p) in *. rewrite opp_IZR in *.
    replace (- IZR (Z.pos p) * bpow e)%R
      with (- (IZR (Z.pos p) * bpow e))%R in * by ring.
    rewrite Rabs_Ropp, Rabs_pos_eq in Hk by nra.
    destruct (binary_round_error true p e k Hk Hk127) as (Hv & Hf & Herr).
    split; [done|]. split; [done|].
    unfold sign_of in Herr.
    replace (- (IZR (Z.pos p) * bpow e))%R
      with (-1 * (IZR (Z.pos p) * bpow e))%R by ring. done.
Qed.

Lemma IZR_cond_Zopp s z : IZR (cond_Zopp s z) = (sign_of s * IZR z)%R.
Proof.
  unfold sign_of. destruct s; simpl cond_Zopp; [|lra].
  rewrite opp_IZR. lra.
Qed.

Lemma aligned_value s m e ez :
  ez ≤ e →
  (IZR (cond_Zopp s (Z.pos (shl_align m e ez).1)) * bpow ez)%R
  = F2R (S754_finite s m e).
Proof.
  intros He. destruct (shl_align_fst m e ez) as [Hm _].
  replace (Z.max 0 (e - ez)) with (e - ez) in Hm by lia.
  rewrite F2R_finite, IZR_cond_Zopp, Hm, Rmult_assoc.
  rewrite (bpow_scale (Z.pos m) e ez He). ring.
Qed.

(** A sum of two binary32 numbers below [2^k] in magnitude is at most
    [2^(k-24)] away from the exact sum. *)
Lemma add_error X Y k :
  valid_binary F32.prec F32.emax X = true →
  valid_binary F32.prec F32.emax Y = true →
  finite_or_zero X → finite_or_zero Y →
  (Rabs (F2R X + F2R Y) < bpow k)%R → k ≤ 127 →
  valid_binary F32.prec F32.emax (F32.add X Y) = true
  ∧ finite_or_zero (F32.add X Y)
  ∧ (Rabs (F2R (F32.add X Y) - (F2R X + F2R Y))
     <= bpow (fexp F32.prec F32.emax k))%R.
Proof.
  intros HvX HvY HfX HfY Hk Hk127.
  pose proof (bpow_pos (fexp F32.prec F32.emax k)) as Hpk.
  destruct X as [sx|sx| |sx mx ex], Y as [sy|sy| |sy my ey]; try done.
  - split; [by destruct sx, sy|]. split; [by destruct sx, sy|].
    replace (F2R (F32.add (S754_zero sx) (S754_zero sy))) with 0%R
      by (by destruct sx, sy).
    simpl F2R. rewrite Rplus_0_l. apply Rabs_zero_le.
  - split; [done|]. split; [done|]. simpl F32.add.
    change (F2R (S754_zero sx)) with 0%R. rewrite Rplus_0_l.
    rewrite Rminus_diag, Rabs_R0. lra.
  - split; [done|]. split; [done|]. simpl F32.add.
    change (F2R (S754_zero sy)) with 0%R. rewrite Rplus_0_r.
    rewrite Rminus_diag, Rabs_R0. lra.
  - unfold F32.add, SFadd. cbv zeta.
    set (ez := Z.min ex ey).
    rewrite <- (aligned_value sx mx ex ez), <- (aligned_value sy my ey ez) in *
      by lia.
    rewrite <- Rmult_plus_distr_r, <- plus_IZR in *.
    by apply binary_normalize_error.
Qed.

(** The same for a difference. *)
Lemma sub_error X Y k :
  valid_binary F32.prec F32.emax X = true →
  valid_binary F32.prec F32.emax Y = true →
  finite_or_zero X → finite_or_zero Y →
  (Rabs (F2R X - F2R Y) < bpow k)%R → k ≤ 127 →
  valid_binary F32.prec F32.emax (F32.sub X Y) = true
  ∧ finite_or_zero (F32.sub X Y)
  ∧ (Rabs (F2R (F32.sub X Y) - (F2R X - F2R Y))
     <= bpow (fexp F32.prec F32.emax k))%R.
Proof.
  intros HvX HvY HfX HfY Hk Hk127.
  pose proof (bpow_pos (fexp F32.prec F32.emax k)) as Hpk.
  destruct X as [sx|sx| |sx mx ex], Y as [sy|sy| |sy my ey]; try done.
  - split; [by destruct sx, sy|]. split; [by destruct sx, sy|].
    replace (F2R (F32.sub (S754_zero sx) (S754_zero sy))) with 0%R
      by (by destruct sx, sy).
    simpl F2R. rewrite Rminus_0_r. apply Rabs_zero_le.
  - split; [done|]. split; [done|]. simpl F32.sub.
    change (F2R (S754_zero sx)) with 0%R. rewrite Rminus_0_l.
    rewrite !F2R_finite.
    replace (sign_of (negb sy)) with (- sign_of sy)%R
      by (destruct sy; unfold sign_of; simpl; lra).
    match goal with |- (Rabs ?v <= _)%R => replace v with 0%R by ring end.
    rewrite Rabs_R0. lra.
  - split; [done|]. split; [done|]. simpl F32.sub.
    change (F2R (S754_zero sy)) with 0%R. rewrite Rminus_0_r.
    rewrite Rminus_diag, Rabs_R0. lra.
  - unfold F32.sub, SFsub. cbv zeta.
    set (ez := Z.min ex ey).
    rewrite <- (aligned_value sx mx ex ez), <- (aligned_value sy my ey ez) in *
      by lia.
    rewrite <- Rmult_minus_distr_r, <- minus_IZR in *.
    by apply binary_normalize_error.
Qed.

(** The quotient and the exponent [SFdiv_core_binary] hands to the
    rounding: the quotient of the mantissas after the dividend is shifted
    far enough for 24 significant bits. *)
Lemma div_core_spec m1 e1 m2 e2 :
  0 < m1 → 0 < m2 →
  ∃ q e' l s,
    SFdiv_core_binary F32.prec F32.emax m1 e1 m2 e2 = (q, e', l)
    ∧ 0 ≤ s ∧ e' = e1 - e2 - s
    ∧ m2 * q ≤ m1 * 2 ^ s < m2 * (q + 1)
    ∧ 0 ≤ q
    ∧ e' ≤ fexp F32.prec F32.emax (Zdigits2 q + e').
Proof.
  intros Hm1 Hm2. unfold SFdiv_core_binary. cbv zeta.
  set (P := Zdigits2 m1 + e1 - (Zdigits2 m2 + e2)).
  set (e' := Z.min (fexp F32.prec F32.emax P) (e1 - e2)).
  set (s := e1 - e2 - e').
  assert (0 ≤ s) as Hs by (unfold s, e'; lia).
  assert (match s with
          | 0 => m1
          | Z.pos _ => Z.shiftl m1 s
          | Z.neg _ => 0
          end = m1 * 2 ^ s) as ->.
  { destruct s as [|p|p] eqn:Hsp; [simpl; lia| |lia].
    by rewrite Z.shiftl_mul_pow2. }
  pose proof (Z_div_mod (m1 * 2 ^ s) m2 ltac:(lia)) as Hdiv.
  destruct (Z.div_eucl (m1 * 2 ^ s) m2) as [q r]. destruct Hdiv as [Heq Hr].
  exists q, e', (new_location m2 r), s.
  split; [done|]. split; [done|]. split; [unfold s; lia|].
  assert (0 < 2 ^ s) as Hpow by (apply Z.pow_pos_nonneg; lia).
  assert (0 ≤ q) as Hq by nia.
  split; [nia|]. split; [done|].
  rewrite fexp_le.
  destruct (decide (e' ≤ -149)) as [|Hnorm]; [lia|].
  assert (e' ≤ P - 24) as HP.
  { unfold e' in *. rewrite fexp_le in *. lia. }
  assert (24 - Zdigits2 m1 + Zdigits2 m2 ≤ s) as Hs' by (unfold s, P in *; lia).
  pose proof (Zdigits2_low m1 Hm1) as Hl1.
  pose proof (Zdigits2_gt m2 ltac:(lia)) as Hg2.
  pose proof (Zdigits2_pos m1 Hm1). pose proof (Zdigits2_pos m2 Hm2).
  assert (2 ^ (23 + Zdigits2 m2) ≤ m1 * 2 ^ s) as Hbig.
  { apply Z.le_trans with (2 ^ (Zdigits2 m1 - 1) * 2 ^ s); [|nia].
    rewrite <- Z.pow_add_r by lia. apply Z.pow_le_mono_r; lia. }
  rewrite Z.pow_add_r in Hbig by lia.
  assert (2 ^ 23 ≤ q) as Hq23.
  { assert (0 < 2 ^ 23) by lia. assert (0 < 2 ^ Zdigits2 m2) by lia. nia. }
  pose proof (Zdigits2_gt q Hq) as Hgq.
  assert (23 < Zdigits2 q).
  { apply (Z.pow_lt_mono_r_iff 2); [lia|apply Zdigits2_nonneg|lia]. }
  lia.
Qed.

(** A quotient of two binary32 numbers below [2^k] in magnitude is at most
    [2^(k-24)] away from the exact quotient. *)
Lemma div_error X sy my ey k :
  finite_or_zero X →
  (Rabs (F2R X / F2R (S754_finite sy my ey)) < bpow k)%R → k ≤ 127 →
  valid_binary F32.prec F32.emax (F32.div X (S754_finite sy my ey)) = true
  ∧ finite_or_zero (F32.div X (S754_finite sy my ey))
  ∧ (Rabs (F2R (F32.div X (S754_finite sy my ey))
           - F2R X / F2R (S754_finite sy my ey))
     <= bpow (fexp F32.prec F32.emax k))%R.
Proof.
  intros HfX Hk Hk127.
  destruct X as [sx|sx| |sx mx ex]; try done.
  { split; [done|]. split; [done|]. simpl F32.div. simpl F2R at 1 2.
    unfold Rdiv. rewrite Rmult_0_l. apply Rabs_zero_le. }
  destruct (div_core_spec (Z.pos mx) ex (Z.pos my) ey ltac:(lia) ltac:(lia))
    as (q & e' & l & s & Hcore & Hs & He' & [Hq1 Hq2] & Hq0 & Hfine).
  unfold F32.div, SFdiv. rewrite Hcore.
  rewrite !F2R_finite in *.
  assert (0 < IZR (Z.pos mx))%R as Hpx by (apply IZR_lt; lia).
  assert (0 < IZR (Z.pos my))%R as Hpy by (apply IZR_lt; lia).
  pose proof (bpow_pos ex) as Hbx. pose proof (bpow_pos ey) as Hby.
  pose proof (bpow_pos e') as Hbe.
  set (x := (IZR (Z.pos mx) * bpow ex / (IZR (Z.pos my) * bpow ey))%R).
  assert ((sign_of sx * IZR (Z.pos mx) * bpow ex
           / (sign_of sy * IZR (Z.pos my) * bpow ey))%R
          = (sign_of (xorb sx sy) * x)%R) as Hquot.
  { unfold x. rewrite sign_of_xorb.
    unfold sign_of. destruct sx, sy; field; lra. }
  rewrite Hquot in *.
  assert (x = (IZR (Z.pos mx * 2 ^ s) / IZR (Z.pos my) * bpow e')%R) as Hx.
  { unfold x. rewrite mult_IZR, <- bpow_IZR by done.
    replace ex with (s + e' + ey) by lia. rewrite !bpow_add.
    pose proof (bpow_pos s). field. lra. }
  apply IZR_le in Hq1. apply IZR_lt in Hq2.
  rewrite (mult_IZR (Z.pos my) q) in Hq1.
  rewrite (mult_IZR (Z.pos my) (q + 1)), plus_IZR in Hq2.
  set (N := IZR (Z.pos mx * 2 ^ s)) in *.
  assert (IZR q <= N / IZR (Z.pos my) < IZR q + 1)%R as [Hb1 Hb2].
  { split.
    - apply Rmult_le_reg_r with (IZR (Z.pos my)); [done|].
      unfold Rdiv. rewrite Rmult_assoc, Rinv_l by lra. lra.
    - apply Rmult_lt_reg_r with (IZR (Z.pos my)); [done|].
      unfold Rdiv. rewrite Rmult_assoc, Rinv_l by lra. lra. }
  assert (0 <= x)%R as Hx0.
  { rewrite Hx. assert (0 <= IZR q)%R by (by apply IZR_le). nra. }
  rewrite Rabs_sign in Hk by done.
  apply binary_round_aux_error; [done|done| |done|done].
  rewrite Hx. split; nra.
Qed.

Lemma magnitude_lt s1 m1 e1 s2 m2 e2 :
  valid_binary F32.prec F32.emax (S754_finite s1 m1 e1) = true →
  valid_binary F32.prec F32.emax (S754_finite s2 m2 e2) = true →
  e1 < e2 →
  (IZR (Z.pos m1) * bpow e1 < IZR (Z.pos m2) * bpow e2)%R.
Proof.
  intros H1 H2 He. apply valid_finite in H1 as [H1 _], H2 as [H2 _].
  pose proof (Zdigits2_gt (Z.pos m1) ltac:(lia)) as Hg1.
  pose proof (Zdigits2_low (Z.pos m2) ltac:(lia)) as Hl2.
  pose proof (Zdigits2_pos (Z.pos m1) ltac:(lia)).
  assert (Zdigits2 (Z.pos m1) ≤ 24) as Hd1 by lia.
  assert (Zdigits2 (Z.pos m2) = 24) as Hd2 by lia.
  rewrite Hd2 in Hl2.
  assert (Z.pos m1 < 2 ^ 24) as Hm1.
  { eapply Z.lt_le_trans; [exact Hg1|]. apply Z.pow_le_mono_r; lia. }
  apply IZR_lt in Hm1. apply IZR_le in Hl2.
  rewrite <- bpow_IZR in Hm1, Hl2 by lia.
  pose proof (bpow_pos e1). pose proof (bpow_pos e2).
  apply Rlt_le_trans with (bpow 24 * bpow e1)%R; [nra|].
  apply Rle_trans with (bpow (24 - 1) * bpow e2)%R; [|nra].
  rewrite <- !bpow_add. apply bpow_le. lia.
Qed.

(** [SFltb] on binary32 numbers is the order of the reals. *)
Lemma ltb_correct X Y :
  valid_binary F32.prec F32.emax X = true →
  valid_binary F32.prec F32.emax Y = true →
  finite_or_zero X → finite_or_zero Y →
  F32.ltb X Y = true ↔ (F2R X < F2R Y)%R.
Proof.
  intros HvX HvY HfX HfY.
  destruct X as [sx|sx| |sx mx ex], Y as [sy|sy| |sy my ey]; try done.
  - simpl. split; [done|lra].
  - rewrite F2R_finite. simpl F2R.
    assert (0 < IZR (Z.pos my) * bpow ey)%R.
    { pose proof (bpow_pos ey).
      assert (0 < IZR (Z.pos my))%R by (apply IZR_lt; lia). nra. }
    unfold F32.ltb, SFltb, SFcompare, sign_of.
    destruct sy; split; try done; nra.
  - rewrite F2R_finite. simpl F2R.
    assert (0 < IZR (Z.pos mx) * bpow ex)%R.
    { pose proof (bpow_pos ex).
      assert (0 < IZR (Z.pos mx))%R by (apply IZR_lt; lia). nra. }
    unfold F32.ltb, SFltb, SFcompare, sign_of.
    destruct sx; split; try done; nra.
  - rewrite !F2R_finite.
    assert (0 < IZR (Z.pos mx) * bpow ex)%R as Hpx.
    { pose proof (bpow_pos ex).
      assert (0 < IZR (Z.pos mx))%R by (apply IZR_lt; lia). nra. }
    assert (0 < IZR (Z.pos my) * bpow ey)%R as Hpy.
    { pose proof (bpow_pos ey).
      assert (0 < IZR (Z.pos my))%R by (apply IZR_lt; lia). nra. }
    assert (ex < ey →
            (IZR (Z.pos mx) * bpow ex < IZR (Z.pos my) * bpow ey)%R) as Hlt.
    { intros. by eapply magnitude_lt. }
    assert (ey < ex →
            (IZR (Z.pos my) * bpow ey < IZR (Z.pos mx) * bpow ex)%R) as Hgt.
    { intros. by eapply magnitude_lt. }
    assert (ex = ey → Z.pos mx < Z.pos my →
            (IZR (Z.pos mx) * bpow ex < IZR (Z.pos my) * bpow ey)%R) as Hml.
    { intros -> Hm. apply IZR_lt in Hm. pose proof (bpow_pos ey). nra. }
    assert (ex = ey → Z.pos my ≤ Z.pos mx →
            (IZR (Z.pos my) * bpow ey <= IZR (Z.pos mx) * bpow ex)%R) as Hmg.
    { intros -> Hm. apply IZR_le in Hm. pose proof (bpow_pos ey). nra. }
    assert (ex = ey → Z.pos my < Z.pos mx →
            (IZR (Z.pos my) * bpow ey < IZR (Z.pos mx) * bpow ex)%R) as Hml'.
    { intros -> Hm. apply IZR_lt in Hm. pose proof (bpow_pos ey). nra. }
    assert (ex = ey → Z.pos mx ≤ Z.pos my →
            (IZR (Z.pos mx) * bpow ex <= IZR (Z.pos my) * bpow ey)%R) as Hmg'.
    { intros -> Hm. apply IZR_le in Hm. pose proof (bpow_pos ey). nra. }
    unfold F32.ltb, SFltb, SFcompare, sign_of.
    change (Pos.compare_cont Datatypes.Eq mx my) with (Pos.compare mx my).
    destruct sx, sy; simpl xorb.
    + destruct (Z.compare_spec ex ey) as [He|He|He].
      * destruct (Pos.compare_spec mx my) as [Hm|Hm|Hm]; simpl.
        -- specialize (Hmg' He ltac:(lia)). split; [done|lra].
        -- specialize (Hmg' He ltac:(lia)). split; [done|lra].
        -- specialize (Hml' He ltac:(lia)). split; [lra|done].
      * specialize (Hlt He). split; [done|lra].
      * specialize (Hgt He). split; [lra|done].
    + split; [lra|done].
    + split; [done|lra].
    + destruct (Z.compare_spec ex ey) as [He|He|He].
      * destruct (Pos.compare_spec mx my) as [Hm|Hm|Hm]; simpl.
        -- specialize (Hmg He ltac:(lia)). split; [done|lra].
        -- specialize (Hml He ltac:(lia)). split; [lra|done].
        -- specialize (Hmg He ltac:(lia)). split; [done|lra].
      * specialize (Hlt He). split; [lra|done].
      * specialize (Hgt He). split; [done|lra].
Qed.

Lemma F2R_canonical s k :
  Z.abs s < 2 ^ 24 → F2R (canonical s k) = (IZR s * bpow k)%R.
Proof.
  intros Hs. destruct (decide (s = 0)) as [->|Hne].
  { simpl. lra. }
  assert (canonical s k
          = S754_finite (s <? 0)
              (Z.to_pos (Z.abs s * 2 ^ (24 - Zdigits2 s)))
              (Zdigits2 s + k - 24)) as -> by (by destruct s).
  pose proof (Zdigits2_range (Z.abs s) ltac:(lia)) as Hd.
  rewrite Zdigits2_abs in Hd.
  pose proof (normalised_range (Z.abs s) ltac:(lia)) as Hn.
  rewrite Zdigits2_abs in Hn.
  unfold F2R. rewrite Z2Pos.id by lia. rewrite cond_Zopp_abs.
  replace (Zdigits2 s + k - 24) with (k - (24 - Zdigits2 s)) by lia.
  set (j := 24 - Zdigits2 s).
  replace j with (k - (k - j)) at 1 by lia.
  rewrite bpow_scale by lia. done.
Qed.

Lemma valid_canonical s k :
  Z.abs s < 2 ^ 24 → -149 ≤ Zdigits2 s + k - 24 ≤ 104 →
  valid_binary F32.prec F32.emax (canonical s k) = true
  ∧ finite_or_zero (canonical s k).
Proof.
  intros Hs Hk. destruct (decide (s = 0)) as [->|Hne]; [done|].
  assert (canonical s k
          = S754_finite (s <? 0)
              (Z.to_pos (Z.abs s * 2 ^ (24 - Zdigits2 s)))
              (Zdigits2 s + k - 24)) as -> by (by destruct s).
  split; [|done].
  pose proof (normalised_range (Z.abs s) ltac:(lia)) as Hn.
  rewrite Zdigits2_abs in Hn.
  unfold valid_binary, SpecFloat.bounded, canonical_mantissa.
  change (Z.pos (digits2_pos ?p)) with (Zdigits2 (Z.pos p)).
  rewrite Z2Pos.id by lia.
  rewrite (Zdigits2_unique _ 24) by lia.
  rewrite fexp_le. apply andb_true_iff.
  split; [apply Z.eqb_eq; lia|].
  apply Z.leb_le. unfold F32.emax, F32.prec. lia.
Qed.

(** [static_cast<float>] of a channel is exact. *)
Lemma of_Z_uint8_exact c :
  is_uint8 c →
  valid_binary F32.prec F32.emax (F32.of_Z c) = true
  ∧ finite_or_zero (F32.of_Z c)
  ∧ F2R (F32.of_Z c) = IZR c.
Proof.
  intros Hc. unfold is_uint8 in Hc.
  rewrite (of_Z_canonical c 0) by (simpl; lia).
  rewrite Z.pow_0_r, Z.mul_1_r. change (- 0) with 0.
  assert (Z.abs c < 2 ^ 24) as Habs by lia.
  assert (-149 ≤ Zdigits2 c + 0 - 24 ≤ 104) as Hrange.
  { destruct (decide (c = 0)) as [->|]; [simpl; lia|].
    pose proof (Zdigits2_range c ltac:(lia)). lia. }
  destruct (valid_canonical c 0 Habs Hrange) as [Hv Hf].
  split; [done|]. split; [done|].
  rewrite F2R_canonical by done. unfold bpow. simpl. lra.
Qed.

Lemma F2R_255 : F2R (F32.of_Z 255) = 255%R.
Proof. apply (of_Z_uint8_exact 255). unfold is_uint8. lia. Qed.

Lemma finite_nonneg s m e :
  (0 <= F2R (S754_finite s m e))%R → s = false.
Proof.
  rewrite F2R_finite. destruct s; [|done]. unfold sign_of.
  pose proof (bpow_pos e).
  assert (0 < IZR (Z.pos m))%R by (apply IZR_lt; lia). nra.
Qed.

(** [std::clamp(v, 0.f, 255.f)] on a binary32 number is the real clamp. *)
Lemma clamp_correct f :
  valid_binary F32.prec F32.emax f = true → finite_or_zero f →
  valid_binary F32.prec F32.emax
    (F32.clamp f (S754_zero false) (F32.of_Z 255)) = true
  ∧ finite_or_zero (F32.clamp f (S754_zero false) (F32.of_Z 255))
  ∧ (0 <= F2R (F32.clamp f (S754_zero false) (F32.of_Z 255)) <= 255)%R
  ∧ ((F2R f <= 0)%R →
     F2R (F32.clamp f (S754_zero false) (F32.of_Z 255)) = 0%R)
  ∧ ((255 <= F2R f)%R →
     F2R (F32.clamp f (S754_zero false) (F32.of_Z 255)) = 255%R)
  ∧ ((0 <= F2R f <= 255)%R →
     F2R (F32.clamp f (S754_zero false) (F32.of_Z 255)) = F2R f).
Proof.
  intros Hv Hf. unfold F32.clamp.
  destruct (of_Z_uint8_exact 255 ltac:(unfold is_uint8; lia))
    as (Hv255 & Hf255 & H255).
  pose proof (ltb_correct f (S754_zero false) Hv eq_refl Hf I) as Hlt0.
  pose proof (ltb_correct (F32.of_Z 255) f Hv255 Hv Hf255 Hf) as Hlt255.
  rewrite H255 in Hlt255. change (F2R (S754_zero false)) with 0%R in Hlt0.
  destruct (F32.ltb f (S754_zero false)) eqn:H0.
  { assert (F2R f < 0)%R by (by apply Hlt0).
    change (F2R (S754_zero false)) with 0%R.
    repeat split; try done; lra. }
  assert (¬ (F2R f < 0)%R) as Hn0 by (intros H; apply Hlt0 in H; done).
  destruct (F32.ltb (F32.of_Z 255) f) eqn:H1.
  { assert (255 < F2R f)%R by (by apply Hlt255).
    rewrite H255. repeat split; try done; lra. }
  assert (¬ (255 < F2R f)%R) as Hn1 by (intros H; apply Hlt255 in H; done).
  repeat split; try done; lra.
Qed.

Lemma F2R_neg_exp m p :
  F2R (S754_finite false m (Z.neg p))
  = (IZR (Z.pos m) / IZR (2 ^ Z.pos p))%R.
Proof.
  rewrite F2R_finite. unfold sign_of. rewrite Rmult_1_l.
  change (Z.neg p) with (0 - Z.pos p). rewrite bpow_sub.
  rewrite (bpow_IZR (Z.pos p)) by lia. unfold bpow. simpl powerRZ.
  unfold Rdiv. ring.
Qed.

Lemma F2R_nonneg_exp m e :
  0 ≤ e → F2R (S754_finite false m e) = IZR (Z.pos m * 2 ^ e).
Proof.
  intros He. rewrite F2R_finite. unfold sign_of.
  rewrite mult_IZR, bpow_IZR by done. ring.
Qed.

(** The narrowing of the code on a clamped value is the floor. *)
Lemma to_uint8_floor f :
  finite_or_zero f → (0 <= F2R f <= 255)%R →
  ∃ n, F32.to_uint8 f = Some n ∧ is_uint8 n
       ∧ (IZR n <= F2R f < IZR n + 1)%R.
Proof.
  intros Hf [H0 H255].
  destruct f as [s|s| |s m e]; try done.
  { exists 0. split; [done|]. split; [unfold is_uint8; lia|]. simpl. lra. }
  pose proof (finite_nonneg s m e H0) as ->.
  unfold F32.to_uint8, F32.truncate. cbn [cond_Zopp].
  destruct e as [|p|p].
  - rewrite (F2R_nonneg_exp m 0) in * by lia.
    rewrite Z.shiftl_0_r. exists (Z.pos m).
    replace (Z.pos m * 2 ^ 0) with (Z.pos m) in * by lia.
    apply le_IZR in H255. cbn [mbind option_bind].
    rewrite bool_decide_true by lia.
    split; [done|]. split; [unfold is_uint8; lia|]. lra.
  - rewrite (F2R_nonneg_exp m (Z.pos p)) in * by lia.
    rewrite Z.shiftl_mul_pow2 by lia.
    assert (0 < 2 ^ Z.pos p) by (apply Z.pow_pos_nonneg; lia).
    exists (Z.pos m * 2 ^ Z.pos p).
    apply le_IZR in H255. cbn [mbind option_bind].
    rewrite bool_decide_true by nia.
    split; [done|]. split; [unfold is_uint8; nia|]. lra.
  - rewrite F2R_neg_exp in *. rewrite Z.shiftr_div_pow2 by lia.
    assert (0 < 2 ^ Z.pos p) as Hpow by (apply Z.pow_pos_nonneg; lia).
    pose proof (Z.mul_div_le (Z.pos m) (2 ^ Z.pos p) Hpow) as Hd1.
    pose proof (Z.mul_succ_div_gt (Z.pos m) (2 ^ Z.pos p) Hpow) as Hd2.
    set (q := Z.pos m / 2 ^ Z.pos p) in *.
    assert (0 ≤ q) as Hq0 by (apply Z.div_pos; lia).
    apply IZR_lt in Hpow. apply IZR_le in Hd1. apply IZR_lt in Hd2.
    rewrite mult_IZR in Hd1, Hd2. unfold Z.succ in Hd2.
    rewrite plus_IZR in Hd2.
    set (D := IZR (2 ^ Z.pos p)) in *. set (N := IZR (Z.pos m)) in *.
    assert (IZR q <= N / D < IZR q + 1)%R as [Hb1 Hb2].
    { split.
      - apply Rmult_le_reg_r with D; [done|].
        unfold Rdiv. rewrite Rmult_assoc, Rinv_l by lra. lra.
      - apply Rmult_lt_reg_r with D; [done|].
        unfold Rdiv. rewrite Rmult_assoc, Rinv_l by lra. lra. }
    assert (q ≤ 255) as Hq255.
    { apply le_IZR. lra. }
    exists q. cbn [mbind option_bind]. rewrite bool_decide_true by lia.
    split; [done|]. split; [unfold is_uint8; lia|]. lra.
Qed.

(** The rounding of the forward blend to the nearest 8 bit channel moves
    a clamped value by at most one half. *)
Lemma round_to_uint8_nearest rm f :
  rm ≠ TowardZero → finite_or_zero f → (0 <= F2R f <= 255)%R →
  ∃ n, round_to_uint8 rm f = Some n ∧ is_uint8 n
       ∧ (Rabs (IZR n - F2R f) <= / 2)%R.
Proof.
  intros Hrm Hf [H0 H255].
  destruct f as [s|s| |s m e]; try done.
  { exists 0. split; [done|]. split; [unfold is_uint8; lia|]. simpl.
    rewrite Rminus_0_r, Rabs_R0. lra. }
  pose proof (finite_nonneg s m e H0) as ->.
  unfold round_to_uint8.
  destruct e as [|p|p].
  - rewrite (F2R_nonneg_exp m 0) in * by lia.
    rewrite Z.shiftl_0_r.
    replace (Z.pos m * 2 ^ 0) with (Z.pos m) in * by lia.
    apply le_IZR in H255. rewrite bool_decide_true by lia.
    exists (Z.pos m). split; [done|]. split; [unfold is_uint8; lia|].
    rewrite Rminus_diag, Rabs_R0. lra.
  - rewrite (F2R_nonneg_exp m (Z.pos p)) in * by lia.
    rewrite Z.shiftl_mul_pow2 by lia.
    assert (0 < 2 ^ Z.pos p) by (apply Z.pow_pos_nonneg; lia).
    apply le_IZR in H255. rewrite bool_decide_true by nia.
    exists (Z.pos m * 2 ^ Z.pos p).
    split; [done|]. split; [unfold is_uint8; nia|].
    rewrite Rminus_diag, Rabs_R0. lra.
  - rewrite F2R_neg_exp in *. cbv zeta.
    rewrite Z.shiftr_div_pow2, Z.land_ones, Z.shiftl_mul_pow2 by lia.
    rewrite Z.mul_1_l.
    assert (0 < 2 ^ Z.pos p) as Hpow by (apply Z.pow_pos_nonneg; lia).
    pose proof (Z.div_mod (Z.pos m) (2 ^ Z.pos p) ltac:(lia)) as Hdm.
    pose proof (Z.mod_pos_bound (Z.pos m) (2 ^ Z.pos p) Hpow) as Hrest.
    set (q := Z.pos m / 2 ^ Z.pos p) in *.
    set (rest := Z.pos m mod 2 ^ Z.pos p) in *.
    assert (2 ^ Z.pos p = 2 * 2 ^ (Z.pos p - 1)) as Htie.
    { rewrite <- Z.pow_succ_r by lia. f_equal. lia. }
    set (tie := 2 ^ (Z.pos p - 1)) in *.
    assert (0 ≤ q) as Hq0 by (apply Z.div_pos; lia).
    assert (IZR (Z.pos m) = IZR (2 ^ Z.pos p) * IZR q + IZR rest)%R as HN.
    { rewrite <- mult_IZR, <- plus_IZR. by f_equal. }
    assert (IZR (2 ^ Z.pos p) = 2 * IZR tie)%R as HD.
    { rewrite Htie, mult_IZR. done. }
    assert (0 < IZR tie)%R as Htpos.
    { apply IZR_lt. lia. }
    destruct Hrest as [Hr0 Hr1].
    apply IZR_le in Hr0. apply IZR_lt in Hr1. rewrite HD in Hr1.
    set (up := match rm with
               | ToNearestEven =>
                   (tie <? rest) || (tie =? rest) && Z.odd q
               | ToNearestAway => tie <=? rest
               | TowardZero => false
               end).
    assert (if up then tie ≤ rest else rest ≤ tie) as Hup.
    { unfold up. destruct rm; [| |done].
      - destruct (Z.ltb_spec tie rest); simpl; [lia|].
        destruct (Z.eqb_spec tie rest); simpl; [|lia].
        destruct (Z.odd q); lia.
      - destruct (Z.leb_spec tie rest); lia. }
    set (y := (IZR (Z.pos m) / IZR (2 ^ Z.pos p))%R) in *.
    assert (y = IZR q + IZR rest / (2 * IZR tie))%R as Hy.
    { unfold y. rewrite HN, HD. field. lra. }
    assert (0 <= IZR rest / (2 * IZR tie) < 1)%R as [Hf0 Hf1].
    { split.
      - apply Rmult_le_reg_r with (2 * IZR tie)%R; [lra|].
        unfold Rdiv. rewrite Rmult_assoc, Rinv_l by lra. lra.
      - apply Rmult_lt_reg_r with (2 * IZR tie)%R; [lra|].
        unfold Rdiv. rewrite Rmult_assoc, Rinv_l by lra. lra. }
    destruct up.
    + apply IZR_le in Hup.
      assert (/ 2 <= IZR rest / (2 * IZR tie))%R as Hhalf.
      { apply Rmult_le_reg_r with (2 * IZR tie)%R; [lra|].
        unfold Rdiv. rewrite Rmult_assoc, Rinv_l by lra. lra. }
      assert (q + 1 ≤ 255) as Hn.
      { assert (IZR q < 255)%R as Hq by lra. apply lt_IZR in Hq. lia. }
      rewrite bool_decide_true by done.
      exists (q + 1). split; [done|]. split; [unfold is_uint8; lia|].
      rewrite plus_IZR. apply Rabs_le. lra.
    + apply IZR_le in Hup.
      assert (IZR rest / (2 * IZR tie) <= / 2)%R as Hhalf.
      { apply Rmult_le_reg_r with (2 * IZR tie)%R; [lra|].
        unfold Rdiv. rewrite Rmult_assoc, Rinv_l by lra. lra. }
      assert (q ≤ 255) as Hn.
      { apply le_IZR. lra. }
      rewrite bool_decide_true by done.
      exists q. split; [done|]. split; [unfold is_uint8; lia|].
      apply Rabs_le. lra.
Qed.

Lemma F2R_round_trip_low :
  valid_binary F32.prec F32.emax round_trip_low = true
  ∧ finite_or_zero round_trip_low
  ∧ F2R round_trip_low = (2049 / 4096)%R.
Proof.
  split; [done|]. split; [done|].
  change round_trip_low with (S754_finite false 8392704 (-24)).
  rewrite F2R_finite. unfold sign_of, bpow. simpl. lra.
Qed.

Lemma above_half_range alpha :
  above_half alpha →
  valid_binary F32.prec F32.emax alpha = true
  ∧ (∃ ma ea, alpha = S754_finite false ma ea)
  ∧ (2049 / 4096 <= F2R alpha <= 1)%R.
Proof.
  intros [(Hvalid & Hpos & Hle1) Hlow].
  destruct (of_Z_uint8_exact 1 ltac:(unfold is_uint8; lia))
    as (Hv1 & Hf1 & H1).
  destruct F2R_round_trip_low as (Hvl & Hfl & Hl).
  assert (finite_or_zero alpha) as Hfin.
  { destruct alpha as [s|[]| |s m e]; done. }
  apply (ltb_correct (S754_zero false) alpha eq_refl Hvalid I Hfin) in Hpos.
  change (F2R (S754_zero false)) with 0%R in Hpos.
  assert (¬ (1 < F2R alpha)%R) as Hn1.
  { intros H. rewrite <- H1 in H.
    apply (ltb_correct _ _ Hv1 Hvalid Hf1 Hfin) in H. congruence. }
  assert (¬ (F2R alpha < 2049 / 4096)%R) as Hnl.
  { intros H. rewrite <- Hl in H.
    apply (ltb_correct _ _ Hvalid Hvl Hfin Hfl) in H. congruence. }
  split; [done|]. split; [|lra].
  destruct alpha as [s|s| |s m e]; try done;
    try (simpl in Hpos; exfalso; lra).
  assert (s = false) as -> by (apply (finite_nonneg s m e); lra). eauto.
Qed.

Lemma Rabs_le_inv x y : (Rabs x <= y)%R → (- y <= x <= y)%R.
Proof. unfold Rabs. destruct (Rcase_abs x); lra. Qed.

Lemma bpow_values :
  bpow (-1) = (/ 2)%R ∧ bpow 7 = 128%R ∧ bpow 8 = 256%R ∧ bpow 9 = 512%R
  ∧ bpow 10 = 1024%R
  ∧ bpow (fexp F32.prec F32.emax (-1)) = (/ 33554432)%R
  ∧ bpow (fexp F32.prec F32.emax 7) = (/ 131072)%R
  ∧ bpow (fexp F32.prec F32.emax 8) = (/ 65536)%R
  ∧ bpow (fexp F32.prec F32.emax 9) = (/ 32768)%R
  ∧ bpow (fexp F32.prec F32.emax 10) = (/ 16384)%R.
Proof.
  change (fexp F32.prec F32.emax (-1)) with (-25).
  change (fexp F32.prec F32.emax 7) with (-17).
  change (fexp F32.prec F32.emax 8) with (-16).
  change (fexp F32.prec F32.emax 9) with (-15).
  change (fexp F32.prec F32.emax 10) with (-14).
  unfold bpow. simpl. repeat split; lra.
Qed.

Lemma Rmult_interval x y X m M :
  (0 <= x <= X)%R → (- m <= y <= M)%R → (0 <= m)%R → (0 <= M)%R →
  (- (X * m) <= x * y <= X * M)%R.
Proof. intros [Hx0 Hx1] [Hy0 Hy1] Hm HM. split; nra. Qed.

(** One channel through the forward blend and back, for a blend factor
    between 1/2 + 2^-12 and 1: every binary32 operation is off by at most
    one unit of the last place, which leaves the recovered channel within 1
    of the original. *)
Lemma round_trip_channel_above_half rm alpha o v :
  rm ≠ TowardZero → above_half alpha → is_uint8 o → is_uint8 v →
  ∃ f n,
    blend_channel rm o alpha v = Some f
    ∧ F32.to_uint8 (main.Eq f alpha v) = Some n
    ∧ close_channel n o.
Proof.
  intros Hrm Ha Ho Hv.
  destruct (above_half_range alpha Ha) as (HvA & (ma & ea & ->) & [HAlo HAhi]).
  destruct bpow_values
    as (Bm1 & B7 & B8 & B9 & B10 & E25 & E17 & E16 & E15 & E14).
  set (alpha := S754_finite false ma ea) in *.
  set (A := F2R alpha) in *.
  destruct (of_Z_uint8_exact 1 ltac:(unfold is_uint8; lia))
    as (Hv1 & Hf1 & H1).
  destruct (of_Z_uint8_exact o Ho) as (Hvo & Hfo & HRo).
  destruct (of_Z_uint8_exact v Hv) as (Hvv & Hfv & HRv).
  assert (0 <= IZR o <= 255)%R as Hor.
  { unfold is_uint8 in Ho. split; apply IZR_le; lia. }
  assert (0 <= IZR v <= 255)%R as Hvr.
  { unfold is_uint8 in Hv. split; apply IZR_le; lia. }
  (* 1 - alpha *)
  destruct (sub_error (F32.of_Z 1) alpha (-1) Hv1 HvA Hf1 I)
    as (Hvt & Hft & Het); [|lia|].
  { rewrite H1, Bm1. fold A. apply Rabs_def1; lra. }
  rewrite H1, E25 in Het. fold A in Het. apply Rabs_le_inv in Het.
  set (t := F32.sub (F32.of_Z 1) alpha) in *. set (T := F2R t) in *.
  (* o * alpha *)
  pose proof (Rmult_interval (IZR o) A 255 0 1 Hor ltac:(lra) ltac:(lra)
                ltac:(lra)) as PoA.
  pose proof (Rmult_interval (255 - IZR o) A 255 0 1 ltac:(lra) ltac:(lra)
                ltac:(lra) ltac:(lra)) as PoA'.
  destruct (mul_error (F32.of_Z o) alpha 8 Hvo HvA Hfo I)
    as (Hva & Hfa & Hea); [|lia|].
  { rewrite HRo, B8. fold A. apply Rabs_def1; lra. }
  rewrite HRo, E16 in Hea. fold A in Hea. apply Rabs_le_inv in Hea.
  set (a := F32.mul (F32.of_Z o) alpha) in *. set (Ra := F2R a) in *.
  (* v * (1 - alpha) *)
  pose proof (Rmult_interval (IZR v) T 255 (/ 33554432)
                (2047 / 4096 + / 33554432) Hvr ltac:(lra) ltac:(lra)
                ltac:(lra)) as PvT.
  pose proof (Rmult_interval (IZR v) (T - (1 - A)) 255 (/ 33554432)
                (/ 33554432) Hvr ltac:(lra) ltac:(lra) ltac:(lra)) as PvE.
  pose proof (Rmult_interval (IZR v) (1 - A) 255 0 1 Hvr ltac:(lra)
                ltac:(lra) ltac:(lra)) as PvA.
  pose proof (Rmult_interval (255 - IZR v) (1 - A) 255 0 1 ltac:(lra)
                ltac:(lra) ltac:(lra) ltac:(lra)) as PvA'.
  destruct (mul_error (F32.of_Z v) t 7 Hvv Hvt Hfv Hft)
    as (Hvb & Hfb & Heb); [|lia|].
  { rewrite HRv, B7. fold T. apply Rabs_def1; lra. }
  rewrite HRv, E17 in Heb. fold T in Heb. apply Rabs_le_inv in Heb.
  set (b := F32.mul (F32.of_Z v) t) in *. set (Rb := F2R b) in *.
  (* the sum *)
  destruct (add_error a b 9 Hva Hvb Hfa Hfb) as (Hvc & Hfc & Hec); [|lia|].
  { rewrite B9. fold Ra Rb. apply Rabs_def1; lra. }
  rewrite E15 in Hec. fold Ra Rb in Hec. apply Rabs_le_inv in Hec.
  set (c := F32.add a b) in *. set (Rc := F2R c) in *.
  set (B := (IZR o * A + IZR v * (1 - A))%R).
  assert (0 <= B <= 255)%R as HB by (unfold B; lra).
  assert (- (/ 16384) <= Rc - B <= / 16384)%R as HcB by (unfold B; lra).
  (* clamp and round *)
  destruct (clamp_correct c Hvc Hfc)
    as (Hvy & Hfy & Hy & Hy0 & Hy255 & Hyin).
  set (cl := F32.clamp c (S754_zero false) (F32.of_Z 255)) in *.
  set (Y := F2R cl) in *. fold Rc in Hy0, Hy255, Hyin.
  assert (- (/ 16384) <= Y - B <= / 16384)%R as HYB.
  { destruct (Rle_or_lt Rc 0) as [Hneg|Hpos0].
    - rewrite (Hy0 Hneg). lra.
    - destruct (Rle_or_lt 255 Rc) as [Hbig|Hsmall].
      + rewrite (Hy255 Hbig). lra.
      + assert (0 <= Rc <= 255)%R as Hin by lra.
        rewrite (Hyin Hin). lra. }
  destruct (round_to_uint8_nearest rm cl Hrm Hfy Hy)
    as (f & Hf & Hf8 & Herr_f).
  fold Y in Herr_f. apply Rabs_le_inv in Herr_f.
  (* back *)
  destruct (of_Z_uint8_exact f Hf8) as (Hvf & Hff & HRf).
  assert (0 <= IZR f <= 255)%R as Hfr.
  { unfold is_uint8 in Hf8. split; apply IZR_le; lia. }
  destruct (sub_error (F32.of_Z f) b 9 Hvf Hvb Hff Hfb)
    as (Hvs & Hfs & Hes); [|lia|].
  { rewrite HRf, B9. fold Rb. apply Rabs_def1; lra. }
  rewrite HRf, E15 in Hes. fold Rb in Hes. apply Rabs_le_inv in Hes.
  set (s := F32.sub (F32.of_Z f) b) in *. set (S := F2R s) in *.
  assert (- (32775 / 65536) <= S - IZR o * A <= 32775 / 65536)%R as HS.
  { unfold B in *. lra. }
  assert (0 < A)%R as HApos by lra.
  assert (/ A * A = 1)%R as HIA by (apply Rinv_l; lra).
  assert (0 < / A)%R as HIApos by (apply Rinv_0_lt_compat; lra).
  assert (/ A <= 4096 / 2049)%R as HIAle.
  { apply Rmult_le_reg_r with A; [done|]. rewrite HIA. lra. }
  set (IA := (/ A)%R) in *.
  assert (S / A - IZR o = IA * (S - IZR o * A))%R as Hquot.
  { unfold Rdiv. fold IA.
    replace (IA * (S - IZR o * A))%R with (S * IA - IZR o * (IA * A))%R
      by ring.
    rewrite HIA. ring. }
  pose proof (Rmult_interval IA (S - IZR o * A) (4096 / 2049)
                (32775 / 65536) (32775 / 65536) ltac:(lra) HS ltac:(lra)
                ltac:(lra)) as PSA.
  rewrite <- Hquot in PSA.
  destruct (div_error s false ma ea 10 Hfs) as (Hvq & Hfq & Heq); [|lia|].
  { fold alpha A S. rewrite B10. apply Rabs_def1; lra. }
  fold alpha A S in Heq. rewrite E14 in Heq. apply Rabs_le_inv in Heq.
  fold alpha in Hvq, Hfq.
  set (q := F32.div s alpha) in *. set (Q := F2R q) in *.
  assert (IZR o - 1 <= Q <= IZR o + 1)%R as HQ by lra.
  destruct (clamp_correct q Hvq Hfq)
    as (Hvy' & Hfy' & Hy' & Hy0' & Hy255' & Hyin').
  set (cl' := F32.clamp q (S754_zero false) (F32.of_Z 255)) in *.
  set (Y' := F2R cl') in *. fold Q in Hy0', Hy255', Hyin'.
  assert (IZR o - 1 <= Y' <= IZR o + 1)%R as HY'.
  { destruct (Rle_or_lt Q 0) as [Hneg|Hpos0].
    - rewrite (Hy0' Hneg). lra.
    - destruct (Rle_or_lt 255 Q) as [Hbig|Hsmall].
      + rewrite (Hy255' Hbig). lra.
      + assert (0 <= Q <= 255)%R as Hin by lra.
        rewrite (Hyin' Hin). lra. }
  destruct (to_uint8_floor cl' Hfy' Hy') as (n & Hn & Hn8 & Hfloor).
  fold Y' in Hfloor.
  exists f, n. split; [done|]. split; [done|].
  unfold close_channel.
  assert (IZR n <= IZR (o + 1))%R as Hup by (rewrite plus_IZR; lra).
  assert (IZR (o - 2) < IZR n)%R as Hdown by (rewrite minus_IZR; lra).
  apply le_IZR in Hup. apply lt_IZR in Hdown. lia.
Qed.

(** ** The round trip through the forward blend *)

Section round_trip.
Context (rm : rounding) (O mask : WebPImage) (alpha : spec_float).
Context (vr vg vb : Z).
Hypothesis Hchannel : ∀ o v, is_uint8 o → is_uint8 v →
  ∃ f n,
    blend_channel rm o alpha v = Some f
    ∧ F32.to_uint8 (main.Eq f alpha v) = Some n
    ∧ close_channel n o.
Hypothesis HwfO : wf_image O.
Hypothesis Hfits : mask_fits O mask.
Hypothesis Hmasked : Forall (λ p, p ≠ BLACK) (pixels mask).
Hypothesis (Hvr : is_uint8 vr) (Hvg : is_uint8 vg) (Hvb : is_uint8 vb).

Lemma round_trip_pixel o_pix :
  pixel_ok o_pix →
  ∃ f_pix p,
    blend_pixel rm alpha vr vg vb o_pix = Some f_pix
    ∧ recover alpha vr vg vb f_pix = Some p
    ∧ close_pixel p o_pix.
Proof using Hchannel Hvr Hvg Hvb.
  intros (Hr & Hg & Hb).
  destruct (Hchannel (r o_pix) vr Hr Hvr) as (fr & nr & Hfr & Hnr & Hcr).
  destruct (Hchannel (g o_pix) vg Hg Hvg) as (fg & ng & Hfg & Hng & Hcg).
  destruct (Hchannel (b o_pix) vb Hb Hvb) as (fb & nb & Hfb & Hnb & Hcb).
  exists {| r := fr; g := fg; b := fb |}, {| r := nr; g := ng; b := nb |}.
  unfold blend_pixel, recover. rewrite Hfr, Hfg, Hfb. simpl.
  rewrite !uint8_of_int_small by done. rewrite Hnr, Hng, Hnb. simpl.
  done.
Qed.

Lemma composite_defined :
  ∃ v,
    composite rm O alpha vr vg vb = Some (with_pixels O v)
    ∧ Forall2 (λ o f, blend_pixel rm alpha vr vg vb o = Some f) (pixels O) v.
Proof using Hchannel HwfO Hvr Hvg Hvb.
  destruct HwfO as (_ & _ & Hpix).
  destruct (mapM_is_Some_2 (blend_pixel rm alpha vr vg vb) (pixels O))
    as [v Hv].
  { eapply Forall_impl; [exact Hpix|]. intros o Ho.
    destruct (round_trip_pixel o Ho) as (f & _ & Hf & _). simpl.
    by rewrite Hf. }
  exists v. unfold composite. rewrite Hv. split; [done|].
  by apply mapM_Some_1.
Qed.

Lemma cell_after_blend v c :
  Forall2 (λ o f, blend_pixel rm alpha vr vg vb o = Some f) (pixels O) v →
  in_frame (width O) (height O) c →
  ∃ o_pix p,
    pixels O !! Z.to_nat (idx O c) = Some o_pix
    ∧ cell (with_pixels O v) mask alpha vr vg vb c = Some (Some p)
    ∧ close_pixel p o_pix.
Proof using Hchannel HwfO Hfits Hmasked Hvr Hvg Hvb.
  intros Hblend Hc. destruct HwfO as (Hd & Hlen & Hpix).
  destruct (get_pixel_in_frame O mask c Hd Hfits Hc) as (cm & Hcm & Hin).
  rewrite Forall_forall in Hmasked. pose proof (Hmasked cm Hin) as Hnb.
  destruct (get_pixel_in_frame O O c Hd) as (o_pix & Ho & Hoin);
    [done|done|].
  destruct Hc as [Hx Hy].
  rewrite get_pixel_stored in Ho by (done || lia).
  destruct (Forall2_lookup_l _ _ _ _ _ Hblend Ho) as (f_pix & Hf & Hbl).
  rewrite Forall_forall in Hpix.
  destruct (round_trip_pixel o_pix (Hpix _ Hoin))
    as (f' & p & Hbl' & Hrec & Hcl).
  rewrite Hbl in Hbl'. injection Hbl' as <-.
  exists o_pix, p. split; [done|]. split; [|done].
  destruct c as [x y].
  rewrite (cell_masked (with_pixels O v) mask _ _ _ _ x y cm f_pix);
    [by rewrite Hrec|done|done|].
  rewrite (get_pixel_stored (with_pixels O v)) by (done || simpl in *; lia).
  done.
Qed.

Lemma round_trip_holds : round_trip rm O mask alpha vr vg vb.
Proof using Hchannel HwfO Hfits Hmasked Hvr Hvg Hvb.
  destruct composite_defined as (v & Hcomp & Hblend).
  pose proof (Forall2_length _ _ _ Hblend) as Hlenv.
  destruct HwfO as (Hd & Hlen & Hpix).
  assert (dims_ok (with_pixels O v)) as HdF by done.
  destruct (unblend_defined_cells (with_pixels O v) mask alpha vr vg vb)
    as [R HR]; [done|simpl; lia|..].
  { intros c Hc.
    destruct (cell_after_blend v c Hblend Hc) as (? & p & _ & -> & _). done. }
  exists (with_pixels O v), R. split; [done|]. split; [done|].
  destruct (unblend_frame _ _ _ _ _ _ _ HdF HR) as [(Hw & Hh & _) HlenR].
  simpl in Hw, Hh, HlenR.
  apply Forall2_same_length_lookup_2; [lia|].
  intros i rp op Hrp Hop.
  pose proof (lookup_lt_Some _ _ _ Hop) as Hi.
  pose proof Hd as [HW HH].
  assert (0 < width O) as Hwpos by nia.
  set (x := Z.of_nat i mod width O). set (y := Z.of_nat i / width O).
  assert (0 ≤ x < width O) as Hx by (apply Z.mod_pos_bound; lia).
  assert (Z.of_nat i = y * width O + x) as Hixy.
  { unfold x, y. rewrite Z.mul_comm. apply Z.div_mod. lia. }
  assert (0 ≤ y < height O) as Hy.
  { split; [apply Z.div_pos; lia|]. apply Z.div_lt_upper_bound; lia. }
  assert (Z.to_nat (idx O (x, y)) = i) as Hidx by (unfold idx; simpl; lia).
  destruct (cell_after_blend v (x, y) Hblend) as (o' & p & Ho' & Hcell & Hcl);
    [done|].
  rewrite Hidx, Hop in Ho'. injection Ho' as <-.
  destruct (unblend_pointwise _ _ _ _ _ _ _ x y HdF HR) as (o & Hcell' & Hget);
    [done..|].
  rewrite Hcell in Hcell'. injection Hcell' as <-. simpl in Hget.
  assert (dims_ok R) as HdR by (unfold dims_ok; by rewrite Hw, Hh).
  rewrite get_pixel_stored in Hget by (done || lia).
  rewrite Hw in Hget. change (y * width O + x) with (idx O (x, y)) in Hget.
  rewrite Hidx, Hrp in Hget. by injection Hget as <-.
Qed.

End round_trip.

Lemma round_trip_channel rm alpha o v :
  rm ≠ TowardZero → alpha = half ∨ above_half alpha →
  is_uint8 o → is_uint8 v →
  ∃ f n,
    blend_channel rm o alpha v = Some f
    ∧ F32.to_uint8 (main.Eq f alpha v) = Some n
    ∧ close_channel n o.
Proof.
  intros Hrm [->|Ha] Ho Hv.
  - change half with (eighths 4).
    apply round_trip_channel_eighths; (done || lia).
  - by apply round_trip_channel_above_half.
Qed.

(** C3, as the code allows it. When the forward blend rounds to nearest
    (ties to even or away from zero) and [alpha] is 1/2 or a binary32
    number from 1/2 + 2^-12 to 1, blending a well-formed picture with an
    overlay colour and unblending the result under a mask of the same size
    without black pixels returns a buffer within 1 of the picture in every
    channel of every pixel. *)
Theorem round_trip_from_half rm O mask alpha vr vg vb :
  rm ≠ TowardZero → alpha = half ∨ above_half alpha →
  wf_image O → mask_fits O mask →
  Forall (λ p, p ≠ BLACK) (pixels mask) →
  is_uint8 vr → is_uint8 vg → is_uint8 vb →
  round_trip rm O mask alpha vr vg vb.
Proof.
  intros Hrm Ha HwfO Hfits Hmasked Hvr Hvg Hvb.
  apply round_trip_holds; try done.
  intros o v Ho Hv. by apply round_trip_channel.
Qed.

Lemma round_trip_from_half_witness :
  round_trip ToNearestEven sample_image sample_white_mask
    (F32.of_dyadic 11744051 (-24)) 255 255 255.
Proof.
  apply (round_trip_from_half ToNearestEven sample_image
           sample_white_mask (F32.of_dyadic 11744051 (-24)) 255 255 255).
  - discriminate.
  - right. by vm_compute.
  - apply wf_sample_image.
  - unfold mask_fits. simpl. lia.
  - simpl. repeat constructor; discriminate.
  - unfold is_uint8; lia.
  - unfold is_uint8; lia.
  - unfold is_uint8; lia.
Defined.

(** C3 fails as stated: at [alpha = 1/8] the original (2,2,2) blended with
    the overlay (0,0,0) is 0.25, which every rounding rule stores as 0, and
    unblending 0 gives 0, which is 2 away from the original. *)
Lemma round_trip_fails_at_one_eighth :
  ¬ round_trip ToNearestEven (one_pixel (grey 2)) (one_pixel WHITE)
      (eighths 1) 0 0 0
  ∧ ¬ round_trip ToNearestAway (one_pixel (grey 2)) (one_pixel WHITE)
        (eighths 1) 0 0 0
  ∧ ¬ round_trip TowardZero (one_pixel (grey 2)) (one_pixel WHITE)
        (eighths 1) 0 0 0.
Proof.
  split; [|split]; intros (F & R & HF & HR & Hcl);
    vm_compute in HF; injection HF as <-;
    vm_compute in HR; injection HR as <-;
    apply Forall2_cons_1 in Hcl as [(Hc & _) _];
    unfold close_channel in Hc; simpl in Hc; lia.
Qed.

(** The bound on [alpha] and the rounding rule both matter: a forward blend
    that rounds to nearest is already 2 off at [alpha = 1/4], and one that
    truncates is 2 off at [alpha = 5/8]. *)
Lemma round_trip_limits :
  ¬ round_trip ToNearestEven (one_pixel (grey 0)) (one_pixel WHITE)
      (eighths 2) 2 2 2
  ∧ ¬ round_trip TowardZero (one_pixel (grey 2)) (one_pixel WHITE)
        (eighths 5) 4 4 4.
Proof.
  split; intros (F & R & HF & HR & Hcl);
    vm_compute in HF; injection HF as <-;
    vm_compute in HR; injection HR as <-;
    apply Forall2_cons_1 in Hcl as [(Hc & _) _];
    unfold close_channel in Hc; simpl in Hc; lia.
Qed.

(** Below 1/2 the round trip is lost at most blend factors, whichever way
    the forward blend rounds to nearest: at the binary32 numbers nearest to
    0.3, 0.4, 0.45 and 0.49 the picture value 2 comes back as 0. *)
Lemma round_trip_fails_below_half :
  (∀ rm, ¬ round_trip rm (one_pixel (grey 2)) (one_pixel WHITE)
             (F32.of_dyadic 10066330 (-25)) 4 4 4)
  ∧ (∀ rm, ¬ round_trip rm (one_pixel (grey 2)) (one_pixel WHITE)
               (F32.of_dyadic 13421773 (-25)) 1 1 1)
  ∧ (∀ rm, ¬ round_trip rm (one_pixel (grey 2)) (one_pixel WHITE)
               (F32.of_dyadic 15099494 (-25)) 21 21 21)
  ∧ ¬ round_trip ToNearestEven (one_pixel (grey 2)) (one_pixel WHITE)
        (F32.of_dyadic 16441672 (-25)) 152 152 152.
Proof.
  split; [intros []|split; [intros []|split; [intros []|]]];
    intros (F & R & HF & HR & Hcl);
    vm_compute in HF; injection HF as <-;
    vm_compute in HR; injection HR as <-;
    apply Forall2_cons_1 in Hcl as [(Hc & _) _];
    unfold close_channel in Hc; simpl in Hc; lia.
Qed.

(** The lower limit is close to what the code gives: between 1/2 and
    1/2 + 2^-12 the truncation of the inverse can lose a second unit, as
    at [alpha = 1/2 + 2^-24] (picture 8, overlay 5) and at
    [alpha = 1/2 + 84 * 2^-24] (picture 144, overlay 141). *)
Lemma round_trip_fails_just_above_half :
  ¬ round_trip ToNearestEven (one_pixel (grey 8)) (one_pixel WHITE)
      (F32.of_dyadic 8388609 (-24)) 5 5 5
  ∧ ¬ round_trip ToNearestEven (one_pixel (grey 144)) (one_pixel WHITE)
        (F32.of_dyadic 8388692 (-24)) 141 141 141.
Proof.
  split; intros (F & R & HF & HR & Hcl);
    vm_compute in HF; injection HF as <-;
    vm_compute in HR; injection HR as <-;
    apply Forall2_cons_1 in Hcl as [(Hc & _) _];
    unfold close_channel in Hc; simpl in Hc; lia.
Qed.

(** ** More on the accessors *)

Lemma set_pixel_cases img x y p img' :
  set_pixel img x y p = Some img' →
  img' = img
  ∨ (pixel_index img x y < Z.of_nat (length (pixels img))
     ∧ img' = with_pixels img
                (<[Z.to_nat (pixel_index img x y) := p]> (pixels img))).
Proof.
  unfold set_pixel, vector_store. intros Hs.
  repeat case_bool_decide; simplify_option_eq; auto.
Qed.

Lemma index_nonneg img x y :
  dims_ok img → 0 ≤ x → 0 ≤ y → 0 ≤ y * width img + x.
Proof. intros [[Hw _] _] Hx Hy. nia. Qed.

(** X1. Reading a cell back after [set_pixel] returned: inside the guards
    [get_pixel] at the same coordinates gives the pixel that was written;
    outside them nothing was written and it gives the zero pixel. *)
Theorem set_pixel_then_get img x y p img' :
  dims_ok img → is_size_t x → is_size_t y →
  set_pixel img x y p = Some img' →
  (¬ (x > width img ∨ y > height img) → get_pixel img' x y = Some p)
  ∧ ((x > width img ∨ y > height img) →
     img' = img ∧ get_pixel img' x y = Some default_pixel).
Proof.
  intros Hd [Hx _] [Hy _] Hset.
  pose proof (index_nonneg img x y Hd Hx Hy) as Hi. split.
  - intros Hin. rewrite set_pixel_stored in Hset by (done || lia).
    unfold vector_store in Hset. case_bool_decide; simplify_option_eq.
    rewrite (get_pixel_stored (with_pixels img _)) by (done || simpl; lia).
    simpl. apply list_lookup_insert_eq. lia.
  - intros Hout. rewrite set_pixel_guarded in Hset by done.
    simplify_eq. split; [done|]. by apply get_pixel_guarded.
Qed.

Lemma set_pixel_then_get_witness :
  (¬ (1 > width sample_image ∨ 0 > height sample_image) →
     get_pixel
       (with_pixels sample_image [grey 200; WHITE; grey 250; grey 128]) 1 0
     = Some WHITE)
  ∧ ((1 > width sample_image ∨ 0 > height sample_image) →
     with_pixels sample_image [grey 200; WHITE; grey 250; grey 128]
     = sample_image
     ∧ get_pixel
         (with_pixels sample_image [grey 200; WHITE; grey 250; grey 128]) 1 0
       = Some default_pixel).
Proof.
  apply (set_pixel_then_get sample_image 1 0 WHITE).
  - unfold dims_ok, int_max. simpl. lia.
  - unfold is_size_t, size_t_modulus. lia.
  - unfold is_size_t, size_t_modulus. lia.
  - reflexivity.
Defined.

(** X2. [set_pixel] changes one cell: [get_pixel] at coordinates with
    another index [y' * width + x'] reads as before the write. *)
Theorem set_pixel_other_cells img x y p img' x' y' :
  dims_ok img → is_size_t x → is_size_t y → is_size_t x' → is_size_t y' →
  set_pixel img x y p = Some img' →
  y' * width img + x' ≠ y * width img + x →
  get_pixel img' x' y' = get_pixel img x' y'.
Proof.
  intros Hd [Hx _] [Hy _] [Hx' _] [Hy' _] Hset Hne.
  pose proof (index_nonneg img x y Hd Hx Hy) as Hi.
  pose proof (index_nonneg img x' y' Hd Hx' Hy') as Hi'.
  destruct (decide (x > width img ∨ y > height img)) as [Hout|Hin].
  { rewrite set_pixel_guarded in Hset by done. by simplify_eq. }
  rewrite set_pixel_stored in Hset by (done || lia).
  unfold vector_store in Hset. case_bool_decide; simplify_option_eq.
  destruct (decide (x' > width img ∨ y' > height img)) as [Hout'|Hin'].
  { rewrite !get_pixel_guarded; done. }
  rewrite (get_pixel_stored (with_pixels img _)) by (done || simpl; lia).
  rewrite (get_pixel_stored img) by (done || lia).
  simpl. apply list_lookup_insert_ne. lia.
Qed.

Lemma set_pixel_other_cells_witness :
  get_pixel (with_pixels sample_image [grey 200; WHITE; grey 250; grey 128])
    0 1
  = get_pixel sample_image 0 1.
Proof.
  apply (set_pixel_other_cells sample_image 1 0 WHITE _ 0 1).
  - unfold dims_ok, int_max. simpl. lia.
  - unfold is_size_t, size_t_modulus. lia.
  - unfold is_size_t, size_t_modulus. lia.
  - unfold is_size_t, size_t_modulus. lia.
  - unfold is_size_t, size_t_modulus. lia.
  - reflexivity.
  - simpl. lia.
Defined.

(** X3. The guards let [x = width] through, and that column of row [y] is
    the first cell of row [y + 1]: a read there returns the pixel at
    [(0, y + 1)] and a write there is read back at [(0, y + 1)]. *)
Theorem column_width_is_next_row img y :
  dims_ok img → 0 ≤ y → y + 1 ≤ height img →
  get_pixel img (width img) y = get_pixel img 0 (y + 1)
  ∧ (∀ p img', set_pixel img (width img) y p = Some img' →
       get_pixel img' 0 (y + 1) = Some p).
Proof.
  intros Hd Hy Hy1. pose proof Hd as [[Hw _] _].
  assert (0 ≤ y * width img + width img) as Hi by nia.
  split.
  - rewrite !get_pixel_stored by (done || lia). f_equal. f_equal. lia.
  - intros p img' Hset. rewrite set_pixel_stored in Hset by (done || lia).
    unfold vector_store in Hset. case_bool_decide; simplify_option_eq.
    rewrite (get_pixel_stored (with_pixels img _)) by (done || simpl; lia).
    simpl. replace ((y + 1) * width img + 0) with (y * width img + width img)
      by lia.
    apply list_lookup_insert_eq. lia.
Qed.

Lemma column_width_is_next_row_witness :
  get_pixel sample_image (width sample_image) 0 = get_pixel sample_image 0 (0 + 1)
  ∧ (∀ p img', set_pixel sample_image (width sample_image) 0 p = Some img' →
       get_pixel img' 0 (0 + 1) = Some p).
Proof.
  apply (column_width_is_next_row sample_image 0).
  - unfold dims_ok, int_max. simpl. lia.
  - lia.
  - simpl. lia.
Defined.

(** X4. On a well-formed image whose width is not zero the accessors leave
    the pixel vector in exactly two cases, both inside the guards: the row
    [y = height], and the cell [(width, height - 1)]. *)
Theorem accessors_out_of_bounds img x y :
  wf_image img → 0 < width img → is_size_t x → is_size_t y →
  (get_pixel img x y = None
   ↔ (x ≤ width img ∧ y = height img)
     ∨ (x = width img ∧ y = height img - 1))
  ∧ (∀ p, set_pixel img x y p = None ↔ get_pixel img x y = None).
Proof.
  intros (Hd & Hlen & _) Hw [Hx _] [Hy _].
  pose proof (index_nonneg img x y Hd Hx Hy) as Hi.
  pose proof Hd as [_ [Hh _]].
  destruct (decide (x > width img ∨ y > height img)) as [Hout|Hin].
  { rewrite get_pixel_guarded by done. split.
    - split; [done|]. lia.
    - intros p. by rewrite set_pixel_guarded. }
  rewrite get_pixel_stored by (done || lia). split.
  - rewrite lookup_ge_None. split.
    + intros Hge.
      assert (width img * height img ≤ y * width img + x) as Hge' by lia.
      destruct (decide (y = height img)) as [->|Hy']; [left; lia|].
      right. assert (y = height img - 1) as -> by nia. split; [nia|done].
    + intros [[Hxw ->]|[-> ->]]; nia.
  - intros p. rewrite set_pixel_stored by (done || lia).
    unfold vector_store. rewrite lookup_ge_None.
    case_bool_decide; simpl; split; intros; done || lia.
Qed.

Lemma accessors_out_of_bounds_witness :
  (get_pixel sample_image 2 1 = None
   ↔ (2 ≤ width sample_image ∧ 1 = height sample_image)
     ∨ (2 = width sample_image ∧ 1 = height sample_image - 1))
  ∧ (∀ p, set_pixel sample_image 2 1 p = None
          ↔ get_pixel sample_image 2 1 = None).
Proof.
  apply (accessors_out_of_bounds sample_image 2 1).
  - apply wf_sample_image.
  - simpl. lia.
  - unfold is_size_t, size_t_modulus. lia.
  - unfold is_size_t, size_t_modulus. lia.
Defined.

(** X5. [set_pixel] assigns nothing but one element of [pixels]: the
    dimensions, the encoded data and the number of pixels stay, and a
    well-formed image stays well-formed when the pixel written is made of
    [uint8_t] channels. *)
Theorem set_pixel_keeps_shape img x y p img' :
  set_pixel img x y p = Some img' →
  same_frame img img'
  ∧ length (pixels img') = length (pixels img)
  ∧ (wf_image img → pixel_ok p → wf_image img').
Proof.
  intros Hset.
  destruct (set_pixel_cases _ _ _ _ _ Hset) as [->|[Hlt ->]]; [done|].
  split; [done|]. split; [apply length_insert|].
  intros (Hd & Hlen & Hall) Hp. split; [done|]. simpl.
  split; [by rewrite length_insert|]. by apply Forall_insert.
Qed.

Lemma set_pixel_keeps_shape_witness :
  same_frame sample_image
    (with_pixels sample_image [grey 200; WHITE; grey 250; grey 128])
  ∧ length [grey 200; WHITE; grey 250; grey 128]
    = length (pixels sample_image)
  ∧ (wf_image sample_image → pixel_ok WHITE →
     wf_image
       (with_pixels sample_image [grey 200; WHITE; grey 250; grey 128])).
Proof.
  apply (set_pixel_keeps_shape sample_image 1 0 WHITE). reflexivity.
Defined.

Lemma set_pixel_unfold img x y p :
  dims_ok img → 0 ≤ x → 0 ≤ y →
  set_pixel img x y p =
    if bool_decide (x > width img ∨ y > height img) then Some img
    else if bool_decide (y * width img + x < Z.of_nat (length (pixels img)))
    then Some (with_pixels img
                 (<[Z.to_nat (y * width img + x) := p]> (pixels img)))
    else None.
Proof.
  intros Hd Hx Hy. case_bool_decide as Hg.
  - by apply set_pixel_guarded.
  - rewrite set_pixel_stored by (done || lia). unfold vector_store.
    by case_bool_decide.
Qed.

(** X6. Two writes in a row: on the same cell the second one wins, on
    different cells their order does not matter. *)
Theorem set_pixel_twice img x y p q img1 :
  dims_ok img → is_size_t x → is_size_t y →
  set_pixel img x y p = Some img1 →
  set_pixel img1 x y q = set_pixel img x y q
  ∧ (∀ x' y', is_size_t x' → is_size_t y' →
       y' * width img + x' ≠ y * width img + x →
       set_pixel img1 x' y' q
       = (img2 ← set_pixel img x' y' q; set_pixel img2 x y p)).
Proof.
  intros Hd [Hx _] [Hy _] Hset.
  pose proof (index_nonneg img x y Hd Hx Hy) as Hi.
  rewrite set_pixel_unfold in Hset by done.
  case_bool_decide as Hg.
  { simplify_eq. split; [done|]. intros x' y' [Hx' _] [Hy' _] _.
    destruct (set_pixel img1 x' y' q) as [img2|] eqn:Hq; simpl; [|done].
    destruct (set_pixel_cases _ _ _ _ _ Hq) as [->|[_ ->]];
      symmetry; by apply set_pixel_guarded. }
  case_bool_decide as Hlen; simplify_eq.
  assert (dims_ok (with_pixels img (<[Z.to_nat (y * width img + x) := p]>
                                      (pixels img)))) as Hd1 by done.
  split.
  - rewrite !set_pixel_unfold by done. simpl.
    rewrite length_insert, list_insert_insert_eq.
    repeat case_bool_decide; done.
  - intros x' y' [Hx' _] [Hy' _] Hne.
    pose proof (index_nonneg img x' y' Hd Hx' Hy') as Hi'.
    rewrite (set_pixel_unfold (with_pixels _ _)) by done.
    rewrite (set_pixel_unfold img x' y') by done. simpl.
    rewrite length_insert.
    case_bool_decide as Hg'; simpl.
    { rewrite set_pixel_unfold by done.
      rewrite bool_decide_false, bool_decide_true by done. done. }
    case_bool_decide as Hlen'; simpl; [|done].
    rewrite (set_pixel_unfold (with_pixels _ _)) by done. simpl.
    rewrite length_insert.
    rewrite bool_decide_false, bool_decide_true by done.
    unfold with_pixels. simpl. do 2 f_equal.
    apply list_insert_insert_ne. lia.
Qed.

Lemma set_pixel_twice_witness :
  set_pixel (with_pixels sample_image [grey 200; WHITE; grey 250; grey 128])
    1 0 BLACK
  = set_pixel sample_image 1 0 BLACK
  ∧ (∀ x' y', is_size_t x' → is_size_t y' →
       y' * width sample_image + x' ≠ 0 * width sample_image + 1 →
       set_pixel
         (with_pixels sample_image [grey 200; WHITE; grey 250; grey 128])
         x' y' BLACK
       = (img2 ← set_pixel sample_image x' y' BLACK;
          set_pixel img2 1 0 WHITE)).
Proof.
  apply (set_pixel_twice sample_image 1 0 WHITE BLACK).
  - unfold dims_ok, int_max. simpl. lia.
  - unfold is_size_t, size_t_modulus. lia.
  - unfold is_size_t, size_t_modulus. lia.
  - reflexivity.
Defined.

(** ** More on the unblend pass *)

Lemma to_uint8_range f n : F32.to_uint8 f = Some n → is_uint8 n.
Proof.
  unfold F32.to_uint8. intros Hn.
  destruct (F32.truncate f) as [z|]; simpl in Hn; [|done].
  case_bool_decide; by simplify_eq.
Qed.

Lemma recover_pixel_ok alpha ovr ovg ovb c_f p :
  recover alpha ovr ovg ovb c_f = Some p → pixel_ok p.
Proof.
  unfold recover. intros Hrec.
  destruct (F32.to_uint8 (main.Eq (r c_f) _ _)) as [cr|] eqn:Her;
    simpl in Hrec; [|done].
  destruct (F32.to_uint8 (main.Eq (g c_f) _ _)) as [cg|] eqn:Heg;
    simpl in Hrec; [|done].
  destruct (F32.to_uint8 (main.Eq (b c_f) _ _)) as [cb|] eqn:Heb;
    simpl in Hrec; [|done].
  simplify_eq. unfold pixel_ok. simpl.
  split; [|split]; by eapply to_uint8_range.
Qed.

Lemma cell_pixel_ok image mask alpha ovr ovg ovb c p :
  cell image mask alpha ovr ovg ovb c = Some (Some p) → pixel_ok p.
Proof.
  unfold cell. intros Hcell.
  destruct (get_pixel mask c.1 c.2) as [cm|]; simpl in Hcell; [|done].
  case_bool_decide; [done|].
  destruct (get_pixel image c.1 c.2) as [cf|]; simpl in Hcell; [|done].
  destruct (recover alpha ovr ovg ovb cf) as [p'|] eqn:Hrec;
    simpl in Hcell; [|done].
  simplify_eq. by eapply recover_pixel_ok.
Qed.

Lemma run_pixels_ok image mask alpha ovr ovg ovb l :
  dims_ok image →
  ∀ rec rec',
    Forall (in_frame (width image) (height image)) l →
    same_frame image rec →
    for_each (λ c, main.body image mask alpha ovr ovg ovb c.1 c.2) l rec
    = Some rec' →
    Forall pixel_ok (pixels rec) → Forall pixel_ok (pixels rec').
Proof.
  intros Hd. induction l as [|c l IH]; intros rec rec' Hl Hf Hrun Hok;
    simpl in Hrun.
  - by simplify_eq.
  - apply Forall_cons in Hl as [Hc Hl].
    rewrite (body_cell image mask alpha ovr ovg ovb Hd c rec Hc Hf) in Hrun.
    destruct (cell image mask alpha ovr ovg ovb c) as [o|] eqn:Hcell;
      simpl in Hrun; [|done].
    destruct (store_cell rec (idx image c) o) as [rec1|] eqn:Hst;
      simpl in Hrun; [|done].
    destruct (store_cell_frame image _ _ _ _ Hst Hf) as [Hf1 _].
    apply (IH rec1 rec' Hl Hf1 Hrun).
    destruct o as [p|]; simpl in Hst; [|by simplify_eq].
    unfold vector_store in Hst. case_bool_decide; simplify_option_eq.
    apply Forall_insert; [done|]. by eapply cell_pixel_ok.
Qed.

Lemma unblend_wf image mask alpha ovr ovg ovb rec :
  wf_image image →
  main.unblend image mask alpha ovr ovg ovb = Some rec →
  wf_image rec.
Proof.
  intros (Hd & Hlen & Hok) Hrun.
  destruct (unblend_frame _ _ _ _ _ _ _ Hd Hrun) as [(Hw & Hh & _) Hlen'].
  split; [|split].
  - unfold dims_ok. by rewrite Hw, Hh.
  - by rewrite Hlen', Hw, Hh.
  - rewrite unblend_flat in Hrun.
    apply (run_pixels_ok image mask alpha ovr ovg ovb
             (coords (width image) (height image)) Hd image rec);
      [|done..].
    apply Forall_forall. intros c. by rewrite elem_of_coords.
Qed.

(** X7. The pass keeps the invariant of a decoded image: the buffer it
    returns has the dimensions, the encoded data and the number of pixels
    of the composite, and every channel it holds is a [uint8_t]. *)
Theorem unblend_keeps_well_formed image mask alpha ovr ovg ovb rec :
  wf_image image →
  main.unblend image mask alpha ovr ovg ovb = Some rec →
  wf_image rec ∧ same_frame image rec.
Proof.
  intros Hwf Hrun. split; [by eapply unblend_wf|].
  destruct Hwf as (Hd & _ & _).
  by destruct (unblend_frame _ _ _ _ _ _ _ Hd Hrun).
Qed.

Lemma unblend_keeps_well_formed_witness :
  wf_image
    (with_pixels sample_image [grey 145; grey 10; grey 250; grey 1])
  ∧ same_frame sample_image
      (with_pixels sample_image [grey 145; grey 10; grey 250; grey 1]).
Proof.
  apply (unblend_keeps_well_formed sample_image sample_mask half 255 255 255).
  - apply wf_sample_image.
  - by vm_compute.
Defined.

Lemma for_each_skip {A S} (f : A → S → option S) l s :
  (∀ a s', a ∈ l → f a s' = Some s') → for_each f l s = Some s.
Proof.
  induction l as [|a l IH]; intros Hf; simpl; [done|].
  rewrite Hf by left. simpl. apply IH. intros a' s' Ha'. apply Hf. by right.
Qed.

Lemma seqZ_empty m n : n ≤ 0 → seqZ m n = [].
Proof.
  intros Hn. unfold seqZ. by replace (Z.to_nat n) with 0%nat by lia.
Qed.

(** X8. An image without pixels to visit, because its width or its height
    is zero or negative, comes back as it is: the loops do not run, so the
    mask is not read and [alpha] is not used. *)
Theorem unblend_empty_image image mask alpha ovr ovg ovb :
  width image ≤ 0 ∨ height image ≤ 0 →
  main.unblend image mask alpha ovr ovg ovb = Some image.
Proof.
  intros [Hw|Hh]; unfold main.unblend.
  - apply for_each_skip. intros y rec _. unfold main.row.
    by rewrite seqZ_empty.
  - by rewrite seqZ_empty.
Qed.

Lemma unblend_empty_image_witness :
  main.unblend empty_image sample_mask S754_nan 255 255 255
  = Some empty_image.
Proof.
  apply (unblend_empty_image empty_image sample_mask S754_nan 255 255 255).
  left. simpl. lia.
Defined.

Lemma unblend_undefined_cell image mask alpha ovr ovg ovb c :
  dims_ok image → in_frame (width image) (height image) c →
  cell image mask alpha ovr ovg ovb c = None →
  main.unblend image mask alpha ovr ovg ovb = None.
Proof.
  intros Hd Hc Hcell.
  destruct (main.unblend image mask alpha ovr ovg ovb) as [rec|] eqn:Hrun;
    [|done].
  rewrite unblend_flat in Hrun.
  assert (is_Some (cell image mask alpha ovr ovg ovb c)) as [o Ho].
  { eapply (run_cells_defined image mask alpha ovr ovg ovb Hd
              (coords (width image) (height image)) image rec c);
      [|done|done|by apply elem_of_coords].
    apply Forall_forall. intros c'. by rewrite elem_of_coords. }
  congruence.
Qed.

(** X9. The size of the mask is not checked against the image. A
    well-formed mask that is lower than the image, or as high and narrower,
    makes the pass read [mask.pixels] one element after its end, at the
    first pixel visited below or beside the mask: the behaviour is
    undefined. *)
Theorem unblend_small_mask_undefined image mask alpha ovr ovg ovb :
  dims_ok image → wf_image mask →
  0 < width image → 0 < height image →
  height mask < height image
  ∨ (height mask = height image ∧ width mask < width image) →
  main.unblend image mask alpha ovr ovg ovb = None.
Proof.
  intros Hd (Hdm & Hlen & _) Hw Hh Hsmall.
  pose proof Hdm as [[Hmw _] [Hmh _]].
  assert (∃ c, in_frame (width image) (height image) c
               ∧ 0 ≤ c.1 ≤ width mask ∧ 0 ≤ c.2 ≤ height mask
               ∧ width mask * height mask ≤ c.2 * width mask + c.1)
    as (c & Hc & Hx & Hy & Hout).
  { destruct Hsmall as [Hlow|[Heq Hnarrow]].
    - exists (0, height mask). unfold in_frame. simpl. lia.
    - exists (width mask, height mask - 1). unfold in_frame. simpl.
      split; [lia|]. split; [lia|]. split; [lia|]. nia. }
  apply (unblend_undefined_cell _ _ _ _ _ _ c Hd Hc).
  unfold cell. rewrite (get_pixel_stored mask c.1 c.2 Hdm Hx Hy).
  rewrite (proj2 (lookup_ge_None (pixels mask)
                    (Z.to_nat (c.2 * width mask + c.1)))) by lia.
  done.
Qed.

Lemma unblend_small_mask_undefined_witness :
  main.unblend sample_image (one_pixel WHITE) half 255 255 255 = None.
Proof.
  apply (unblend_small_mask_undefined sample_image (one_pixel WHITE)).
  - unfold dims_ok, int_max. simpl. lia.
  - unfold wf_image, dims_ok, int_max. simpl.
    split; [lia|]. split; [done|]. repeat constructor; simpl; lia.
  - simpl. lia.
  - simpl. lia.
  - left. simpl. lia.
Defined.

(** X10. Beyond the guards of the mask, that is at a column after
    [mask.width] or a row after [mask.height], the mask reads as black:
    when the pass returns, such a pixel of the image is unchanged. *)
Theorem unblend_beyond_mask image mask alpha ovr ovg ovb rec x y :
  dims_ok image → dims_ok mask →
  main.unblend image mask alpha ovr ovg ovb = Some rec →
  0 ≤ x < width image → 0 ≤ y < height image →
  x > width mask ∨ y > height mask →
  get_pixel rec x y = get_pixel image x y.
Proof.
  intros Hd Hdm Hrun Hx Hy Hout.
  destruct (unblend_pointwise _ _ _ _ _ _ _ x y Hd Hrun Hx Hy)
    as (o & Hcell & Hget).
  unfold cell in Hcell. cbn [fst snd] in Hcell.
  rewrite (get_pixel_guarded mask x y Hdm Hout) in Hcell.
  simpl in Hcell. by simplify_eq.
Qed.

Lemma unblend_beyond_mask_witness :
  get_pixel (with_pixels wide_image [grey 145; grey 10; grey 250]) 2 0
  = get_pixel wide_image 2 0.
Proof.
  apply (unblend_beyond_mask wide_image narrow_mask half 255 255 255).
  - unfold dims_ok, int_max. simpl. lia.
  - unfold dims_ok, int_max. simpl. lia.
  - by vm_compute.
  - simpl. lia.
  - simpl. lia.
  - left. simpl. lia.
Defined.

Lemma mask_pixel_readable image mask c :
  dims_ok image → wf_image mask →
  (height mask = height image ∧ width image ≤ width mask)
  ∨ (height image < height mask ∧ 0 < width mask) →
  in_frame (width image) (height image) c →
  is_Some (get_pixel mask c.1 c.2).
Proof.
  intros Hd (Hdm & Hlen & _) Hsize [Hx Hy].
  destruct (decide (c.1 > width mask ∨ c.2 > height mask)) as [Hout|Hin].
  { by rewrite get_pixel_guarded. }
  rewrite get_pixel_stored by (done || lia).
  apply lookup_lt_is_Some_2.
  pose proof Hdm as [[Hmw _] _].
  assert (0 ≤ c.2 * width mask + c.1) by nia.
  assert (c.2 * width mask + c.1 < width mask * height mask); [|lia].
  destruct Hsize as [[Hh Hw]|[Hh Hw]]; nia.
Qed.

(** X11. Which mask sizes are safe.  For an image with pixels, a
    well-formed mask and a binary32 [alpha] in (0, 1], the pass returns a
    buffer exactly when the mask has the height of the image and at least
    its width, or is higher than the image and not of width zero; with any
    other size one of the reads of the mask is outside [mask.pixels]. *)
Theorem unblend_defined_iff_mask_covers image mask alpha ovr ovg ovb :
  wf_image image → wf_image mask →
  0 < width image → 0 < height image →
  in_unit_interval alpha →
  is_Some (main.unblend image mask alpha ovr ovg ovb)
  ↔ (height mask = height image ∧ width image ≤ width mask)
    ∨ (height image < height mask ∧ 0 < width mask).
Proof.
  intros Hwf Hwfm Hw Hh Ha. pose proof Hwf as (Hd & Hlen & Hpix).
  pose proof Hwfm as (Hdm & Hlenm & _).
  pose proof Hdm as [[Hmw _] [Hmh _]]. split.
  - intros [rec Hrun].
    destruct (decide ((height mask = height image
                       ∧ width image ≤ width mask)
                      ∨ (height image < height mask ∧ 0 < width mask)))
      as [|Hbad]; [done|].
    assert (∃ c, in_frame (width image) (height image) c
                 ∧ 0 ≤ c.1 ≤ width mask ∧ 0 ≤ c.2 ≤ height mask
                 ∧ width mask * height mask ≤ c.2 * width mask + c.1)
      as (c & Hc & Hx & Hy & Hout).
    { destruct (Z.lt_trichotomy (height mask) (height image))
        as [Hlow|[Heq|Hhigh]].
      - exists (0, height mask). unfold in_frame. simpl. lia.
      - exists (width mask, height mask - 1). unfold in_frame. simpl.
        split; [lia|]. split; [lia|]. split; [lia|]. nia.
      - exists (0, 0). unfold in_frame. simpl.
        assert (width mask = 0) as -> by lia. lia. }
    rewrite (unblend_undefined_cell _ _ _ _ _ _ c Hd Hc) in Hrun; [done|].
    unfold cell. rewrite (get_pixel_stored mask c.1 c.2 Hdm Hx Hy).
    rewrite (proj2 (lookup_ge_None (pixels mask)
                      (Z.to_nat (c.2 * width mask + c.1)))) by lia.
    done.
  - intros Hsize. rewrite unblend_flat.
    apply run_defined; [done| |done|done|].
    { apply Forall_forall. intros c. by rewrite elem_of_coords. }
    intros c Hc. apply elem_of_coords in Hc. unfold cell.
    destruct (mask_pixel_readable image mask c Hd Hwfm Hsize Hc) as [cm ->].
    simpl. case_bool_decide; [done|].
    destruct (get_pixel_in_frame image image c Hd) as (cf & -> & Hcf);
      [done|done|].
    rewrite Forall_forall in Hpix. destruct (Hpix _ Hcf) as (Hr & Hg & Hb).
    assert (∀ v, is_uint8 (uint8_of_int v)) as Hov.
    { intros v. unfold is_uint8, uint8_of_int.
      pose proof (Z.mod_pos_bound v 256). lia. }
    pose proof (narrowing_defined_unit alpha Ha) as Hnarrow.
    simpl. unfold recover.
    destruct (Hnarrow (r cf) (uint8_of_int ovr)) as [cr ->]; [done..|].
    destruct (Hnarrow (g cf) (uint8_of_int ovg)) as [cg ->]; [done..|].
    destruct (Hnarrow (b cf) (uint8_of_int ovb)) as [cb ->]; [done..|].
    done.
Qed.

Lemma unblend_defined_iff_mask_covers_witness :
  is_Some (main.unblend wide_image narrow_mask half 255 255 255)
  ↔ (height narrow_mask = height wide_image
     ∧ width wide_image ≤ width narrow_mask)
    ∨ (height wide_image < height narrow_mask ∧ 0 < width narrow_mask).
Proof.
  apply (unblend_defined_iff_mask_covers wide_image narrow_mask half
           255 255 255).
  - unfold wf_image, dims_ok, int_max. simpl.
    split; [lia|]. split; [done|]. repeat constructor; simpl; lia.
  - unfold wf_image, dims_ok, int_max. simpl.
    split; [lia|]. split; [done|]. repeat constructor; simpl; lia.
  - simpl. lia.
  - simpl. lia.
  - by vm_compute.
Defined.

Lemma run_same_cells image mask mask' alpha ovr ovg ovb l :
  dims_ok image →
  ∀ rec,
    Forall (in_frame (width image) (height image)) l →
    same_frame image rec →
    (∀ c, c ∈ l →
       cell image mask alpha ovr ovg ovb c
       = cell image mask' alpha ovr ovg ovb c) →
    for_each (λ c, main.body image mask alpha ovr ovg ovb c.1 c.2) l rec
    = for_each (λ c, main.body image mask' alpha ovr ovg ovb c.1 c.2) l rec.
Proof.
  intros Hd. induction l as [|c l IH]; intros rec Hl Hf Hcells; simpl;
    [done|].
  apply Forall_cons in Hl as [Hc Hl].
  rewrite (body_cell image mask alpha ovr ovg ovb Hd c rec Hc Hf).
  rewrite (body_cell image mask' alpha ovr ovg ovb Hd c rec Hc Hf).
  rewrite <- (Hcells c) by left.
  destruct (cell image mask alpha ovr ovg ovb c) as [o|]; [|done].
  cbn [mbind option_bind].
  destruct (store_cell rec (idx image c) o) as [rec1|] eqn:Hst; [|done].
  destruct (store_cell_frame image _ _ _ _ Hst Hf) as [Hf1 _].
  cbn [mbind option_bind]. apply IH; [done..|].
  intros c' Hc'. apply Hcells. by right.
Qed.

(** X12. The mask is used as a set: the pass looks at a mask pixel only
    to compare it with pure black.  Two masks that are black at the same
    visited pixels, and readable at the same ones, give the same result,
    whatever their other colours are. *)
Theorem unblend_mask_is_binary image mask mask' alpha ovr ovg ovb :
  dims_ok image →
  (∀ x y, 0 ≤ x < width image → 0 ≤ y < height image →
     (λ c_mask, bool_decide (c_mask = BLACK)) <$> get_pixel mask x y
     = (λ c_mask, bool_decide (c_mask = BLACK)) <$> get_pixel mask' x y) →
  main.unblend image mask alpha ovr ovg ovb
  = main.unblend image mask' alpha ovr ovg ovb.
Proof.
  intros Hd Hsame. rewrite !unblend_flat.
  apply run_same_cells; [done| |done|].
  { apply Forall_forall. intros c. by rewrite elem_of_coords. }
  intros [x y] Hc. apply elem_of_coords in Hc as [Hx Hy].
  specialize (Hsame x y Hx Hy). unfold cell. cbn [fst snd].
  destruct (get_pixel mask x y) as [cm|], (get_pixel mask' x y) as [cm'|];
    simpl in Hsame; simplify_eq; [|done].
  cbn [mbind option_bind]. by rewrite Hsame.
Qed.

Lemma unblend_mask_is_binary_witness :
  main.unblend sample_image sample_mask half 255 255 255
  = main.unblend sample_image
      (with_pixels sample_mask [grey 7; BLACK; BLACK; WHITE])
      half 255 255 255.
Proof.
  apply (unblend_mask_is_binary sample_image sample_mask
           (with_pixels sample_mask [grey 7; BLACK; BLACK; WHITE])
           half 255 255 255).
  - unfold dims_ok, int_max. simpl. lia.
  - intros x y Hx Hy. simpl in Hx, Hy.
    assert (x = 0 ∨ x = 1) as [-> | ->] by lia;
      assert (y = 0 ∨ y = 1) as [-> | ->] by lia; reflexivity.
Defined.

(** ** Blend factors that are not numbers *)

Lemma Eq_not_finite c alpha ov :
  not_finite alpha → is_uint8 c → is_uint8 ov →
  main.Eq c alpha ov = S754_nan.
Proof.
  intros Ha Hc Hov. unfold main.Eq. cbv zeta.
  pose proof (of_Z_uint8_finite c Hc) as Hfc.
  pose proof (of_Z_uint8_finite ov Hov) as Hfo.
  change (F32.of_Z 1) with (S754_finite false 8388608 (-23)).
  destruct (F32.of_Z c) as [sc|sc| |sc mc ec], (F32.of_Z ov) as [so|so| |so mo eo];
    try done; destruct alpha as [sa|sa| |sa ma ea]; try done.
Qed.

(** X13. Nothing checks that [alpha] is a number.  When it is NaN or an
    infinity the value of every masked channel is NaN, and storing it into
    a [uint8_t] is undefined: the pass has no defined behaviour as soon as
    one visited pixel is masked. *)
Theorem unblend_not_finite_alpha image mask alpha ovr ovg ovb x y c_mask c_f :
  dims_ok image → not_finite alpha →
  0 ≤ x < width image → 0 ≤ y < height image →
  get_pixel mask x y = Some c_mask → c_mask ≠ BLACK →
  get_pixel image x y = Some c_f → is_uint8 (r c_f) →
  main.unblend image mask alpha ovr ovg ovb = None.
Proof.
  intros Hd Ha Hx Hy Hm Hnb Hf Hr.
  apply (unblend_undefined_cell _ _ _ _ _ _ (x, y) Hd); [done|].
  rewrite (cell_masked _ _ _ _ _ _ _ _ _ _ Hm Hnb Hf). unfold recover.
  rewrite (Eq_not_finite (r c_f) alpha (uint8_of_int ovr));
    [reflexivity|done|done|].
  unfold is_uint8, uint8_of_int. pose proof (Z.mod_pos_bound ovr 256). lia.
Qed.

Lemma unblend_not_finite_alpha_witness :
  main.unblend sample_image sample_mask (S754_infinity false) 255 255 255
  = None.
Proof.
  apply (unblend_not_finite_alpha sample_image sample_mask
           (S754_infinity false) 255 255 255 0 0 WHITE (grey 200)).
  - unfold dims_ok, int_max. simpl. lia.
  - exact I.
  - simpl. lia.
  - simpl. lia.
  - reflexivity.
  - discriminate.
  - reflexivity.
  - unfold is_uint8. simpl. lia.
Defined.

(** X14. For every finite [alpha] that is not zero and is below 2 in
    magnitude, negative values included, the pass over a well-formed image
    and a mask of its size returns a well-formed buffer: no store is
    undefined although [alpha] is outside (0, 1]. *)
Theorem unblend_total_for_moderate_alpha image mask alpha ovr ovg ovb :
  wf_image image → mask_fits image mask → moderate alpha →
  ∃ rec, main.unblend image mask alpha ovr ovg ovb = Some rec ∧ wf_image rec.
Proof.
  intros Hwf Hfits Hmod.
  destruct (unblend_defined image mask alpha ovr ovg ovb Hwf Hfits)
    as [rec Hrun]; [by apply narrowing_defined_moderate|].
  exists rec. split; [done|]. by eapply unblend_wf.
Qed.

Lemma unblend_total_for_moderate_alpha_witness :
  ∃ rec,
    main.unblend sample_image sample_mask (F32.of_dyadic (-3) (-1))
      255 255 255 = Some rec
    ∧ wf_image rec.
Proof.
  apply (unblend_total_for_moderate_alpha sample_image sample_mask
           (F32.of_dyadic (-3) (-1)) 255 255 255).
  - apply wf_sample_image.
  - apply sample_mask_fits.
  - vm_compute. split; [reflexivity|]. intros H. discriminate H.
Defined.

(** ** Blend factors counted in eighths *)

Lemma Eq_eighths kk c ov :
  4 ≤ kk ≤ 8 → is_uint8 c → is_uint8 ov →
  ∃ n,
    F32.to_uint8 (main.Eq c (eighths kk) ov) = Some n
    ∧ is_uint8 n
    ∧ (8 * c - (8 - kk) * ov < 0 → n = 0)
    ∧ (0 ≤ 8 * c - (8 - kk) * ov →
       kk * n ≤ 8 * c - (8 - kk) * ov
       ∧ (8 * c - (8 - kk) * ov < kk * (n + 1) ∨ n = 255)).
Proof.
  intros Hkk Hc Hov. unfold is_uint8 in Hc, Hov.
  destruct (blend_table_sound kk (blend_table_checked kk Hkk)) as [Hmul Hdiv].
  destruct (Hmul ov Hov) as [_ Hmv].
  destruct (Hdiv (c * 2 ^ 3 - (8 - kk) * ov)) as (n & Hn & Hneg & Hpos);
    [nia|lia|].
  exists n. unfold main.Eq. cbv zeta. rewrite Hmv.
  rewrite (of_Z_canonical c 3) by (change (2 ^ 24) with 16777216; lia).
  rewrite sub_canonical by (change (2 ^ 24) with 16777216; lia || nia).
  split; [done|]. split; [by eapply to_uint8_range|].
  change (2 ^ 3) with 8 in *.
  replace (8 * c) with (c * 8) by lia. done.
Qed.

(** X15. When [alpha] is one of 1/2, 5/8, 3/4, 7/8 and 1, written [kk / 8],
    the binary32 computation of [Eq] and the store into a [uint8_t] give
    the exact quotient [(8 * c_final - (8 - kk) * c_overlay) / kk] rounded
    down and kept inside [0, 255]: no rounding error of the floating point
    operations reaches the stored channel. *)
Theorem Eq_exact_at_eighths kk c_final c_overlay :
  4 ≤ kk ≤ 8 → is_uint8 c_final → is_uint8 c_overlay →
  F32.to_uint8 (main.Eq c_final (eighths kk) c_overlay)
  = Some (Z.max 0 (Z.min 255
            ((8 * c_final - (8 - kk) * c_overlay) / kk))).
Proof.
  intros Hkk Hc Hov.
  destruct (Eq_eighths kk c_final c_overlay Hkk Hc Hov)
    as (n & -> & Hn & Hneg & Hpos).
  f_equal. unfold is_uint8 in Hn.
  set (a := 8 * c_final - (8 - kk) * c_overlay) in *.
  destruct (Z.lt_ge_cases a 0) as [Ha|Ha].
  - rewrite (Hneg Ha).
    assert (a / kk < 0) by (apply Z.div_lt_upper_bound; lia). lia.
  - destruct (Hpos Ha) as [Hlo [Hhi| ->]].
    + assert (a / kk = n) as ->; [|lia].
      symmetry. apply (Z.div_unique a kk n (a - kk * n)); lia.
    + assert (255 ≤ a / kk) by (apply Z.div_le_lower_bound; lia). lia.
Qed.

Lemma Eq_exact_at_eighths_witness :
  F32.to_uint8 (main.Eq 200 (eighths 6) 255)
  = Some (Z.max 0 (Z.min 255 ((8 * 200 - (8 - 6) * 255) / 6))).
Proof.
  apply (Eq_exact_at_eighths 6 200 255); unfold is_uint8; lia.
Defined.

Lemma store_cell_same_pixel rec i p :
  0 ≤ i → pixels rec !! Z.to_nat i = Some p →
  store_cell rec i (Some p) = Some rec.
Proof.
  intros Hi Hp. unfold store_cell, vector_store.
  pose proof (lookup_lt_Some _ _ _ Hp) as Hlt.
  rewrite bool_decide_true by lia. simpl.
  rewrite list_insert_id by done. by destruct rec.
Qed.

Lemma run_fixed image mask alpha ovr ovg ovb l :
  dims_ok image →
  ∀ rec,
    Forall (in_frame (width image) (height image)) l →
    same_frame image rec →
    (∀ c, c ∈ l →
       cell image mask alpha ovr ovg ovb c = Some None
       ∨ ∃ p, cell image mask alpha ovr ovg ovb c = Some (Some p)
              ∧ pixels rec !! Z.to_nat (idx image c) = Some p) →
    for_each (λ c, main.body image mask alpha ovr ovg ovb c.1 c.2) l rec
    = Some rec.
Proof.
  intros Hd. induction l as [|c l IH]; intros rec Hl Hf Hcells; simpl;
    [done|].
  apply Forall_cons in Hl as [Hc Hl].
  rewrite (body_cell image mask alpha ovr ovg ovb Hd c rec Hc Hf).
  assert (∀ c', c' ∈ l →
            cell image mask alpha ovr ovg ovb c' = Some None
            ∨ ∃ p, cell image mask alpha ovr ovg ovb c' = Some (Some p)
                   ∧ pixels rec !! Z.to_nat (idx image c') = Some p) as Hrest.
  { intros c' Hc'. apply Hcells. by right. }
  destruct (Hcells c) as [Hcell|(p & Hcell & Hp)]; [left|..];
    rewrite Hcell; cbn [mbind option_bind].
  - simpl. by apply IH.
  - rewrite store_cell_same_pixel by (done || by apply idx_nonneg).
    by apply IH.
Qed.

(** X16. With [alpha = 1] the overlay has no weight: over a well-formed
    image and a mask of its size the pass returns the image itself,
    whatever the mask selects and whatever the overlay colour is. *)
Theorem unblend_alpha_one image mask ovr ovg ovb :
  wf_image image → mask_fits image mask →
  main.unblend image mask (F32.of_Z 1) ovr ovg ovb = Some image.
Proof.
  intros (Hd & Hlen & Hpix) Hfits. rewrite unblend_flat.
  apply run_fixed; [done| |done|].
  { apply Forall_forall. intros c. by rewrite elem_of_coords. }
  intros c Hc. apply elem_of_coords in Hc.
  destruct (get_pixel_in_frame image mask c Hd Hfits Hc) as (cm & Hcm & _).
  destruct (decide (cm = BLACK)) as [->|Hnb].
  { left. unfold cell. by rewrite Hcm. }
  right.
  destruct (get_pixel_in_frame image image c Hd) as (cf & Hcf & Hin);
    [done|done|].
  rewrite Forall_forall in Hpix. destruct (Hpix _ Hin) as (Hr & Hg & Hb).
  assert (∀ v, is_uint8 (uint8_of_int v)) as Hov.
  { intros v. unfold is_uint8, uint8_of_int.
    pose proof (Z.mod_pos_bound v 256). lia. }
  assert (∀ ch ov, is_uint8 ch → is_uint8 ov →
            F32.to_uint8 (main.Eq ch (F32.of_Z 1) ov) = Some ch) as Hone.
  { intros ch ov Hch Ho. change (F32.of_Z 1) with (eighths 8).
    destruct (Eq_eighths 8 ch ov ltac:(lia) Hch Ho)
      as (n & -> & Hn & _ & Hpos).
    f_equal. unfold is_uint8 in *. lia. }
  exists cf. split.
  - destruct c as [x y].
    rewrite (cell_masked _ _ _ _ _ _ _ _ _ _ Hcm Hnb Hcf). unfold recover.
    rewrite !Hone by done. by destruct cf.
  - destruct Hc as [Hx Hy].
    rewrite get_pixel_stored in Hcf by (done || lia). done.
Qed.

Lemma unblend_alpha_one_witness :
  main.unblend sample_image sample_mask (F32.of_Z 1) 255 255 255
  = Some sample_image.
Proof.
  apply (unblend_alpha_one sample_image sample_mask 255 255 255).
  - apply wf_sample_image.
  - apply sample_mask_fits.
Defined.

(** ** Reading and decoding the inputs *)

Lemma length_bytes_of_pixels v :
  length (bytes_of_pixels v) = (3 * length v)%nat.
Proof.
  unfold bytes_of_pixels. induction v as [|p v IH]; [done|].
  change ((p :: v) ≫= λ p, [r p; g p; b p])
    with ([r p; g p; b p] ++ (v ≫= λ p, [r p; g p; b p])).
  rewrite length_app, IH. simpl. lia.
Qed.

Lemma pixels_of_bytes_of_pixels v : pixels_of_bytes (bytes_of_pixels v) = v.
Proof.
  unfold bytes_of_pixels. induction v as [|p v IH]; [done|].
  change ((p :: v) ≫= λ p, [r p; g p; b p])
    with (r p :: g p :: b p :: (v ≫= λ p, [r p; g p; b p])).
  simpl. rewrite IH. by destruct p.
Qed.

Lemma bytes_of_pixels_ok v :
  Forall pixel_ok v → Forall is_uint8 (bytes_of_pixels v).
Proof.
  unfold bytes_of_pixels. induction 1 as [|p v (Hr & Hg & Hb) _ IH]; [done|].
  change ((p :: v) ≫= λ p, [r p; g p; b p])
    with (r p :: g p :: b p :: (v ≫= λ p, [r p; g p; b p])).
  repeat apply Forall_cons_2; done.
Qed.

Lemma length_pixels_of_bytes n : ∀ l,
  length l = (3 * n)%nat → length (pixels_of_bytes l) = n.
Proof.
  induction n as [|n IH]; intros l Hl.
  - by destruct l.
  - destruct l as [|c1 [|c2 [|c3 l]]]; simpl in Hl; try lia.
    simpl. f_equal. apply IH. lia.
Qed.

Lemma pixels_of_bytes_ok l :
  Forall is_uint8 l → Forall pixel_ok (pixels_of_bytes l).
Proof.
  revert l. fix IH 1. intros [|c1 [|c2 [|c3 l]]] Hl; simpl;
    try apply Forall_nil_2.
  apply Forall_cons in Hl as [H1 Hl]. apply Forall_cons in Hl as [H2 Hl].
  apply Forall_cons in Hl as [H3 Hl].
  apply Forall_cons_2; [done|]. by apply IH.
Qed.

(** X18. A file that cannot be opened and a file of length zero are
    treated alike: [open_webp] fails before libwebp is called, the pixels
    and the dimensions of [out_image] are as before, and its data is
    emptied only in the second case.  These are the only failures that do
    not depend on what libwebp answers. *)
Theorem open_webp_nothing_to_read fs path out_image :
  (fs !! path = None ∨ fs !! path = Some [] →
   ∀ lib,
     open_webp lib fs path out_image
     = (false,
        {| data := default (data out_image) (fs !! path);
           pixels := pixels out_image;
           width := width out_image; height := height out_image |}))
  ∧ ((∀ lib, (open_webp lib fs path out_image).1 = false) →
     fs !! path = None ∨ fs !! path = Some []).
Proof.
  split.
  - intros [Hp|Hp] lib; unfold open_webp, read_file; rewrite Hp; simpl; done.
  - intros Hfail.
    specialize (Hfail {| WebPGetInfo _ := Some (0, 0);
                         WebPDecodeRGBInto _ buffer _ := (true, buffer);
                         WebPEncodeLosslessRGB _ _ _ _ := None |}).
    unfold open_webp, read_file in Hfail.
    destruct (fs !! path) as [[|c content]|]; [by right| |by left].
    simpl in Hfail. done.
Qed.

Lemma open_webp_inv lib fs path out_image img :
  open_webp lib fs path out_image = (true, img) →
  ∃ w h buffer,
    fs !! path = Some (data img) ∧ data img ≠ []
    ∧ WebPGetInfo lib (data img) = Some (w, h)
    ∧ width img = w ∧ height img = h
    ∧ WebPDecodeRGBInto lib (data img)
        (bytes_of_pixels
           (resize
              (Z.to_nat ((size_t_of_int w * size_t_of_int h)
                         mod size_t_modulus))
              default_pixel (pixels out_image)))
        (int_of_size_t ((sizeof_Pixel * size_t_of_int w) mod size_t_modulus))
      = (true, buffer)
    ∧ pixels img = pixels_of_bytes buffer.
Proof.
  unfold open_webp, read_file. intros Hopen.
  destruct (fs !! path) as [content|] eqn:Hp; [|done].
  case_bool_decide as Hlen; [done|].
  destruct (WebPGetInfo lib content) as [[w h]|] eqn:Hinfo; [|done].
  destruct (WebPDecodeRGBInto lib content _ _) as [ok buffer] eqn:Hdec.
  simplify_eq. simpl. exists w, h, buffer.
  repeat split; try done. intros ->. done.
Qed.

Lemma open_webp_wf lib fs path out_image img :
  libwebp_ok lib →
  open_webp lib fs path out_image = (true, img) →
  wf_image img.
Proof.
  intros [Hinfo Hdec] Hopen.
  destruct (open_webp_inv _ _ _ _ _ Hopen)
    as (w & h & buffer & _ & _ & Hi & Hw & Hh & Hd & Hpx).
  destruct (Hinfo _ _ _ Hi) as (Hw0 & Hw1 & Hh0).
  destruct (Hdec _ _ _ _ Hd) as [Hlen Hbytes].
  unfold sizeof_Pixel in Hw1.
  assert (0 ≤ w ≤ int_max) as Hwr by lia.
  rewrite !size_t_of_int_small in Hlen by done.
  rewrite length_bytes_of_pixels, length_resize in Hlen.
  rewrite Z.mod_small in Hlen
    by (unfold size_t_modulus, int_max in *; nia).
  split; [|split].
  - unfold dims_ok. by rewrite Hw, Hh.
  - rewrite Hpx, Hw, Hh.
    rewrite (length_pixels_of_bytes (Z.to_nat (w * h))) by done. nia.
  - rewrite Hpx. by apply pixels_of_bytes_ok.
Qed.

(** X19. When [open_webp] returns [true], and libwebp reports dimensions
    that are not negative and fills the buffer it is given with bytes, the
    image is well-formed, whatever [out_image] held before:
    [pixels.size() == width * height] with the dimensions of [WebPGetInfo],
    every channel is a [uint8_t], and [data] is the whole file, which is
    not empty. *)
Theorem open_webp_well_formed lib fs path out_image img :
  libwebp_ok lib →
  open_webp lib fs path out_image = (true, img) →
  wf_image img
  ∧ fs !! path = Some (data img) ∧ data img ≠ []
  ∧ WebPGetInfo lib (data img) = Some (width img, height img).
Proof.
  intros Hlib Hopen. split; [by eapply open_webp_wf|].
  destruct (open_webp_inv _ _ _ _ _ Hopen)
    as (w & h & buffer & Hp & Hne & Hi & Hw & Hh & _).
  by rewrite Hw, Hh.
Qed.

Lemma raw_lib_ok : libwebp_ok raw_lib.
Proof.
  split.
  - intros d w h Hinfo. simpl in Hinfo.
    destruct d as [|w0 [|h0 d]]; simplify_eq.
    pose proof (Z.mod_pos_bound w0 256). pose proof (Z.mod_pos_bound h0 256).
    unfold sizeof_Pixel, int_max. lia.
  - intros d buffer stride buffer' Hdec. simpl in Hdec.
    case_bool_decide as Hlen; simplify_eq. split.
    + rewrite length_take. lia.
    + apply Forall_take, Forall_fmap, Forall_forall. intros c _. simpl.
      unfold is_uint8. pose proof (Z.mod_pos_bound c 256). lia.
Qed.

Lemma open_webp_well_formed_witness :
  wf_image decoded_sample
  ∧ sample_files !! "image.webp"%string = Some (data decoded_sample)
  ∧ data decoded_sample ≠ []
  ∧ WebPGetInfo raw_lib (data decoded_sample)
    = Some (width decoded_sample, height decoded_sample).
Proof.
  apply (open_webp_well_formed raw_lib sample_files "image.webp" sample_mask).
  - apply raw_lib_ok.
  - reflexivity.
Defined.

(** ** The whole program *)

(** X20. The only file [main] can change is the one named by [--output],
    and it changes it only when it returns 0: after a return of -1 or an
    uncaught exception every file is as before. *)
Theorem run_main_writes_only_output lib vm fs can_write o fs' :
  run_main lib vm fs can_write = (o, fs') →
  (o = Exit (-1) ∨ o = Thrown → fs' = fs)
  ∧ (∀ code, o = Exit code → code = 0 ∨ code = -1)
  ∧ (o = Exit 0 →
     ∃ output out_data,
       vm_output vm = Some output ∧ can_write output = true
       ∧ fs' = <[output := out_data]> fs).
Proof.
  unfold run_main. intros Hrun.
  repeat
    match type of Hrun with
    | (let '(_, _) := ?e in _) = _ => destruct e as [? ?]
    | (match ?e with _ => _ end) = _ => destruct e eqn:?
    | (if ?e then _ else _) = _ => destruct e eqn:?
    end;
    simplify_eq; (split; [|split]); try done;
    try (intros ? ?; simplify_eq; lia);
    try (intros [?|?]; done);
    try (intros _; eauto).
Qed.

Lemma run_main_writes_only_output_witness :
  (Exit 0 = Exit (-1) ∨ Exit 0 = Thrown →
   <["out.webp"%string := sample_output]> sample_files = sample_files)
  ∧ (∀ code, Exit 0 = Exit code → code = 0 ∨ code = -1)
  ∧ (Exit 0 = Exit 0 →
     ∃ output out_data,
       vm_output sample_vm = Some output ∧ (λ _ : string, true) output = true
       ∧ <["out.webp"%string := sample_output]> sample_files
         = <[output := out_data]> sample_files).
Proof.
  apply (run_main_writes_only_output raw_lib sample_vm sample_files
           (λ _, true)).
  vm_cast_no_check
    (eq_refl (Exit 0, <["out.webp"%string := sample_output]> sample_files)).
Defined.

Lemma stride_small w :
  0 ≤ w → sizeof_Pixel * w ≤ int_max →
  int_of_size_t ((size_t_of_int w * sizeof_Pixel) mod size_t_modulus)
  = sizeof_Pixel * w.
Proof.
  unfold sizeof_Pixel, int_max. intros Hw0 Hw.
  rewrite size_t_of_int_small by (unfold int_max; lia).
  unfold int_of_size_t, size_t_modulus.
  rewrite (Z.mod_small (w * 3)) by lia.
  rewrite Z.mod_small by lia. lia.
Qed.

(** X21. The program from the command line to the output file, when both
    inputs decode to pictures of one size, every option is given and
    [alpha] is a binary32 number in (0, 1]: [main] neither throws nor runs
    into undefined behaviour.  The encoder is called on the well-formed
    buffer [rec] of the pass, seen as [3 * width * height] bytes with a
    stride of [3 * width]; [main] returns 0 and the output file holds the
    encoder's bytes when the encoder succeeds and the file can be opened,
    and returns -1 with every file as before otherwise. *)
Theorem run_main_defined lib vm fs can_write image_path mask_path output
    alpha ovr ovg ovb image mask :
  libwebp_ok lib →
  vm = {| vm_image := Some image_path; vm_mask := Some mask_path;
          vm_output := Some output; vm_alpha := Some alpha;
          vm_r := Some ovr; vm_g := Some ovg; vm_b := Some ovb |} →
  open_webp lib fs image_path empty_image = (true, image) →
  open_webp lib fs mask_path empty_image = (true, mask) →
  width mask = width image → height mask = height image →
  in_unit_interval alpha →
  ∃ rec,
    main.unblend image mask alpha ovr ovg ovb = Some rec
    ∧ wf_image rec
    ∧ Z.of_nat (length (bytes_of_pixels (pixels rec)))
      = 3 * width image * height image
    ∧ run_main lib vm fs can_write
      = match WebPEncodeLosslessRGB lib (bytes_of_pixels (pixels rec))
                (width image) (height image) (3 * width image)
        with
        | Some out_data =>
            if can_write output then (Exit 0, <[output := out_data]> fs)
            else (Exit (-1), fs)
        | None => (Exit (-1), fs)
        end.
Proof.
  intros Hlib -> Hi Hm Hw Hh Ha.
  pose proof (open_webp_wf _ _ _ _ _ Hlib Hi) as Hwfi.
  pose proof (open_webp_wf _ _ _ _ _ Hlib Hm) as (_ & Hlenm & _).
  assert (mask_fits image mask) as Hfits.
  { unfold mask_fits. by rewrite Hlenm, Hw, Hh. }
  destruct (unblend_defined image mask alpha ovr ovg ovb Hwfi Hfits)
    as [rec Hrun]; [by apply narrowing_defined_unit|].
  pose proof (unblend_wf _ _ _ _ _ _ _ Hwfi Hrun) as Hwfr.
  destruct Hwfi as (Hd & _ & _).
  destruct (unblend_frame _ _ _ _ _ _ _ Hd Hrun) as [(Hwr & Hhr & _) _].
  exists rec. split; [done|]. split; [done|]. split.
  - destruct Hwfr as (_ & Hlenr & _).
    rewrite length_bytes_of_pixels. rewrite <- Hwr, <- Hhr. lia.
  - destruct (open_webp_inv _ _ _ _ _ Hi)
      as (w & h & _ & _ & _ & Hinfo & Hwi & _).
    destruct Hlib as [Hdims _].
    destruct (Hdims _ _ _ Hinfo) as (Hw0 & Hw1 & _).
    unfold run_main. simpl. rewrite Hi. simpl. rewrite Hm. simpl.
    rewrite Hrun, Hwr, Hhr.
    rewrite stride_small by (by rewrite Hwi). done.
Qed.

Lemma run_main_defined_witness :
  ∃ rec,
    main.unblend decoded_sample decoded_mask half 255 255 255 = Some rec
    ∧ wf_image rec
    ∧ Z.of_nat (length (bytes_of_pixels (pixels rec)))
      = 3 * width decoded_sample * height decoded_sample
    ∧ run_main raw_lib sample_vm sample_files (λ _, true)
      = match WebPEncodeLosslessRGB raw_lib (bytes_of_pixels (pixels rec))
                (width decoded_sample) (height decoded_sample)
                (3 * width decoded_sample)
        with
        | Some out_data =>
            if (λ _ : string, true) "out.webp"%string
            then (Exit 0, <["out.webp"%string := out_data]> sample_files)
            else (Exit (-1), sample_files)
        | None => (Exit (-1), sample_files)
        end.
Proof.
  apply (run_main_defined raw_lib sample_vm sample_files (λ _, true)
           "image.webp" "mask.webp" "out.webp" half 255 255 255
           decoded_sample decoded_mask).
  - apply raw_lib_ok.
  - reflexivity.
  - reflexivity.
  - reflexivity.
  - reflexivity.
  - reflexivity.
  - by vm_compute.
Defined.
